(** * husky-note: markers, language registry and the editor view's render scheduling

    A shallow embedding of the parts of the repository that carry an
    invariant:

    - [IMarkerData.makeKey] and [MarkerSeverity.toString] (platform/markers),
    - [LanguagesRegistry] (editor/common/services/languagesRegistry),
    - [View] (editor/browser/view/viewImpl): the render scheduling, the render
      pass and [View.change].

    Definitions come first, the statements about them follow. *)

From Stdlib Require Import ZArith NArith List Lia Bool String Ascii DecimalZ.
From stdpp Require Import base option list gmap.
Import ListNotations.

Local Open Scope N_scope.
Local Open Scope list_scope.

(* ===================================================================== *)
(** * Part I: definitions *)
(* ===================================================================== *)

(** ** JavaScript strings

    A JavaScript string is a sequence of UTF-16 code units.  The marker key
    uses the separator U+00A6 (BROKEN BAR), which is one code unit. *)

Module JS.

Definition char := N.
Definition jsstring := list N.

(** ASCII literals, so that the embedding can quote the source's strings. *)
Definition js (s : string) : jsstring :=
  List.map N_of_ascii (list_ascii_of_string s).

Definition BROKEN_BAR : char := 166.

(** Truthiness of a possibly undefined string: defined and not empty. *)
Definition truthy (o : option jsstring) : bool :=
  match o with
  | Some (_ :: _) => true
  | _ => false
  end.

(** [s.replace(pat, rep)] with a one-character string pattern: only the
    first occurrence is replaced. *)
Fixpoint replace (pat : char) (rep : jsstring) (s : jsstring) : jsstring :=
  match s with
  | [] => []
  | c :: s' => if N.eqb c pat then rep ++ s' else c :: replace pat rep s'
  end.

(** [parts.join(sep)] *)
Fixpoint join (sep : jsstring) (parts : list jsstring) : jsstring :=
  match parts with
  | [] => []
  | [x] => x
  | x :: rest => x ++ sep ++ join sep rest
  end.

(** [n.toString()] for an integral number: decimal digits, with a leading
    minus sign for negative values.  (Line numbers and columns are
    integers; the model is exact below 2^53.) *)
Fixpoint uint_units (d : Decimal.uint) : jsstring :=
  match d with
  | Decimal.Nil => []
  | Decimal.D0 d => 48 :: uint_units d
  | Decimal.D1 d => 49 :: uint_units d
  | Decimal.D2 d => 50 :: uint_units d
  | Decimal.D3 d => 51 :: uint_units d
  | Decimal.D4 d => 52 :: uint_units d
  | Decimal.D5 d => 53 :: uint_units d
  | Decimal.D6 d => 54 :: uint_units d
  | Decimal.D7 d => 55 :: uint_units d
  | Decimal.D8 d => 56 :: uint_units d
  | Decimal.D9 d => 57 :: uint_units d
  end.

Definition int_units (d : Decimal.int) : jsstring :=
  match d with
  | Decimal.Pos u => uint_units u
  | Decimal.Neg u => 45 :: uint_units u
  end.

Definition Number_toString (z : Z) : jsstring := int_units (Z.to_int z).

End JS.

Import JS.

(** ** platform/markers/common/markers *)

(** [nls.localize(key, defaultMessage)] is not part of the sources at hand;
  it is a parameter of the development. *)
Class Nls := { localize : string -> jsstring -> jsstring }.

Inductive MarkerTag := Unnecessary.

Module MarkerSeverity.

Inductive t := Hint | Info | Warning | Error.

Definition value (a : t) : Z :=
  match a with
  | Hint => 1
  | Info => 2
  | Warning => 4
  | Error => 8
  end%Z.

Definition compare (a b : t) : Z := (value b - value a)%Z.

Section WithNls.
Context `{Nls}.

(** The table is filled for [Error], [Warning] and [Info] only. *)
Definition _displayStrings (a : t) : option jsstring :=
  match a with
  | Error => Some (localize "sev.error" (js "Error"))
  | Warning => Some (localize "sev.warning" (js "Warning"))
  | Info => Some (localize "sev.info" (js "Info"))
  | Hint => None
  end.

(** [_displayStrings[a] || ''] *)
Definition toString (a : t) : jsstring :=
  match _displayStrings a with
  | Some (c :: s) => c :: s
  | _ => []
  end.
End WithNls.

End MarkerSeverity.

Record IRelatedInformation := {
ri_resource : jsstring;
ri_message : jsstring;
ri_startLineNumber : Z;
ri_startColumn : Z;
ri_endLineNumber : Z;
ri_endColumn : Z
}.

(** Every field that [makeKey] tests for presence is an [option]: [None] is
  [undefined] (or [null]). *)
Record IMarkerData := {
code : option jsstring;
severity : option MarkerSeverity.t;
message : option jsstring;
source : option jsstring;
startLineNumber : option Z;
startColumn : option Z;
endLineNumber : option Z;
endColumn : option Z;
relatedInformation : option (list IRelatedInformation);
tags : option (list MarkerTag)
}.

Module IMarkerDataNS.
Section WithNls.
Context `{Nls}.

Definition emptyString : jsstring := [].

(** [if (s) push(s.replace('¦', '\¦')) else push('')].  The replacement
    literal ['\¦'] denotes the one-character string ['¦']: a backslash
    before a character that starts no escape sequence is dropped. *)
Definition push_string (result : list jsstring) (s : option jsstring)
  : list jsstring :=
  match s with
  | Some str =>
      if truthy s then result ++ [replace BROKEN_BAR [BROKEN_BAR] str]
      else result ++ [emptyString]
  | None => result ++ [emptyString]
  end.

(** [if (n !== void 0 && n !== null) push(n.toString()) else push('')] *)
Definition push_number (result : list jsstring) (n : option Z)
  : list jsstring :=
  match n with
  | Some z => result ++ [Number_toString z]
  | None => result ++ [emptyString]
  end.

Definition push_severity (result : list jsstring)
  (s : option MarkerSeverity.t) : list jsstring :=
  match s with
  | Some a => result ++ [MarkerSeverity.toString a]
  | None => result ++ [emptyString]
  end.

Definition makeKey (markerData : IMarkerData) : jsstring :=
  let result := [emptyString] in
  let result := push_string result (source markerData) in
  let result := push_string result (code markerData) in
  let result := push_severity result (severity markerData) in
  let result := push_string result (message markerData) in
  let result := push_number result (startLineNumber markerData) in
  let result := push_number result (startColumn markerData) in
  let result := push_number result (endLineNumber markerData) in
  let result := push_number result (endColumn markerData) in
  let result := result ++ [emptyString] in
  join [BROKEN_BAR] result.
End WithNls.
End IMarkerDataNS.

Import IMarkerDataNS.

(** Without a language pack [localize] returns its default message. *)
Definition default_nls : Nls := {| localize := fun _ msg => msg |}.

(** *** Vocabulary of the key statements *)

Definition bar_free (s : jsstring) : Prop := ~ In BROKEN_BAR s.

(** A defined, non-empty string without the separator. *)
Definition safe_string (o : option jsstring) : Prop :=
  exists s, o = Some s /\ s <> [] /\ bar_free s.

Definition safe_severity (o : option MarkerSeverity.t) : Prop :=
  o = Some MarkerSeverity.Error \/ o = Some MarkerSeverity.Warning \/
  o = Some MarkerSeverity.Info.

Definition safe_marker (m : IMarkerData) : Prop :=
  safe_string (source m) /\ safe_string (code m) /\
  safe_string (message m) /\ safe_severity (severity m) /\
  is_Some (startLineNumber m) /\ is_Some (startColumn m) /\
  is_Some (endLineNumber m) /\ is_Some (endColumn m).

(** Agreement on the eight fields that enter the key. *)
Definition same_key_fields (a b : IMarkerData) : Prop :=
  source a = source b /\ code a = code b /\ severity a = severity b /\
  message a = message b /\
  startLineNumber a = startLineNumber b /\ startColumn a = startColumn b /\
  endLineNumber a = endLineNumber b /\ endColumn a = endColumn b.

(** What the statements need from the absent [localize]: the three display
    strings are told apart and hold no separator. *)
Definition display_strings_ok `{Nls} : Prop :=
  let e := MarkerSeverity.toString MarkerSeverity.Error in
  let w := MarkerSeverity.toString MarkerSeverity.Warning in
  let i := MarkerSeverity.toString MarkerSeverity.Info in
  bar_free e /\ bar_free w /\ bar_free i /\ e <> w /\ e <> i /\ w <> i.

Definition marker_1 : IMarkerData := {|
  code := Some (js "E1"); severity := Some MarkerSeverity.Error;
  message := Some (js "oops"); source := Some (js "tsc");
  startLineNumber := Some 1%Z; startColumn := Some 2%Z;
  endLineNumber := Some 1%Z; endColumn := Some 7%Z;
  relatedInformation := None; tags := None |}.

Definition marker_2 : IMarkerData := {|
  code := Some (js "E1"); severity := Some MarkerSeverity.Error;
  message := Some (js "oops"); source := Some (js "tsc");
  startLineNumber := Some 1%Z; startColumn := Some 2%Z;
  endLineNumber := Some 1%Z; endColumn := Some 7%Z;
  relatedInformation := None; tags := Some [Unnecessary] |}.

(** ** editor/common/services/languagesRegistry *)

(** A plain object used as a map from strings.  [hasOwnProperty] sees the own
    properties only, and an assignment to the key [__proto__] replaces the
    prototype of the object instead of creating an own property. *)
Definition PROTO : jsstring := js "__proto__".

Definition hasOwnProperty {V} (o : gmap jsstring V) (k : jsstring) : bool :=
  bool_decide (is_Some (o !! k)).

Definition obj_set {V} (k : jsstring) (v : V) (o : gmap jsstring V)
  : gmap jsstring V :=
  if decide (k = PROTO) then o else <[k := v]> o.

(** [a[i] = v] on an array with holes: an index past the end extends the
    array, the skipped slots stay empty. *)
Definition array_set {V} (i : N) (v : V) (a : list (option V))
  : list (option V) :=
  let n := N.to_nat i in
  if decide (n < length a)%nat then <[n := Some v]> a
  else a ++ replicate (n - length a) None ++ [Some v].

(** [a[i]]: [None] is [undefined]. *)
Definition array_get {V} (i : N) (a : list (option V)) : option V :=
  match a !! N.to_nat i with
  | Some (Some v) => Some v
  | _ => None
  end.

Definition URI := jsstring.
Definition LanguageId := N.

Record LanguageIdentifier := {
  li_language : jsstring;
  li_id : LanguageId
}.

(** The constants of the modes module ([LanguageId.Null], [NULL_MODE_ID],
    [NULL_LANGUAGE_IDENTIFIER]) are declared outside the sources at hand;
    they are parameters. *)
Class Modes := {
  LanguageId_Null : LanguageId;
  NULL_MODE_ID : jsstring;
  NULL_LANGUAGE_IDENTIFIER : LanguageIdentifier
}.

Record ILanguageExtensionPoint := {
  lang_id : jsstring;
  lang_extensions : option (list jsstring);
  lang_filenames : option (list jsstring);
  lang_filenamePatterns : option (list jsstring);
  lang_firstLine : option jsstring;
  lang_aliases : option (list jsstring);
  lang_mimetypes : option (list jsstring);
  lang_configuration : option URI
}.

Record IResolvedLanguage := {
  identifier : LanguageIdentifier;
  name : option jsstring;
  mimetypes : list jsstring;
  aliases : list jsstring;
  extensions : list jsstring;
  filenames : list jsstring;
  configurationFiles : list URI
}.

(** The state of a [LanguagesRegistry].  The three lookup maps rebuilt by
    [_registerLanguages] are derived data and are not part of the model. *)
Record LanguagesRegistry := {
  _nextLanguageId : N;
  _languages : gmap jsstring IResolvedLanguage;
  _languageIds : list (option jsstring);
  _warnOnOverwrite : bool
}.

(** [new LanguagesRegistry(false, warnOnOverwrite)] *)
Definition new_LanguagesRegistry (warnOnOverwrite : bool) : LanguagesRegistry :=
  {| _nextLanguageId := 1;
     _languages := ∅;
     _languageIds := [];
     _warnOnOverwrite := warnOnOverwrite |}.

(** The mutation of the resolved language by [_mergeLanguage].  The calls to
    [mime.registerTextMime] act on another module's table and are left
    out. *)
Definition _mergeLanguage (resolvedLanguage : IResolvedLanguage)
  (lang : ILanguageExtensionPoint) : IResolvedLanguage :=
  let langId := lang_id lang in
  let '(mimetypes1, primaryMime) :=
    match lang_mimetypes lang with
    | Some (m :: ms) => (mimetypes resolvedLanguage ++ m :: ms, Some m)
    | _ => (mimetypes resolvedLanguage, None)
    end in
  let mimetypes2 :=
    if truthy primaryMime then mimetypes1
    else mimetypes1 ++ [js "text/x-" ++ langId] in
  let extensions1 :=
    match lang_extensions lang with
    | Some l => extensions resolvedLanguage ++ l
    | None => extensions resolvedLanguage
    end in
  let filenames1 :=
    match lang_filenames lang with
    | Some l => filenames resolvedLanguage ++ l
    | None => filenames resolvedLanguage
    end in
  let aliases1 := aliases resolvedLanguage ++ [langId] in
  let langAliases : option (list (option jsstring)) :=
    match lang_aliases lang with
    | Some [] => Some [None]
    | Some l => Some (List.map Some l)
    | None => None
    end in
  let aliases2 :=
    match langAliases with
    | Some l =>
        aliases1 ++
        omap (fun a => if truthy a then a else None) l
    | None => aliases1
    end in
  let containsAliases :=
    match langAliases with
    | Some (_ :: _) => true
    | _ => false
    end in
  let first := match langAliases with Some (a :: _) => a | _ => None end in
  let name1 :=
    if containsAliases && bool_decide (first = None) then name resolvedLanguage
    else
      let bestName :=
        if truthy (if containsAliases then first else None)
        then default langId first else langId in
      if containsAliases || negb (truthy (name resolvedLanguage))
      then Some bestName else name resolvedLanguage in
  let configurationFiles1 :=
    if truthy (lang_configuration lang)
    then configurationFiles resolvedLanguage ++
         [default [] (lang_configuration lang)]
    else configurationFiles resolvedLanguage in
  {| identifier := identifier resolvedLanguage;
     name := name1;
     mimetypes := mimetypes2;
     aliases := aliases2;
     extensions := extensions1;
     filenames := filenames1;
     configurationFiles := configurationFiles1 |}.

(** The resolved language is one object: the entry of [_languages] and the
    argument of [_mergeLanguage] are aliases, so the merged value is what the
    map holds afterwards. *)
Definition _registerLanguage (lang : ILanguageExtensionPoint)
  (this : LanguagesRegistry) : LanguagesRegistry :=
  let langId := lang_id lang in
  match _languages this !! langId with
  | Some resolvedLanguage =>
      {| _nextLanguageId := _nextLanguageId this;
         _languages :=
           <[langId := _mergeLanguage resolvedLanguage lang]> (_languages this);
         _languageIds := _languageIds this;
         _warnOnOverwrite := _warnOnOverwrite this |}
  | None =>
      let languageId := _nextLanguageId this in
      let resolvedLanguage :=
        {| identifier := {| li_language := langId; li_id := languageId |};
           name := None; mimetypes := []; aliases := []; extensions := [];
           filenames := []; configurationFiles := [] |} in
      {| _nextLanguageId := languageId + 1;
         _languages :=
           obj_set langId (_mergeLanguage resolvedLanguage lang)
             (_languages this);
         _languageIds := array_set languageId langId (_languageIds this);
         _warnOnOverwrite := _warnOnOverwrite this |}
  end.

(** The loop of [_registerLanguages]. *)
Definition _registerLanguages (desc : list ILanguageExtensionPoint)
  (this : LanguagesRegistry) : LanguagesRegistry :=
  fold_left (fun r lang => _registerLanguage lang r) desc this.

(** [getLanguageIdentifier(_modeId: string | LanguageId)]; [None] is the
    [null] result. *)
Definition getLanguageIdentifier `{Modes} (_modeId : jsstring + LanguageId)
  (this : LanguagesRegistry) : option LanguageIdentifier :=
  let lookup (modeId : jsstring) :=
    if hasOwnProperty (_languages this) modeId
    then identifier <$> (_languages this !! modeId)
    else None in
  match _modeId with
  | inl modeId =>
      if decide (modeId = NULL_MODE_ID) then Some NULL_LANGUAGE_IDENTIFIER
      else lookup modeId
  | inr languageId =>
      if decide (languageId = LanguageId_Null)
      then Some NULL_LANGUAGE_IDENTIFIER
      else
        let modeId := array_get languageId (_languageIds this) in
        if truthy modeId then lookup (default [] modeId) else None
  end.

(** The constants as the editor declares them. *)
Definition editor_modes : Modes :=
  {| LanguageId_Null := 0;
     NULL_MODE_ID := js "vs.editor.nullMode";
     NULL_LANGUAGE_IDENTIFIER :=
       {| li_language := js "vs.editor.nullMode"; li_id := 0 |} |}.

Definition plain_language (langId : jsstring) : ILanguageExtensionPoint :=
  {| lang_id := langId; lang_extensions := None; lang_filenames := None;
     lang_filenamePatterns := None; lang_firstLine := None;
     lang_aliases := None; lang_mimetypes := None;
     lang_configuration := None |}.

(** The bookkeeping invariant of the registry: every own entry of
    [_languages] carries its own key and a numeric id that was handed out
    (between 1 and [_nextLanguageId]) and under which [_languageIds] holds
    the key; [_languageIds] never reaches past [_nextLanguageId]. *)
Definition registry_inv (r : LanguagesRegistry) : Prop :=
  (forall k rl,
     _languages r !! k = Some rl ->
     li_language (identifier rl) = k /\
     1 <= li_id (identifier rl) < _nextLanguageId r /\
     _languageIds r !! N.to_nat (li_id (identifier rl)) = Some (Some k)) /\
  (length (_languageIds r) <= N.to_nat (_nextLanguageId r))%nat /\
  1 <= _nextLanguageId r.

(** ** editor/browser/view/viewImpl *)

(** A call either returns or throws; both leave a state behind. *)
Inductive Outcome (S E A : Type) : Type :=
| Ret (a : A) (s : S)
| Throw (e : E) (s : S).

Arguments Ret {S E A} a s.
Arguments Throw {S E A} e s.

(** What the view calls but does not define: the DOM helper, the view parts,
    the view lines, the layout, the model, the cursor and the view zones.
    [World] is the state all of them live in.  Methods that only read are
    functions of the world; methods that act may change it and may throw. *)
Class Collaborators := {
  World : Type;
  Exn : Type;
  Part : Type;
  Selections : Type;
  PartialViewportData : Type;
  Whitespaces : Type;
  ViewportData : Type;
  RenderingContext : Type;
  Zone : Type;
  (* base/browser/dom *)
  isInDOM : World -> bool;
  (* ViewPart *)
  shouldRender : Part -> World -> bool;
  forceShouldRender : Part -> World -> World;
  prepareRender : Part -> RenderingContext -> World -> Outcome World Exn unit;
  render : Part -> RenderingContext -> World -> Outcome World Exn unit;
  onDidRender : Part -> World -> Outcome World Exn unit;
  (* ViewContentWidgets *)
  onBeforeRender : ViewportData -> World -> Outcome World Exn unit;
  (* ViewLines *)
  viewLines_shouldRender : World -> bool;
  viewLines_forceShouldRender : World -> World;
  viewLines_renderText : ViewportData -> World -> Outcome World Exn unit;
  viewLines_onDidRender : World -> Outcome World Exn unit;
  (* viewLayout, model, cursor *)
  getLinesViewportData : World -> PartialViewportData;
  pvd_startLineNumber : PartialViewportData -> Z;
  pvd_endLineNumber : PartialViewportData -> Z;
  pvd_centeredLineNumber : PartialViewportData -> Z;
  setViewport : Z -> Z -> Z -> World -> Outcome World Exn unit;
  getViewSelections : World -> Selections;
  getWhitespaceViewportData : World -> Whitespaces;
  new_ViewportData :
    Selections -> PartialViewportData -> Whitespaces -> ViewportData;
  new_RenderingContext : ViewportData -> RenderingContext;
  (* ViewZones, viewLayout, privateViewEventBus *)
  viewZones_addZone : Zone -> World -> Outcome World Exn Z;
  viewZones_removeZone : Z -> World -> Outcome World Exn bool;
  viewZones_layoutZone : Z -> World -> Outcome World Exn bool;
  onHeightMaybeChanged : World -> Outcome World Exn unit;
  emit_ViewZonesChangedEvent : World -> Outcome World Exn unit
}.

(** The handle ([IDisposable]) of a scheduled animation-frame callback. *)
Definition Handle := nat.

Section ViewImpl.
Context `{Collaborators}.

(** The calls the view makes, in the order it makes them. *)
Inductive Event :=
| EActualRender
| ESetViewport (startLineNumber endLineNumber centeredLineNumber : Z)
| ENewViewportData (viewportData : ViewportData)
| EOnBeforeRender (viewportData : ViewportData)
| ERenderText (viewportData : ViewportData)
| ELinesDidRender
| EPrepareRender (viewPart : Part) (ctx : RenderingContext)
| ERender (viewPart : Part) (ctx : RenderingContext)
| EOnDidRender (viewPart : Part)
| EUnexpectedError (e : Exn)
| EAddZone (zone : Zone)
| EAddZoneReturned (id : Z)
| ERemoveZone (id : Z)
| ERemoveZoneReturned (id : Z) (changed : bool)
| ELayoutZone (id : Z)
| ELayoutZoneReturned (id : Z) (changed : bool)
| EHeightMaybeChanged
| EZonesChanged.

(** The fields of [View] that the scheduling and the render pass use, next
    to the world of the collaborators, the host's queue of animation-frame
    callbacks and the trace of calls. *)
Record ViewState := {
  world : World;
  viewParts : list Part;
  contentWidgets : Part;
  _renderAnimationFrame : option Handle;
  scheduled : list Handle;
  nextHandle : Handle;
  zonesHaveChanged : bool;
  trace : list Event
}.

Definition set_world (w : World) (s : ViewState) : ViewState :=
  {| world := w; viewParts := viewParts s;
     contentWidgets := contentWidgets s;
     _renderAnimationFrame := _renderAnimationFrame s;
     scheduled := scheduled s; nextHandle := nextHandle s;
     zonesHaveChanged := zonesHaveChanged s; trace := trace s |}.

Definition set_renderAnimationFrame (f : option Handle) (s : ViewState)
  : ViewState :=
  {| world := world s; viewParts := viewParts s;
     contentWidgets := contentWidgets s;
     _renderAnimationFrame := f;
     scheduled := scheduled s; nextHandle := nextHandle s;
     zonesHaveChanged := zonesHaveChanged s; trace := trace s |}.

Definition set_scheduled (q : list Handle) (n : Handle) (s : ViewState)
  : ViewState :=
  {| world := world s; viewParts := viewParts s;
     contentWidgets := contentWidgets s;
     _renderAnimationFrame := _renderAnimationFrame s;
     scheduled := q; nextHandle := n;
     zonesHaveChanged := zonesHaveChanged s; trace := trace s |}.

Definition set_zonesHaveChanged (b : bool) (s : ViewState) : ViewState :=
  {| world := world s; viewParts := viewParts s;
     contentWidgets := contentWidgets s;
     _renderAnimationFrame := _renderAnimationFrame s;
     scheduled := scheduled s; nextHandle := nextHandle s;
     zonesHaveChanged := b; trace := trace s |}.

Definition add_event (ev : Event) (s : ViewState) : ViewState :=
  {| world := world s; viewParts := viewParts s;
     contentWidgets := contentWidgets s;
     _renderAnimationFrame := _renderAnimationFrame s;
     scheduled := scheduled s; nextHandle := nextHandle s;
     zonesHaveChanged := zonesHaveChanged s; trace := trace s ++ [ev] |}.

(** *** The state and exception monad of the view's methods *)

Definition M (A : Type) : Type := ViewState -> Outcome ViewState Exn A.

Definition ret {A} (a : A) : M A := fun s => Ret a s.

Definition bind {A B} (m : M A) (k : A -> M B) : M B :=
  fun s =>
    match m s with
    | Ret a s' => k a s'
    | Throw e s' => Throw e s'
    end.

Notation "'let*' x ':=' m 'in' k" := (bind m (fun x => k))
  (at level 10, x pattern, m at level 100, k at level 200).

(** [try { m } catch (e) { h(e) }] *)
Definition try_catch {A} (m : M A) (h : Exn -> M A) : M A :=
  fun s =>
    match m s with
    | Ret a s' => Ret a s'
    | Throw e s' => h e s'
    end.

Definition gets {A} (f : World -> A) : M A := fun s => Ret (f (world s)) s.

Definition field {A} (f : ViewState -> A) : M A := fun s => Ret (f s) s.

Definition update (f : ViewState -> ViewState) : M unit :=
  fun s => Ret tt (f s).

(** A call to a collaborator: the call is recorded, then it runs on the
    world. *)
Definition invoke {A} (ev : Event) (f : World -> Outcome World Exn A) : M A :=
  fun s =>
    let s1 := add_event ev s in
    match f (world s1) with
    | Ret a w => Ret a (set_world w s1)
    | Throw e w => Throw e (set_world w s1)
    end.

(** Modelled from the spec: the unexpected-error sink, "a single-argument
    reporting function invoked with any exception captured during a render
    callback; must not throw itself".  ([onUnexpectedError] of
    base/common/errors is not among the sources.) *)
Definition onUnexpectedError (e : Exn) : M unit :=
  update (add_event (EUnexpectedError e)).

(** Modelled from the spec: the host display-refresh primitive, "a function
    accepting a zero-argument callback and a maximum-deferral duration,
    invoked at most once per scheduled frame".  The only callback the view
    ever passes is its own [_onRenderScheduled], so the host's queue holds
    the handles it gave out.
    ([dom.runAtThisOrScheduleAtNextAnimationFrame] is not among the
    sources.) *)
Definition runAtThisOrScheduleAtNextAnimationFrame : M Handle :=
  fun s =>
    let h := nextHandle s in
    Ret h (set_scheduled (scheduled s ++ [h]) (S h) s).

(** [function safeInvokeNoArg(func)]: the result is [undefined] ([None])
    when [func] throws. *)
Definition safeInvokeNoArg {A} (func : M A) : M (option A) :=
  try_catch
    (let* r := func in ret (Some r))
    (fun e => let* _ := onUnexpectedError e in ret None).

(** [function safeInvoke1Arg(func, arg1)]; the argument is already part of
    the computation [func]. *)
Definition safeInvoke1Arg {A} (func : M A) : M (option A) :=
  try_catch
    (let* r := func in ret (Some r))
    (fun e => let* _ := onUnexpectedError e in ret None).

(** The loop of [_getViewPartsToRender]. *)
Fixpoint collectLoop (parts : list Part) (w : World) (result : list Part)
  : list Part :=
  match parts with
  | [] => result
  | viewPart :: rest =>
      if shouldRender viewPart w
      then collectLoop rest w (result ++ [viewPart])
      else collectLoop rest w result
  end.

Definition _getViewPartsToRender : M (list Part) :=
  fun s => Ret (collectLoop (viewParts s) (world s) []) s.

(** The first loop of [_actualRender]. *)
Fixpoint prepareLoop (renderingContext : RenderingContext)
  (viewPartsToRender : list Part) : M unit :=
  match viewPartsToRender with
  | [] => ret tt
  | viewPart :: rest =>
      let* _ := invoke (EPrepareRender viewPart renderingContext)
                  (prepareRender viewPart renderingContext) in
      prepareLoop renderingContext rest
  end.

(** The second loop of [_actualRender]. *)
Fixpoint renderLoop (renderingContext : RenderingContext)
  (viewPartsToRender : list Part) : M unit :=
  match viewPartsToRender with
  | [] => ret tt
  | viewPart :: rest =>
      let* _ := invoke (ERender viewPart renderingContext)
                  (render viewPart renderingContext) in
      let* _ := invoke (EOnDidRender viewPart) (onDidRender viewPart) in
      renderLoop renderingContext rest
  end.

Definition _actualRender : M unit :=
  let* _ := update (add_event EActualRender) in
  let* inDOM := gets isInDOM in
  if negb inDOM then ret tt else
  let* viewPartsToRender := _getViewPartsToRender in
  let* linesShouldRender := gets viewLines_shouldRender in
  if negb linesShouldRender && (length viewPartsToRender =? 0)%nat
  then (* Nothing to render *) ret tt else
  let* partialViewportData := gets getLinesViewportData in
  let* _ := invoke (ESetViewport (pvd_startLineNumber partialViewportData)
                      (pvd_endLineNumber partialViewportData)
                      (pvd_centeredLineNumber partialViewportData))
              (setViewport (pvd_startLineNumber partialViewportData)
                 (pvd_endLineNumber partialViewportData)
                 (pvd_centeredLineNumber partialViewportData)) in
  let* selections := gets getViewSelections in
  let* whitespaces := gets getWhitespaceViewportData in
  let viewportData :=
    new_ViewportData selections partialViewportData whitespaces in
  let* _ := update (add_event (ENewViewportData viewportData)) in
  let* cw := field contentWidgets in
  let* widgetsShouldRender := gets (shouldRender cw) in
  let* _ := (if widgetsShouldRender
             then invoke (EOnBeforeRender viewportData)
                    (onBeforeRender viewportData)
             else ret tt) in
  let* linesShouldRender := gets viewLines_shouldRender in
  let* viewPartsToRender :=
    (if linesShouldRender
     then
       let* _ := invoke (ERenderText viewportData)
                   (viewLines_renderText viewportData) in
       let* _ := invoke ELinesDidRender viewLines_onDidRender in
       _getViewPartsToRender
     else ret viewPartsToRender) in
  let renderingContext := new_RenderingContext viewportData in
  let* _ := prepareLoop renderingContext viewPartsToRender in
  renderLoop renderingContext viewPartsToRender.

Definition _renderNow : M unit :=
  let* _ := safeInvokeNoArg _actualRender in ret tt.

Definition _flushAccumulatedAndRenderNow : M unit := _renderNow.

Definition _scheduleRender : M unit :=
  let* frame := field _renderAnimationFrame in
  match frame with
  | None =>
      let* h := runAtThisOrScheduleAtNextAnimationFrame in
      update (set_renderAnimationFrame (Some h))
  | Some _ => ret tt
  end.

Definition _onRenderScheduled : M unit :=
  let* _ := update (set_renderAnimationFrame None) in
  _flushAccumulatedAndRenderNow.

Definition _renderOnce {A} (callback : M A) : M (option A) :=
  let* r := safeInvokeNoArg callback in
  let* _ := _scheduleRender in
  ret r.

(** The host reaches the next animation frame: every callback waiting in
    its queue runs once, and the queue is empty afterwards. *)
Fixpoint runCallbacks (callbacks : list Handle) : M unit :=
  match callbacks with
  | [] => ret tt
  | _ :: rest => let* _ := _onRenderScheduled in runCallbacks rest
  end.

Definition animationFrame : M unit :=
  let* callbacks := field scheduled in
  let* next := field nextHandle in
  let* _ := update (set_scheduled [] next) in
  runCallbacks callbacks.

(** The loop of [render(now, everything)]. *)
Fixpoint forceLoop (parts : list Part) (w : World) : World :=
  match parts with
  | [] => w
  | viewPart :: rest => forceLoop rest (forceShouldRender viewPart w)
  end.

(** [View.render(now, everything)] *)
Definition View_render (now everything : bool) : M unit :=
  let* _ :=
    (if everything
     then
       let* parts := field viewParts in
       update (fun s =>
         set_world (forceLoop parts (viewLines_forceShouldRender (world s))) s)
     else ret tt) in
  if now then _flushAccumulatedAndRenderNow else _scheduleRender.

(** *** [View.change]

    The callback is foreign code that is handed the change accessor.  What
    it can do with it is a script: call one of the accessor's methods and go
    on with what the call gave back (the result, or the exception it
    caught), return, or throw.  A callback that keeps the accessor and uses
    it after it returned is outside the model. *)
Inductive ZoneCallback :=
| CbReturn
| CbThrow (e : Exn)
| CbAddZone (zone : Zone) (k : Exn + Z -> ZoneCallback)
| CbRemoveZone (id : Z) (k : option Exn -> ZoneCallback)
| CbLayoutZone (id : Z) (k : option Exn -> ZoneCallback).

(** [changeAccessor.addZone] *)
Definition accessor_addZone (zone : Zone) : M Z :=
  let* _ := update (set_zonesHaveChanged true) in
  let* id := invoke (EAddZone zone) (viewZones_addZone zone) in
  let* _ := update (add_event (EAddZoneReturned id)) in
  ret id.

(** [changeAccessor.removeZone]; [!id] holds of the number 0. *)
Definition accessor_removeZone (id : Z) : M unit :=
  if (id =? 0)%Z then ret tt else
  let* changed := invoke (ERemoveZone id) (viewZones_removeZone id) in
  let* _ := update (add_event (ERemoveZoneReturned id changed)) in
  update (fun s => set_zonesHaveChanged (changed || zonesHaveChanged s) s).

(** [changeAccessor.layoutZone] *)
Definition accessor_layoutZone (id : Z) : M unit :=
  if (id =? 0)%Z then ret tt else
  let* changed := invoke (ELayoutZone id) (viewZones_layoutZone id) in
  let* _ := update (add_event (ELayoutZoneReturned id changed)) in
  update (fun s => set_zonesHaveChanged (changed || zonesHaveChanged s) s).

(** Running the callback against the accessor. *)
Fixpoint runCallback (callback : ZoneCallback) : M unit :=
  match callback with
  | CbReturn => ret tt
  | CbThrow e => fun s => Throw e s
  | CbAddZone zone k =>
      fun s =>
        match accessor_addZone zone s with
        | Ret id s' => runCallback (k (inr id)) s'
        | Throw e s' => runCallback (k (inl e)) s'
        end
  | CbRemoveZone id k =>
      fun s =>
        match accessor_removeZone id s with
        | Ret _ s' => runCallback (k None) s'
        | Throw e s' => runCallback (k (Some e)) s'
        end
  | CbLayoutZone id k =>
      fun s =>
        match accessor_layoutZone id s with
        | Ret _ s' => runCallback (k None) s'
        | Throw e s' => runCallback (k (Some e)) s'
        end
  end.

(** [View.change(callback)].  [zonesHaveChanged] is the local variable the
    accessor's closures share. *)
Definition change (callback : ZoneCallback) : M bool :=
  let* _ := update (set_zonesHaveChanged false) in
  let* _ :=
    _renderOnce
      (let* _ := safeInvoke1Arg (runCallback callback) in
       let* changed := field zonesHaveChanged in
       if changed
       then
         let* _ := invoke EHeightMaybeChanged onHeightMaybeChanged in
         invoke EZonesChanged emit_ViewZonesChangedEvent
       else ret tt) in
  field zonesHaveChanged.

(** The state of a freshly constructed view. *)
Definition new_View (w : World) (parts : list Part) (widgets : Part)
  : ViewState :=
  {| world := w; viewParts := parts; contentWidgets := widgets;
     _renderAnimationFrame := None; scheduled := []; nextHandle := 0%nat;
     zonesHaveChanged := false; trace := [] |}.

(** *** Reading traces *)

(** The events that a run from [s] to [s'] added. *)
Definition events (s s' : ViewState) : list Event :=
  drop (length (trace s)) (trace s').

(** The parts whose [render] was called, in call order. *)
Fixpoint rendered (tr : list Event) : list Part :=
  match tr with
  | [] => []
  | ERender viewPart _ :: rest => viewPart :: rendered rest
  | _ :: rest => rendered rest
  end.

(** The parts whose [prepareRender] was called, in call order. *)
Fixpoint prepared (tr : list Event) : list Part :=
  match tr with
  | [] => []
  | EPrepareRender viewPart _ :: rest => viewPart :: prepared rest
  | _ :: rest => prepared rest
  end.


(** The viewport data constructed. *)
Fixpoint snapshots (tr : list Event) : list ViewportData :=
  match tr with
  | [] => []
  | ENewViewportData viewportData :: rest => viewportData :: snapshots rest
  | _ :: rest => snapshots rest
  end.

(** The exceptions reported to the sink. *)
Fixpoint reports (tr : list Event) : list Exn :=
  match tr with
  | [] => []
  | EUnexpectedError e :: rest => e :: reports rest
  | _ :: rest => reports rest
  end.

(** The number of render passes begun. *)
Fixpoint passes (tr : list Event) : nat :=
  match tr with
  | [] => 0
  | EActualRender :: rest => S (passes rest)
  | _ :: rest => passes rest
  end.

Definition is_prepare (ev : Event) : bool :=
  match ev with EPrepareRender _ _ => true | _ => false end.

Definition is_commit (ev : Event) : bool :=
  match ev with ERender _ _ | EOnDidRender _ => true | _ => false end.

Definition state_of {S E A} (o : Outcome S E A) : S :=
  match o with
  | Ret _ s => s
  | Throw _ s => s
  end.

Definition is_ret {S E A} (o : Outcome S E A) : bool :=
  match o with
  | Ret _ _ => true
  | Throw _ _ => false
  end.

(** The fields a render pass has no business with. *)
Definition same_view (s s' : ViewState) : Prop :=
  viewParts s' = viewParts s /\ contentWidgets s' = contentWidgets s /\
  _renderAnimationFrame s' = _renderAnimationFrame s /\
  scheduled s' = scheduled s /\ nextHandle s' = nextHandle s /\
  zonesHaveChanged s' = zonesHaveChanged s.

(** The parts that report [shouldRender()] in the world [w], in the order of
    [viewParts]. *)
Definition dirtyParts (w : World) (parts : list Part) : list Part :=
  List.filter (fun viewPart => shouldRender viewPart w) parts.

(** The calls of a completed second loop over [l]. *)
Definition commit_events (ctx : RenderingContext) (l : list Part)
  : list Event :=
  flat_map (fun viewPart => [ERender viewPart ctx; EOnDidRender viewPart]) l.

(** The calls a pass makes between its two guards and its two loops. *)
Definition setup_event (vd : ViewportData) (ev : Event) : Prop :=
  (exists a b c, ev = ESetViewport a b c) \/ ev = ENewViewportData vd \/
  ev = EOnBeforeRender vd \/ ev = ERenderText vd \/ ev = ELinesDidRender.

(** The worlds a pass can reach before it collects the parts for the last
    time. *)
Inductive setup_reach : World -> World -> Prop :=
| reach_refl w : setup_reach w w
| reach_setViewport a b c w w1 w2 :
    setViewport a b c w = Ret tt w1 -> setup_reach w1 w2 -> setup_reach w w2
| reach_onBeforeRender vd w w1 w2 :
    onBeforeRender vd w = Ret tt w1 -> setup_reach w1 w2 -> setup_reach w w2
| reach_renderText vd w w1 w2 :
    viewLines_renderText vd w = Ret tt w1 -> setup_reach w1 w2 ->
    setup_reach w w2
| reach_linesDidRender w w1 w2 :
    viewLines_onDidRender w = Ret tt w1 -> setup_reach w1 w2 ->
    setup_reach w w2.

(** The second guard of [_actualRender] lets the pass through. *)
Definition something_to_render (s : ViewState) : Prop :=
  viewLines_shouldRender (world s) = true \/
  dirtyParts (world s) (viewParts s) <> [].

(** Modelled from the spec: the dirty flag of a part, whose class [ViewPart]
    is not among the sources.  "[forceShouldRender()] marks dirty
    unconditionally", and a part's "dirty flag must be cleared by the part
    itself, not the pass": forcing a part sets its flag and clears no other,
    and what a pass does before its loops clears no flag. *)
Definition keeps_dirty (f : World -> Outcome World Exn unit) : Prop :=
  forall viewPart w w',
    shouldRender viewPart w = true -> f w = Ret tt w' ->
    shouldRender viewPart w' = true.

Record PartContract : Prop := {
  force_sets : forall viewPart w,
    shouldRender viewPart (forceShouldRender viewPart w) = true;
  force_keeps : forall viewPart other w,
    shouldRender viewPart w = true ->
    shouldRender viewPart (forceShouldRender other w) = true;
  setViewport_keeps : forall a b c, keeps_dirty (setViewport a b c);
  onBeforeRender_keeps : forall vd, keeps_dirty (onBeforeRender vd);
  renderText_keeps : forall vd, keeps_dirty (viewLines_renderText vd);
  linesDidRender_keeps : keeps_dirty viewLines_onDidRender
}.

(** *** The steps of [_actualRender], named for the proofs *)

(** The two loops. *)
Definition pass_loops (ctx : RenderingContext) (l : list Part) : M unit :=
  let* _ := prepareLoop ctx l in renderLoop ctx l.

(** From the test of the view lines on. *)
Definition pass_lines (vd : ViewportData) (l0 : list Part) : M unit :=
  let* linesShouldRender := gets viewLines_shouldRender in
  let* viewPartsToRender :=
    (if linesShouldRender
     then
       let* _ := invoke (ERenderText vd) (viewLines_renderText vd) in
       let* _ := invoke ELinesDidRender viewLines_onDidRender in
       _getViewPartsToRender
     else ret l0) in
  pass_loops (new_RenderingContext vd) viewPartsToRender.

(** From the test of the content widgets on. *)
Definition pass_widgets (vd : ViewportData) (l0 : list Part) : M unit :=
  let* cw := field contentWidgets in
  let* widgetsShouldRender := gets (shouldRender cw) in
  let* _ := (if widgetsShouldRender
             then invoke (EOnBeforeRender vd) (onBeforeRender vd)
             else ret tt) in
  pass_lines vd l0.

(** [_actualRender] up to its two loops: the guards, [setViewport], the
    construction of the viewport data, the content widgets and the view
    lines.  The result is what the loops run with: the viewport data and
    the value of [viewPartsToRender] on reaching them, [None] when the pass
    returned at one of its guards. *)
Definition pass_setup : M (option (ViewportData * list Part)) :=
  let* _ := update (add_event EActualRender) in
  let* inDOM := gets isInDOM in
  if negb inDOM then ret None else
  let* viewPartsToRender := _getViewPartsToRender in
  let* linesShouldRender := gets viewLines_shouldRender in
  if negb linesShouldRender && (length viewPartsToRender =? 0)%nat
  then (* Nothing to render *) ret None else
  let* partialViewportData := gets getLinesViewportData in
  let* _ := invoke (ESetViewport (pvd_startLineNumber partialViewportData)
                      (pvd_endLineNumber partialViewportData)
                      (pvd_centeredLineNumber partialViewportData))
              (setViewport (pvd_startLineNumber partialViewportData)
                 (pvd_endLineNumber partialViewportData)
                 (pvd_centeredLineNumber partialViewportData)) in
  let* selections := gets getViewSelections in
  let* whitespaces := gets getWhitespaceViewportData in
  let viewportData :=
    new_ViewportData selections partialViewportData whitespaces in
  let* _ := update (add_event (ENewViewportData viewportData)) in
  let* cw := field contentWidgets in
  let* widgetsShouldRender := gets (shouldRender cw) in
  let* _ := (if widgetsShouldRender
             then invoke (EOnBeforeRender viewportData)
                    (onBeforeRender viewportData)
             else ret tt) in
  let* linesShouldRender := gets viewLines_shouldRender in
  let* viewPartsToRender :=
    (if linesShouldRender
     then
       let* _ := invoke (ERenderText viewportData)
                   (viewLines_renderText viewportData) in
       let* _ := invoke ELinesDidRender viewLines_onDidRender in
       _getViewPartsToRender
     else ret viewPartsToRender) in
  ret (Some (viewportData, viewPartsToRender)).

(** The pass, put together again from [pass_setup] and the two loops. *)
Definition pass_of_setup
  (r : Outcome ViewState Exn (option (ViewportData * list Part)))
  : Outcome ViewState Exn unit :=
  match r with
  | Ret (Some (viewportData, viewPartsToRender)) s1 =>
      pass_loops (new_RenderingContext viewportData) viewPartsToRender s1
  | Ret None s1 => Ret tt s1
  | Throw e s1 => Throw e s1
  end.

(** Whether [viewLines.renderText] was called. *)
Definition lines_rendered (tr : list Event) : bool :=
  existsb (fun ev => match ev with ERenderText _ => true | _ => false end) tr.


(** What [pass_setup] leaves behind.  When it reaches the loops, the trace
    holds the call of [setViewport], the construction of the viewport data
    from the world [setViewport] left, and then calls that are handed that
    value; the list for the loops is the list of the parts that were dirty
    at the start of the pass, or, when the view lines were rendered, of the
    parts that are dirty on reaching the loops. *)
Definition setup_post (s : ViewState)
  (out : Outcome ViewState Exn (option (ViewportData * list Part))) : Prop :=
  same_view s (state_of out) /\
  match out with
  | Ret (Some (vd, l)) s1 =>
      exists a b c more w1,
        trace s1 = trace s ++ EActualRender :: ESetViewport a b c ::
                     ENewViewportData vd :: more /\
        Forall (setup_event vd) more /\ snapshots more = [] /\
        isInDOM (world s) = true /\ something_to_render s /\
        setViewport (pvd_startLineNumber (getLinesViewportData (world s)))
          (pvd_endLineNumber (getLinesViewportData (world s)))
          (pvd_centeredLineNumber (getLinesViewportData (world s)))
          (world s) = Ret tt w1 /\
        vd = new_ViewportData (getViewSelections w1)
               (getLinesViewportData (world s))
               (getWhitespaceViewportData w1) /\
        l = dirtyParts (if lines_rendered more then world s1 else world s)
              (viewParts s)
  | Ret None s1 =>
      s1 = add_event EActualRender s /\
      (isInDOM (world s) = false \/
       (isInDOM (world s) = true /\ viewLines_shouldRender (world s) = false /\
        dirtyParts (world s) (viewParts s) = []))
  | Throw e s1 =>
      isInDOM (world s) = true /\ something_to_render s /\
      exists a b c,
        (trace s1 = trace s ++ [EActualRender; ESetViewport a b c] /\
         is_ret (setViewport
                   (pvd_startLineNumber (getLinesViewportData (world s)))
                   (pvd_endLineNumber (getLinesViewportData (world s)))
                   (pvd_centeredLineNumber (getLinesViewportData (world s)))
                   (world s)) = false) \/
        (exists vd more w1,
           trace s1 = trace s ++ EActualRender :: ESetViewport a b c ::
                        ENewViewportData vd :: more /\
           Forall (setup_event vd) more /\ snapshots more = [] /\
           setViewport (pvd_startLineNumber (getLinesViewportData (world s)))
             (pvd_endLineNumber (getLinesViewportData (world s)))
             (pvd_centeredLineNumber (getLinesViewportData (world s)))
             (world s) = Ret tt w1 /\
           vd = new_ViewportData (getViewSelections w1)
                  (getLinesViewportData (world s))
                  (getWhitespaceViewportData w1))
  end.


(** What the two loops over [l] leave in the trace: [prepareRender] on a
    first stretch [lp] of [l], then [render] and [onDidRender] on a first
    stretch [lc], and possibly the [render] call that threw. *)
Inductive LoopsShape (ctx : RenderingContext) (l : list Part)
  (s : ViewState) (out : Outcome ViewState Exn unit) : Prop :=
| loops_shape_intro (lp lp' lc lc' : list Part) (tail : list Event)
    (Hsame : same_view s (state_of out))
    (Htrace : trace (state_of out) =
              trace s ++ List.map (fun p => EPrepareRender p ctx) lp ++
              commit_events ctx lc ++ tail)
    (Hlp : l = lp ++ lp')
    (Hlc : l = lc ++ lc')
    (Htail : tail = [] \/ exists p r, lc' = p :: r /\ tail = [ERender p ctx])
    (Hphase : (lc = [] /\ tail = []) \/ lp' = [])
    (Hdone : is_ret out = true -> lp' = [] /\ lc' = [] /\ tail = []).

(** What the steps between the construction of the viewport data and the end
    of the pass leave in the trace.  [L] is the list the loops run over: the
    list [l0] collected at the start of the pass, or the list collected
    again after the view lines were rendered. *)
Inductive SetupShape (vd : ViewportData) (l0 : list Part)
  (s : ViewState) (out : Outcome ViewState Exn unit) : Prop :=
| setup_shape_intro (L : list Part) (setup : list Event)
    (lp lp' lc lc' : list Part) (tail : list Event)
    (Hsame : same_view s (state_of out))
    (Htrace : trace (state_of out) =
              trace s ++ setup ++
              List.map (fun p => EPrepareRender p (new_RenderingContext vd)) lp ++
              commit_events (new_RenderingContext vd) lc ++ tail)
    (Hsetup : Forall (setup_event vd) setup)
    (Hsnap : snapshots setup = [])
    (Hlp : L = lp ++ lp')
    (Hlc : L = lc ++ lc')
    (Htail : tail = [] \/
             exists p r, lc' = p :: r /\
                         tail = [ERender p (new_RenderingContext vd)])
    (Hphase : (lc = [] /\ tail = []) \/ lp' = [])
    (Hwhich : (L = l0 /\ forall vd', ~ In (ERenderText vd') setup) \/
              (exists w, setup_reach (world s) w /\
                         L = dirtyParts w (viewParts s) /\
                         In (ERenderText vd) setup))
    (Hdone : is_ret out = true -> lp' = [] /\ lc' = [] /\ tail = []).

(** What a whole pass leaves in the trace.  [w] is the world in which the
    parts to render were collected for the last time. *)
Inductive PassShape (s : ViewState) (out : Outcome ViewState Exn unit)
  : Prop :=
| pass_shape_intro (w : World) (vd : ViewportData) (setup : list Event)
    (lp lp' lc lc' : list Part) (tail : list Event)
    (Hsame : same_view s (state_of out))
    (Htrace : trace (state_of out) =
              trace s ++ EActualRender :: setup ++
              List.map (fun p => EPrepareRender p (new_RenderingContext vd)) lp ++
              commit_events (new_RenderingContext vd) lc ++ tail)
    (Hsetup : Forall (setup_event vd) setup)
    (Hsnap : snapshots setup = [vd] \/
             (snapshots setup = [] /\ lp = [] /\ lc = [] /\ tail = []))
    (Hlp : dirtyParts w (viewParts s) = lp ++ lp')
    (Hlc : dirtyParts w (viewParts s) = lc ++ lc')
    (Htail : tail = [] \/
             exists p r, lc' = p :: r /\
                         tail = [ERender p (new_RenderingContext vd)])
    (Hphase : (lc = [] /\ tail = []) \/ lp' = [])
    (Hreach : setup_reach (world s) w)
    (Hfresh : (forall vd', ~ In (ERenderText vd') setup) -> w = world s)
    (Hdone : is_ret out = true -> isInDOM (world s) = true ->
             lp' = [] /\ lc' = [] /\ tail = [])
    (Hone : isInDOM (world s) = true -> something_to_render s ->
            (exists w1,
               setViewport
                 (pvd_startLineNumber (getLinesViewportData (world s)))
                 (pvd_endLineNumber (getLinesViewportData (world s)))
                 (pvd_centeredLineNumber (getLinesViewportData (world s)))
                 (world s) = Ret tt w1) ->
            snapshots setup = [vd]).

(** *** Reading the traces of [change] *)

(** The accessor calls that set [zonesHaveChanged]: any call of [addZone],
    and a [removeZone] or [layoutZone] that returned [true]. *)
Definition sets_flag (ev : Event) : bool :=
  match ev with
  | EAddZone _ => true
  | ERemoveZoneReturned _ changed => changed
  | ELayoutZoneReturned _ changed => changed
  | _ => false
  end.


Definition is_zone_call (ev : Event) : bool :=
  match ev with
  | EAddZone _ | EAddZoneReturned _ | ERemoveZone _
  | ERemoveZoneReturned _ _ | ELayoutZone _ | ELayoutZoneReturned _ _ => true
  | _ => false
  end.

(** The number of calls of [viewLayout.onHeightMaybeChanged]. *)
Fixpoint heightNotifications (tr : list Event) : nat :=
  match tr with
  | [] => 0
  | EHeightMaybeChanged :: rest => S (heightNotifications rest)
  | _ :: rest => heightNotifications rest
  end.

(** The number of [ViewZonesChangedEvent]s emitted. *)
Fixpoint zonesChangedEvents (tr : list Event) : nat :=
  match tr with
  | [] => 0
  | EZonesChanged :: rest => S (zonesChangedEvents rest)
  | _ :: rest => zonesChangedEvents rest
  end.

(** What running a callback does to a state: accessor calls are added to
    the trace, and the flag is raised exactly by those that set it. *)
Definition CallbackStep (s s' : ViewState) : Prop :=
  exists new,
    trace s' = trace s ++ new /\
    forallb is_zone_call new = true /\
    zonesHaveChanged s' = zonesHaveChanged s || existsb sets_flag new /\
    viewParts s' = viewParts s /\ contentWidgets s' = contentWidgets s /\
    _renderAnimationFrame s' = _renderAnimationFrame s /\
    scheduled s' = scheduled s /\ nextHandle s' = nextHandle s.

(** The scheduler's invariant: the host holds exactly the callback whose
    handle the view remembers. *)
Definition sched_inv (s : ViewState) : Prop :=
  match _renderAnimationFrame s with
  | None => scheduled s = []
  | Some h => scheduled s = [h]
  end.

(** [n] calls of [_scheduleRender] in a row. *)
Fixpoint requests (n : nat) : M unit :=
  match n with
  | O => ret tt
  | S n' => let* _ := _scheduleRender in requests n'
  end.

End ViewImpl.

Notation "'let*' x ':=' m 'in' k" := (bind m (fun x => k))
  (at level 10, x pattern, m at level 100, k at level 200).

(** *** A small concrete editor

    Three parts registered in the order A, B, C; B doubles as the content
    widgets part.  At most one call is set up to throw, or to scroll:
    rendering the view lines then scrolls, which makes part A dirty. *)

Inductive DemoPart := PartA | PartB | PartC.

Inductive DemoFault :=
| FaultPrepare (viewPart : DemoPart)
| FaultRender (viewPart : DemoPart)
| FaultAddZone
| FaultLayout
| FaultScroll.

Record DemoWorld := {
  attached : bool;
  dirtyA : bool;
  dirtyB : bool;
  dirtyC : bool;
  linesDirty : bool;
  fault : option DemoFault;
  lastZone : Z
}.

Definition demo_dirty (viewPart : DemoPart) (w : DemoWorld) : bool :=
  match viewPart with
  | PartA => dirtyA w
  | PartB => dirtyB w
  | PartC => dirtyC w
  end.

Definition demo_set_dirty (viewPart : DemoPart) (b : bool) (w : DemoWorld)
  : DemoWorld :=
  {| attached := attached w;
     dirtyA := match viewPart with PartA => b | _ => dirtyA w end;
     dirtyB := match viewPart with PartB => b | _ => dirtyB w end;
     dirtyC := match viewPart with PartC => b | _ => dirtyC w end;
     linesDirty := linesDirty w; fault := fault w; lastZone := lastZone w |}.

Definition demo_set_lines (b : bool) (w : DemoWorld) : DemoWorld :=
  {| attached := attached w; dirtyA := dirtyA w; dirtyB := dirtyB w;
     dirtyC := dirtyC w; linesDirty := b; fault := fault w;
     lastZone := lastZone w |}.

Definition demo_part_eqb (a b : DemoPart) : bool :=
  match a, b with
  | PartA, PartA | PartB, PartB | PartC, PartC => true
  | _, _ => false
  end.

Definition demo_prepare (viewPart : DemoPart) (w : DemoWorld)
  : Outcome DemoWorld string unit :=
  match fault w with
  | Some (FaultPrepare q) =>
      if demo_part_eqb viewPart q then Throw "prepare failed"%string w
      else Ret tt w
  | _ => Ret tt w
  end.

Definition demo_render (viewPart : DemoPart) (w : DemoWorld)
  : Outcome DemoWorld string unit :=
  match fault w with
  | Some (FaultRender q) =>
      if demo_part_eqb viewPart q then Throw "render failed"%string w
      else Ret tt w
  | _ => Ret tt w
  end.

Definition demo_addZone (zone : Z) (w : DemoWorld)
  : Outcome DemoWorld string Z :=
  match fault w with
  | Some FaultAddZone => Throw "addZone failed"%string w
  | _ =>
      Ret (lastZone w + 1)%Z
        {| attached := attached w; dirtyA := dirtyA w; dirtyB := dirtyB w;
           dirtyC := dirtyC w; linesDirty := linesDirty w; fault := fault w;
           lastZone := (lastZone w + 1)%Z |}
  end.

Definition demo : Collaborators := {|
  World := DemoWorld;
  Exn := string;
  Part := DemoPart;
  Selections := unit;
  PartialViewportData := Z * Z * Z;
  Whitespaces := unit;
  ViewportData := Z * Z * Z;
  RenderingContext := Z * Z * Z;
  Zone := Z;
  isInDOM := attached;
  shouldRender := demo_dirty;
  forceShouldRender := fun viewPart => demo_set_dirty viewPart true;
  prepareRender := fun viewPart _ => demo_prepare viewPart;
  render := fun viewPart _ => demo_render viewPart;
  onDidRender := fun viewPart w => Ret tt (demo_set_dirty viewPart false w);
  onBeforeRender := fun _ w => Ret tt w;
  viewLines_shouldRender := linesDirty;
  viewLines_forceShouldRender := demo_set_lines true;
  viewLines_renderText := fun _ w =>
    match fault w with
    | Some FaultScroll => Ret tt (demo_set_dirty PartA true w)
    | _ => Ret tt w
    end;
  viewLines_onDidRender := fun w => Ret tt (demo_set_lines false w);
  getLinesViewportData := fun _ => (1, 10, 5)%Z;
  pvd_startLineNumber := fun d => fst (fst d);
  pvd_endLineNumber := fun d => snd (fst d);
  pvd_centeredLineNumber := fun d => snd d;
  setViewport := fun _ _ _ w => Ret tt w;
  getViewSelections := fun _ => tt;
  getWhitespaceViewportData := fun _ => tt;
  new_ViewportData := fun _ d _ => d;
  new_RenderingContext := fun d => d;
  viewZones_addZone := demo_addZone;
  viewZones_removeZone := fun id w => Ret (id <=? lastZone w)%Z w;
  viewZones_layoutZone := fun id w => Ret (id <=? lastZone w)%Z w;
  onHeightMaybeChanged := fun w =>
    match fault w with
    | Some FaultLayout => Throw "layout failed"%string w
    | _ => Ret tt w
    end;
  emit_ViewZonesChangedEvent := fun w => Ret tt w
|}.

(** Attached, nothing dirty, nothing set up to throw. *)
Definition demo_world : DemoWorld :=
  {| attached := true; dirtyA := false; dirtyB := false; dirtyC := false;
     linesDirty := false; fault := None; lastZone := 0 |}.

Definition demo_detached (w : DemoWorld) : DemoWorld :=
  {| attached := false; dirtyA := dirtyA w; dirtyB := dirtyB w;
     dirtyC := dirtyC w; linesDirty := linesDirty w; fault := fault w;
     lastZone := lastZone w |}.

Definition demo_faulty (f : DemoFault) (w : DemoWorld) : DemoWorld :=
  {| attached := attached w; dirtyA := dirtyA w; dirtyB := dirtyB w;
     dirtyC := dirtyC w; linesDirty := linesDirty w; fault := Some f;
     lastZone := lastZone w |}.

(** The view over the three parts, in registration order. *)
Definition demo_view (w : DemoWorld) : @ViewState demo :=
  @new_View demo w [PartA; PartB; PartC] PartB.

(** Only B is dirty. *)
Definition demo_only_B : DemoWorld := demo_set_dirty PartB true demo_world.

(** All three parts are dirty. *)
Definition demo_all_dirty : DemoWorld :=
  demo_set_dirty PartA true
    (demo_set_dirty PartB true (demo_set_dirty PartC true demo_world)).

(** A callback that adds one zone and lets the exception of [addZone]
    through. *)
Definition demo_add_callback : @ZoneCallback demo :=
  @CbAddZone demo 3%Z
    (fun r => match r with
              | inl e => @CbThrow demo e
              | inr _ => @CbReturn demo
              end).

(** ** More vocabulary for markers and the registry *)

(** [m] with other [source] and [code]; [m] with another [severity]. *)
Definition with_source_code (m : IMarkerData) (s c : option jsstring)
  : IMarkerData :=
  {| code := c; severity := severity m; message := message m; source := s;
     startLineNumber := startLineNumber m; startColumn := startColumn m;
     endLineNumber := endLineNumber m; endColumn := endColumn m;
     relatedInformation := relatedInformation m; tags := tags m |}.

Definition with_severity (m : IMarkerData) (v : option MarkerSeverity.t)
  : IMarkerData :=
  {| code := code m; severity := v; message := message m; source := source m;
     startLineNumber := startLineNumber m; startColumn := startColumn m;
     endLineNumber := endLineNumber m; endColumn := endColumn m;
     relatedInformation := relatedInformation m; tags := tags m |}.

(** The text each field contributes to the key. *)
Definition key_string (o : option jsstring) : jsstring := default [] o.

Definition key_number (o : option Z) : jsstring :=
  match o with
  | Some z => Number_toString z
  | None => []
  end.

Definition key_severity `{Nls} (o : option MarkerSeverity.t) : jsstring :=
  match o with
  | Some a => MarkerSeverity.toString a
  | None => []
  end.

(** What [_languageIds] holds, read from the array's side: the slots from 1
    up to [_nextLanguageId] are all filled, slot 0 and the slots from
    [_nextLanguageId] on are not, and a filled slot [n] holds the key of the
    entry whose numeric id is [n] (or [__proto__], which never becomes an
    entry). *)
Definition ids_inv (r : LanguagesRegistry) : Prop :=
  (forall n k,
     _languageIds r !! n = Some (Some k) ->
     (1 <= n < N.to_nat (_nextLanguageId r))%nat /\
     (k = PROTO \/
      exists rl, _languages r !! k = Some rl /\
                 li_id (identifier rl) = N.of_nat n)) /\
  (forall n, (1 <= n < N.to_nat (_nextLanguageId r))%nat ->
             exists k, _languageIds r !! n = Some (Some k)) /\
  (_languageIds r = [] \/
   length (_languageIds r) = N.to_nat (_nextLanguageId r)).

(** What [_mergeLanguage] guarantees of every entry. *)
Definition entries_inv (r : LanguagesRegistry) : Prop :=
  forall k rl,
    _languages r !! k = Some rl -> mimetypes rl <> [] /\ In k (aliases rl).

(** ** editor/common/services/languagesRegistry, continued: the lookup maps *)

(** [s.split(sep)] with a one-character separator: the pieces between the
    separators, so that the empty string gives one empty piece. *)
Fixpoint String_split (sep : char) (s : jsstring) : list jsstring :=
  match s with
  | [] => [[]]
  | c :: s' =>
      if N.eqb c sep then [] :: String_split sep s'
      else
        match String_split sep s' with
        | piece :: rest => (c :: piece) :: rest
        | [] => [[c]]
        end
  end.

(** The code units that [trim] strips: ECMAScript's WhiteSpace and
    LineTerminator. *)
Definition isWhiteSpace (c : char) : bool :=
  (9 <=? c) && (c <=? 13) || (c =? 32) || (c =? 160) || (c =? 5760) ||
  (8192 <=? c) && (c <=? 8202) || (c =? 8232) || (c =? 8233) ||
  (c =? 8239) || (c =? 8287) || (c =? 12288) || (c =? 65279).

Fixpoint String_trimStart (s : jsstring) : jsstring :=
  match s with
  | c :: s' => if isWhiteSpace c then String_trimStart s' else s
  | [] => []
  end.

(** [s.trim()] *)
Definition String_trim (s : jsstring) : jsstring :=
  rev (String_trimStart (rev (String_trimStart s))).

Definition COMMA : char := 44.

(** What the lookups take from outside the sources at hand:
    [String.prototype.toLowerCase], the order in which [Object.keys]
    enumerates the own keys of [_languages], and [mime.guessMimeTypes] (for
    the state of the mime module's table). *)
Class Builtins := {
  toLowerCase : jsstring -> jsstring;
  Object_keys : gmap jsstring IResolvedLanguage -> list jsstring;
  guessMimeTypes : option jsstring -> option jsstring -> list jsstring
}.

(** The registry with its three fast-path maps. *)
Record LanguagesRegistryMaps := {
  registry : LanguagesRegistry;
  _mimeTypesMap : gmap jsstring LanguageIdentifier;
  _nameMap : gmap jsstring LanguageIdentifier;
  _lowercaseNameMap : gmap jsstring LanguageIdentifier
}.

Section LookupMaps.
Context `{Builtins}.

(** What [Object.keys] is: every own key, and own keys only. *)
Definition enumerates_own_keys : Prop :=
  forall (o : gmap jsstring IResolvedLanguage) (k : jsstring),
    In k (Object_keys o) <-> is_Some (o !! k).

(** The body of the [forEach] over [Object.keys(this._languages)]; [this]
    carries the maps filled so far.  (A key that [Object.keys] listed is
    always found.) *)
Definition rebuild_step (languages : gmap jsstring IResolvedLanguage)
  (this : LanguagesRegistryMaps) (langId : jsstring) : LanguagesRegistryMaps :=
  match languages !! langId with
  | None => this
  | Some language =>
      {| registry := registry this;
         _mimeTypesMap :=
           fold_left
             (fun m mimetype => obj_set mimetype (identifier language) m)
             (mimetypes language) (_mimeTypesMap this);
         _nameMap :=
           if truthy (name language)
           then obj_set (default [] (name language)) (identifier language)
                  (_nameMap this)
           else _nameMap this;
         _lowercaseNameMap :=
           fold_left
             (fun m alias => obj_set (toLowerCase alias) (identifier language) m)
             (aliases language) (_lowercaseNameMap this) |}
  end.

(** "Rebuild fast path maps" *)
Definition rebuild (r : LanguagesRegistry) : LanguagesRegistryMaps :=
  fold_left (rebuild_step (_languages r)) (Object_keys (_languages r))
    {| registry := r; _mimeTypesMap := ∅; _nameMap := ∅;
       _lowercaseNameMap := ∅ |}.

(** [new LanguagesRegistry(false, warnOnOverwrite)], with the maps. *)
Definition new_LanguagesRegistryMaps (warnOnOverwrite : bool)
  : LanguagesRegistryMaps :=
  {| registry := new_LanguagesRegistry warnOnOverwrite;
     _mimeTypesMap := ∅; _nameMap := ∅; _lowercaseNameMap := ∅ |}.

(** [_registerLanguages(desc)] as a whole: the early return, the loop
    ([_registerLanguages] above) and the rebuild of the maps.  The final
    call to the configuration registry acts on another module and is left
    out. *)
Definition _registerLanguages_rebuild (desc : list ILanguageExtensionPoint)
  (this : LanguagesRegistryMaps) : LanguagesRegistryMaps :=
  match desc with
  | [] => this
  | _ => rebuild (_registerLanguages desc (registry this))
  end.

(** The registry after a sequence of [_registerLanguages] calls, as the
    constructor's listener makes them. *)
Definition registered (warnOnOverwrite : bool)
  (batches : list (list ILanguageExtensionPoint)) : LanguagesRegistryMaps :=
  fold_left (fun this desc => _registerLanguages_rebuild desc this) batches
    (new_LanguagesRegistryMaps warnOnOverwrite).

(** [isRegisteredMode(mimetypeOrModeId)] *)
Definition isRegisteredMode (mimetypeOrModeId : jsstring)
  (this : LanguagesRegistryMaps) : bool :=
  if hasOwnProperty (_mimeTypesMap this) mimetypeOrModeId then true
  else hasOwnProperty (_languages (registry this)) mimetypeOrModeId.

(** [getModeIdForLanguageNameLowercase(languageNameLower)]; [None] is
    [null]. *)
Definition getModeIdForLanguageNameLowercase (languageNameLower : jsstring)
  (this : LanguagesRegistryMaps) : option jsstring :=
  if negb (hasOwnProperty (_lowercaseNameMap this) languageNameLower)
  then None
  else li_language <$> (_lowercaseNameMap this !! languageNameLower).

(** [extractModeIds(commaSeparatedMimetypesOrCommaSeparatedIds)] *)
Definition extractModeIds
  (commaSeparatedMimetypesOrCommaSeparatedIds : jsstring)
  (this : LanguagesRegistryMaps) : list jsstring :=
  if negb (truthy (Some commaSeparatedMimetypesOrCommaSeparatedIds)) then []
  else
    List.filter
      (fun modeId => hasOwnProperty (_languages (registry this)) modeId)
      (List.map
         (fun mimeTypeOrId =>
            if hasOwnProperty (_mimeTypesMap this) mimeTypeOrId
            then default mimeTypeOrId
                   (li_language <$> (_mimeTypesMap this !! mimeTypeOrId))
            else mimeTypeOrId)
         (List.map String_trim
            (String_split COMMA commaSeparatedMimetypesOrCommaSeparatedIds))).

(** [getModeIdsFromFilenameOrFirstLine(filename, firstLine?)] *)
Definition getModeIdsFromFilenameOrFirstLine
  (filename firstLine : option jsstring) (this : LanguagesRegistryMaps)
  : list jsstring :=
  if negb (truthy filename) && negb (truthy firstLine) then []
  else
    let mimeTypes := guessMimeTypes filename firstLine in
    extractModeIds (join [COMMA] mimeTypes) this.

(** Every entry of the two maps that the lookups read comes from a
    registered language: a mime type it lists, the lower-cased form of one
    of its aliases. *)
Definition maps_sound (languages : gmap jsstring IResolvedLanguage)
  (this : LanguagesRegistryMaps) : Prop :=
  (forall k ident,
     _mimeTypesMap this !! k = Some ident ->
     k <> PROTO /\
     exists langId language,
       languages !! langId = Some language /\
       identifier language = ident /\ In k (mimetypes language)) /\
  (forall k ident,
     _lowercaseNameMap this !! k = Some ident ->
     k <> PROTO /\
     exists langId language alias,
       languages !! langId = Some language /\
       identifier language = ident /\
       In alias (aliases language) /\ toLowerCase alias = k).

(** The maps hold every mime type and every lower-cased alias of
    [language], the key [__proto__] apart. *)
Definition covers (language : IResolvedLanguage)
  (this : LanguagesRegistryMaps) : Prop :=
  (forall k, In k (mimetypes language) -> k <> PROTO ->
             is_Some (_mimeTypesMap this !! k)) /\
  (forall alias, In alias (aliases language) -> toLowerCase alias <> PROTO ->
                 is_Some (_lowercaseNameMap this !! toLowerCase alias)).

Definition maps_inv (this : LanguagesRegistryMaps) : Prop :=
  maps_sound (_languages (registry this)) this /\
  (forall langId language,
     _languages (registry this) !! langId = Some language ->
     covers language this).

(** A piece that [split] and [trim] hand through as it is: not empty, no
    comma, no white space at either end. *)
Definition clean_piece (s : jsstring) : Prop :=
  s <> [] /\ ~ In COMMA s /\ String_trim s = s.

End LookupMaps.

(** An instance for the examples: ASCII lower-casing, the keys in the order
    of the map, and a mime table that knows one suffix. *)
Definition demo_builtins : Builtins :=
  {| toLowerCase :=
       List.map (fun c => if (65 <=? c) && (c <=? 90) then c + 32 else c);
     Object_keys := fun o => (map_to_list o).*1;
     guessMimeTypes := fun filename _ =>
       match filename with
       | Some _ => [js "text/x-foo"; js "text/plain"]
       | None => []
       end |}.

(** Two languages that share the mime type [text/plain]. *)
Definition demo_languages : list ILanguageExtensionPoint :=
  [ {| lang_id := js "foo"; lang_extensions := None; lang_filenames := None;
       lang_filenamePatterns := None; lang_firstLine := None;
       lang_aliases := Some [js "Foo"]; lang_mimetypes := None;
       lang_configuration := None |};
    {| lang_id := js "bar"; lang_extensions := None; lang_filenames := None;
       lang_filenamePatterns := None; lang_firstLine := None;
       lang_aliases := None;
       lang_mimetypes := Some [js "text/plain"];
       lang_configuration := None |} ].

(** ** views/header *)

(** [App.getInstance().execCommand(command)] is not part of the sources at
    hand; it acts on the application's state and may throw. *)
Class App := {
  AppState : Type;
  AppExn : Type;
  execCommand : string -> AppState -> Outcome AppState AppExn unit
}.

(** The [handler] of a quick accesser: the name of a command, or the
    function of [syncNotes]. *)
Inductive AccesserHandler :=
| HandlerCommand (command : string)
| HandlerSyncNotes.

(** The table [quickAccessers], as far as the click handler reads it. *)
Definition quickAccessers : list (string * AccesserHandler) :=
  [ ("readNote", HandlerCommand "readNote");
    ("editNote", HandlerCommand "editNote");
    ("livePreview", HandlerCommand "livePreview");
    ("openOrphanNote", HandlerCommand "openOrphanNote");
    ("saveNote", HandlerCommand "saveNote");
    ("syncNotes", HandlerSyncNotes) ]%string.

Fixpoint quickAccessers_get (name : string)
  (table : list (string * AccesserHandler)) : option AccesserHandler :=
  match table with
  | [] => None
  | (key, handler) :: rest =>
      if String.eqb key name then Some handler
      else quickAccessers_get name rest
  end.

Inductive HeaderEvent :=
| ClickItem (name : string)
| ClickSetting
| IpcSyncComplete
| IpcSyncFailed.

Section HeaderView.
Context `{App}.

(** What a handler can throw: the [TypeError] of reading [handler] from
    [undefined], or what [execCommand] threw. *)
Inductive HeaderExn :=
| TypeError
| CommandFailed (e : AppExn).

(** The header: whether the icon of the sync item has the class [fa-spin],
    the application, and the commands that [execCommand] ran to the end, in
    order. *)
Record HeaderState := {
  icon_spins : bool;
  application : AppState;
  executed : list string
}.

Definition set_spin (b : bool) (s : HeaderState) : HeaderState :=
  {| icon_spins := b; application := application s; executed := executed s |}.

Definition App_execCommand (command : string) (s : HeaderState)
  : Outcome HeaderState HeaderExn unit :=
  match execCommand command (application s) with
  | Ret _ a =>
      Ret tt {| icon_spins := icon_spins s; application := a;
                executed := executed s ++ [command] |}
  | Throw e a =>
      Throw (CommandFailed e)
        {| icon_spins := icon_spins s; application := a; executed := executed s |}
  end.

(** The [handler] of [syncNotes]. *)
Definition syncNotes_handler (s : HeaderState)
  : Outcome HeaderState HeaderExn unit :=
  if icon_spins s then Ret tt s
  else
    match App_execCommand "syncNotes" s with
    | Ret _ s1 => Ret tt (set_spin true s1)
    | Throw e s1 => Throw e s1
    end.

(** The click handler of the navigation items; [name] is the [_data]
    attribute of the item. *)
Definition onClickItem (name : string) (s : HeaderState)
  : Outcome HeaderState HeaderExn unit :=
  match quickAccessers_get name quickAccessers with
  | None => Throw TypeError s
  | Some (HandlerCommand _) => App_execCommand name s
  | Some HandlerSyncNotes => syncNotes_handler s
  end.

(** One event reaches the handlers that [init] installed. *)
Definition dispatch (ev : HeaderEvent) (s : HeaderState)
  : Outcome HeaderState HeaderExn unit :=
  match ev with
  | ClickItem name => onClickItem name s
  | ClickSetting => App_execCommand "openSettingPanel" s
  | IpcSyncComplete => Ret tt (set_spin false s)
  | IpcSyncFailed => Ret tt (set_spin false s)
  end.

(** A sequence of events; an exception ends the handler that threw, not the
    page. *)
Definition dispatchAll (evs : list HeaderEvent) (s : HeaderState)
  : HeaderState :=
  fold_left (fun s ev => state_of (dispatch ev s)) evs s.

Definition count_command (command : string) (log : list string) : nat :=
  length (List.filter (String.eqb command) log).

Definition is_sync_end (ev : HeaderEvent) : bool :=
  match ev with
  | IpcSyncComplete | IpcSyncFailed => true
  | _ => false
  end.

Definition spinning (s : HeaderState) : nat :=
  if icon_spins s then 1%nat else 0%nat.

End HeaderView.

(** ** editor/browser/view/viewImpl, continued: widgets, [dispose] and
    sequences of operations *)

(** The widget parts and what [dispose] tears down: more of what the view
    calls but does not define. *)
Class Surroundings `{Collaborators} := {
  ContentWidget : Type;
  OverlayWidget : Type;
  ContentPosition : Type;
  ContentPreference : Type;
  OverlayPreference : Type;
  (* ViewContentWidgets *)
  contentWidgets_addWidget : ContentWidget -> World -> Outcome World Exn unit;
  contentWidgets_setWidgetPosition :
    ContentWidget -> option ContentPosition -> option ContentPreference ->
    World -> Outcome World Exn unit;
  contentWidgets_removeWidget :
    ContentWidget -> World -> Outcome World Exn unit;
  (* ViewOverlayWidgets *)
  overlayWidgets_addWidget : OverlayWidget -> World -> Outcome World Exn unit;
  overlayWidgets_setWidgetPosition :
    OverlayWidget -> option OverlayPreference -> World ->
    Outcome World Exn bool;
  overlayWidgets_removeWidget :
    OverlayWidget -> World -> Outcome World Exn unit;
  (* what [dispose] calls *)
  eventDispatcher_removeEventHandler : World -> Outcome World Exn unit;
  outgoingEvents_dispose : World -> Outcome World Exn unit;
  pointerHandler_dispose : World -> Outcome World Exn unit;
  viewLines_dispose : World -> Outcome World Exn unit;
  viewPart_dispose : Part -> World -> Outcome World Exn unit;
  ViewEventHandler_dispose : World -> Outcome World Exn unit
}.

Section ViewImplMore.
Context `{Surroundings}.

(** [editorBrowser.IContentWidgetPosition] and [IOverlayWidgetPosition], as
    far as the view reads them. *)
Record IContentWidgetPosition := {
  cwp_position : ContentPosition;
  cwp_preference : ContentPreference
}.

Record IOverlayWidgetPosition := {
  owp_preference : OverlayPreference
}.

Record IContentWidgetData := {
  cw_widget : ContentWidget;
  cw_position : option IContentWidgetPosition
}.

Record IOverlayWidgetData := {
  ow_widget : OverlayWidget;
  ow_position : option IOverlayWidgetPosition
}.

Definition set_viewParts (parts : list Part) (s : ViewState) : ViewState :=
  {| world := world s; viewParts := parts;
     contentWidgets := contentWidgets s;
     _renderAnimationFrame := _renderAnimationFrame s;
     scheduled := scheduled s; nextHandle := nextHandle s;
     zonesHaveChanged := zonesHaveChanged s; trace := trace s |}.

(** A call to a collaborator that the trace does not record. *)
Definition perform {A} (f : World -> Outcome World Exn A) : M A :=
  fun s =>
    match f (world s) with
    | Ret a w => Ret a (set_world w s)
    | Throw e w => Throw e (set_world w s)
    end.

(** Modelled from the spec: "a pending frame can be cancelled by detaching
    the handle before it fires".  Disposing of a handle takes its callback
    out of the host's queue. *)
Definition Handle_dispose (h : Handle) : M unit :=
  update (fun s =>
    set_scheduled
      (List.filter (fun h' => negb (Nat.eqb h' h)) (scheduled s))
      (nextHandle s) s).

(** The loop of [dispose]. *)
Fixpoint disposeLoop (parts : list Part) : M unit :=
  match parts with
  | [] => ret tt
  | viewPart :: rest =>
      let* _ := perform (viewPart_dispose viewPart) in disposeLoop rest
  end.

(** [View.dispose()] *)
Definition dispose : M unit :=
  let* frame := field _renderAnimationFrame in
  let* _ :=
    match frame with
    | Some h =>
        let* _ := Handle_dispose h in
        update (set_renderAnimationFrame None)
    | None => ret tt
    end in
  let* _ := perform eventDispatcher_removeEventHandler in
  let* _ := perform outgoingEvents_dispose in
  let* _ := perform pointerHandler_dispose in
  let* _ := perform viewLines_dispose in
  let* parts := field viewParts in
  let* _ := disposeLoop parts in
  let* _ := update (set_viewParts []) in
  perform ViewEventHandler_dispose.

(** [View.layoutContentWidget(widgetData)] *)
Definition layoutContentWidget (widgetData : IContentWidgetData) : M unit :=
  let newPosition := option_map cwp_position (cw_position widgetData) in
  let newPreference := option_map cwp_preference (cw_position widgetData) in
  let* _ := perform (contentWidgets_setWidgetPosition (cw_widget widgetData)
                       newPosition newPreference) in
  _scheduleRender.

(** [View.addContentWidget(widgetData)] *)
Definition addContentWidget (widgetData : IContentWidgetData) : M unit :=
  let* _ := perform (contentWidgets_addWidget (cw_widget widgetData)) in
  let* _ := layoutContentWidget widgetData in
  _scheduleRender.

(** [View.removeContentWidget(widgetData)] *)
Definition removeContentWidget (widgetData : IContentWidgetData) : M unit :=
  let* _ := perform (contentWidgets_removeWidget (cw_widget widgetData)) in
  _scheduleRender.

(** [View.layoutOverlayWidget(widgetData)] *)
Definition layoutOverlayWidget (widgetData : IOverlayWidgetData) : M unit :=
  let newPreference := option_map owp_preference (ow_position widgetData) in
  let* shouldRender :=
    perform (overlayWidgets_setWidgetPosition (ow_widget widgetData)
               newPreference) in
  if shouldRender then _scheduleRender else ret tt.

(** [View.addOverlayWidget(widgetData)] *)
Definition addOverlayWidget (widgetData : IOverlayWidgetData) : M unit :=
  let* _ := perform (overlayWidgets_addWidget (ow_widget widgetData)) in
  let* _ := layoutOverlayWidget widgetData in
  _scheduleRender.

(** [View.removeOverlayWidget(widgetData)] *)
Definition removeOverlayWidget (widgetData : IOverlayWidgetData) : M unit :=
  let* _ := perform (overlayWidgets_removeWidget (ow_widget widgetData)) in
  _scheduleRender.

(** What a client of the view, the event dispatcher or the host can do to
    it.  [OpRenderOnce f] is the event dispatcher going through
    [_renderOnce] with a callback that acts on the world. *)
Inductive ViewOp :=
| OpScheduleRender
| OpFlush
| OpRender (now everything : bool)
| OpChange (callback : ZoneCallback)
| OpRenderOnce (callback : World -> Outcome World Exn unit)
| OpAddContentWidget (widgetData : IContentWidgetData)
| OpLayoutContentWidget (widgetData : IContentWidgetData)
| OpRemoveContentWidget (widgetData : IContentWidgetData)
| OpAddOverlayWidget (widgetData : IOverlayWidgetData)
| OpLayoutOverlayWidget (widgetData : IOverlayWidgetData)
| OpRemoveOverlayWidget (widgetData : IOverlayWidgetData)
| OpAnimationFrame.

Definition runOp (op : ViewOp) : M unit :=
  match op with
  | OpScheduleRender => _scheduleRender
  | OpFlush => _flushAccumulatedAndRenderNow
  | OpRender now everything => View_render now everything
  | OpChange callback => let* _ := change callback in ret tt
  | OpRenderOnce callback =>
      let* _ := _renderOnce (perform callback) in ret tt
  | OpAddContentWidget widgetData => addContentWidget widgetData
  | OpLayoutContentWidget widgetData => layoutContentWidget widgetData
  | OpRemoveContentWidget widgetData => removeContentWidget widgetData
  | OpAddOverlayWidget widgetData => addOverlayWidget widgetData
  | OpLayoutOverlayWidget widgetData => layoutOverlayWidget widgetData
  | OpRemoveOverlayWidget widgetData => removeOverlayWidget widgetData
  | OpAnimationFrame => animationFrame
  end.

(** The state after a sequence of operations; an operation that throws
    leaves the state it reached to the next one. *)
Definition runOps (ops : list ViewOp) (s : ViewState) : ViewState :=
  fold_left (fun s op => state_of (runOp op s)) ops s.

(** The operations that may run a render pass: a fired frame and a
    synchronous flush. *)
Definition may_render (op : ViewOp) : bool :=
  match op with
  | OpFlush | OpRender true _ | OpAnimationFrame => true
  | _ => false
  end.

(** A computation that, from a state with the scheduler's invariant, adds
    events with at most [c] pass starts to the trace and keeps the
    invariant, whether it returns or throws. *)
Definition Grows {A} (c : nat) (m : M A) : Prop :=
  forall s,
    sched_inv s ->
    exists new,
      trace (state_of (m s)) = trace s ++ new /\
      (passes new <= c)%nat /\
      sched_inv (state_of (m s)).

(** The outcome of an operation that ends by requesting a render: when it
    returns, a frame is pending; when it throws, it threw before the
    request and the scheduling fields are as they were.  Either way it runs
    no pass. *)
Definition requests_render_or_throws (m : M unit) (s : ViewState) : Prop :=
  trace (state_of (m s)) = trace s /\
  match m s with
  | Ret _ s' =>
      exists h, _renderAnimationFrame s' = Some h /\ scheduled s' = [h]
  | Throw _ s' =>
      _renderAnimationFrame s' = _renderAnimationFrame s /\
      scheduled s' = scheduled s
  end.

End ViewImplMore.

(** *** The demo instance, continued

    Widgets are numbers; touching a content widget marks part B, the content
    widgets part, dirty; an overlay widget reports a changed position when
    it is given the preference [true]; disposing of a part clears its dirty
    flag. *)
Definition demo_surroundings : @Surroundings demo :=
  Build_Surroundings demo
    (* ContentWidget, OverlayWidget, ContentPosition, ContentPreference,
       OverlayPreference *)
    Z Z Z Z bool
    (* contentWidgets: addWidget, setWidgetPosition, removeWidget *)
    (fun _ w => Ret tt (demo_set_dirty PartB true w))
    (fun _ _ _ w => Ret tt (demo_set_dirty PartB true w))
    (fun _ w => Ret tt (demo_set_dirty PartB true w))
    (* overlayWidgets: addWidget, setWidgetPosition, removeWidget *)
    (fun _ w => Ret tt w)
    (fun _ preference w => Ret (default false preference) w)
    (fun _ w => Ret tt w)
    (* eventDispatcher, outgoingEvents, pointerHandler, viewLines *)
    (fun w => Ret tt w)
    (fun w => Ret tt w)
    (fun w => Ret tt w)
    (fun w => Ret tt (demo_set_lines false w))
    (* each view part, then the base class *)
    (fun viewPart w => Ret tt (demo_set_dirty viewPart false w))
    (fun w => Ret tt w).

Definition demo_content_widget : @IContentWidgetData demo demo_surroundings :=
  @Build_IContentWidgetData demo demo_surroundings 7%Z
    (Some (@Build_IContentWidgetPosition demo demo_surroundings 3%Z 1%Z)).

Definition demo_overlay_widget : @IOverlayWidgetData demo demo_surroundings :=
  @Build_IOverlayWidgetData demo demo_surroundings 8%Z
    (Some (@Build_IOverlayWidgetPosition demo demo_surroundings true)).

(** A short session: a request, a zone change, the frame, a widget, a
    flush. *)
Definition demo_session : list (@ViewOp demo demo_surroundings) :=
  [ @OpScheduleRender demo demo_surroundings;
    @OpChange demo demo_surroundings demo_add_callback;
    @OpAnimationFrame demo demo_surroundings;
    @OpAddContentWidget demo demo_surroundings demo_content_widget;
    @OpFlush demo demo_surroundings ].

(** The demo view with a frame pending. *)
Definition demo_pending : @ViewState demo :=
  @state_of _ string unit (@_scheduleRender demo (demo_view demo_only_B)).

(* ===================================================================== *)
(** * Part II: statements *)
(* ===================================================================== *)

(** ** Marker keys *)

Section MarkerKeys.
Context `{Nls}.

Lemma replace_bar_free pat rep s : ~ In pat s -> replace pat rep s = s.
Proof.
  induction s as [|c s IH]; simpl; intros Hn; [reflexivity|].
  destruct (N.eqb_spec c pat) as [->|Hne].
  - exfalso. apply Hn. now left.
  - f_equal. apply IH. intros Hin. apply Hn. now right.
Qed.

Lemma uint_units_inj d d' : uint_units d = uint_units d' -> d = d'.
Proof.
  revert d'. induction d; intros d' E; destruct d'; simpl in E;
    try discriminate; try reflexivity;
    injection E as E; f_equal; now apply IHd.
Qed.

Lemma uint_units_digits d c : In c (uint_units d) -> 48 <= c <= 57.
Proof.
  induction d; simpl; intros Hin; try contradiction;
    (destruct Hin as [<-|Hin]; [lia | now apply IHd]).
Qed.

Lemma uint_units_head d c s : uint_units d = c :: s -> c <> 45.
Proof.
  intros E. assert (Hin : In c (uint_units d)) by (rewrite E; now left).
  apply uint_units_digits in Hin. lia.
Qed.

Lemma int_units_inj d d' : int_units d = int_units d' -> d = d'.
Proof.
  destruct d as [u|u], d' as [u'|u']; simpl; intros E.
  - f_equal. now apply uint_units_inj.
  - exfalso. now apply (uint_units_head u 45 (uint_units u')).
  - exfalso. symmetry in E. now apply (uint_units_head u' 45 (uint_units u)).
  - injection E as E. f_equal. now apply uint_units_inj.
Qed.

Lemma Number_toString_inj z z' :
  Number_toString z = Number_toString z' -> z = z'.
Proof.
  unfold Number_toString. intros E.
  apply DecimalZ.to_int_inj. now apply int_units_inj.
Qed.

Lemma Number_toString_bar_free z : bar_free (Number_toString z).
Proof.
  unfold bar_free, Number_toString, BROKEN_BAR.
  destruct (Z.to_int z) as [u|u]; simpl; intros Hin.
  - apply uint_units_digits in Hin. lia.
  - destruct Hin as [Hin|Hin]; [discriminate|].
    apply uint_units_digits in Hin. lia.
Qed.

(** Splitting at the first separator is unambiguous when the text before it
    holds no separator. *)
Lemma bar_split x x' r r' :
  bar_free x -> bar_free x' ->
  x ++ BROKEN_BAR :: r = x' ++ BROKEN_BAR :: r' -> x = x' /\ r = r'.
Proof.
  unfold bar_free. revert x'.
  induction x as [|c x IH]; intros [|c' x'] Hx Hx' E; simpl in *.
  - injection E as E. now split.
  - injection E as E1 E2. exfalso. apply Hx'. now left.
  - injection E as E1 E2. exfalso. apply Hx. now left.
  - injection E as E1 E2. subst c'.
    destruct (IH x') as [-> ->]; auto.
Qed.

Lemma makeKey_shape m src cod msg sev l1 c1 l2 c2 :
  source m = Some src -> src <> [] -> bar_free src ->
  code m = Some cod -> cod <> [] -> bar_free cod ->
  message m = Some msg -> msg <> [] -> bar_free msg ->
  severity m = Some sev ->
  startLineNumber m = Some l1 -> startColumn m = Some c1 ->
  endLineNumber m = Some l2 -> endColumn m = Some c2 ->
  makeKey m =
    BROKEN_BAR :: src ++ BROKEN_BAR :: cod ++
    BROKEN_BAR :: MarkerSeverity.toString sev ++ BROKEN_BAR :: msg ++
    BROKEN_BAR :: Number_toString l1 ++ BROKEN_BAR :: Number_toString c1 ++
    BROKEN_BAR :: Number_toString l2 ++ BROKEN_BAR :: Number_toString c2 ++
    [BROKEN_BAR].
Proof.
  intros Es Ns Bs Ec Nc Bc Em Nm Bm Ev E1 E2 E3 E4.
  unfold makeKey. rewrite Es, Ec, Em, Ev, E1, E2, E3, E4.
  unfold push_string, push_number, push_severity, truthy.
  destruct src as [|? ?]; [congruence|].
  destruct cod as [|? ?]; [congruence|].
  destruct msg as [|? ?]; [congruence|].
  rewrite !replace_bar_free by assumption.
  cbn [app join emptyString]. rewrite <- ?app_assoc. reflexivity.
Qed.

Lemma toString_inj_safe a b :
  display_strings_ok ->
  safe_severity (Some a) -> safe_severity (Some b) ->
  MarkerSeverity.toString a = MarkerSeverity.toString b -> a = b.
Proof.
  intros (_ & _ & _ & Hew & Hei & Hwi) Ha Hb E.
  destruct Ha as [Ha|[Ha|Ha]], Hb as [Hb|[Hb|Hb]];
    injection Ha as ->; injection Hb as ->;
    try reflexivity; exfalso; cbv zeta in *; congruence.
Qed.

Lemma toString_bar_free_safe a :
  display_strings_ok -> safe_severity (Some a) ->
  bar_free (MarkerSeverity.toString a).
Proof.
  intros (He & Hw & Hi & _) [Ha|[Ha|Ha]]; injection Ha as ->; assumption.
Qed.

(** C9.  On markers whose source, code and message are non-empty strings
    without the separator, whose severity is Error, Warning or Info and
    whose four positions are defined, [makeKey] gives equal keys exactly
    when the two markers agree on the eight key fields. *)
Theorem makeKey_injective_on_safe (a b : IMarkerData) :
  display_strings_ok -> safe_marker a -> safe_marker b ->
  (makeKey a = makeKey b <-> same_key_fields a b).
Proof.
  intros Hd Ha Hb.
  destruct Ha as ((sa & Esa & Nsa & Bsa) & (ca & Eca & Nca & Bca) &
                  (ma & Ema & Nma & Bma) & Hva &
                  [la Ela] & [ka Eka] & [la' Ela'] & [ka' Eka']).
  destruct Hb as ((sb & Esb & Nsb & Bsb) & (cb & Ecb & Ncb & Bcb) &
                  (mb & Emb & Nmb & Bmb) & Hvb &
                  [lb Elb] & [kb Ekb] & [lb' Elb'] & [kb' Ekb']).
  destruct (severity a) as [va|] eqn:Eva;
    [|destruct Hva as [?|[?|?]]; discriminate].
  destruct (severity b) as [vb|] eqn:Evb;
    [|destruct Hvb as [?|[?|?]]; discriminate].
  rewrite (makeKey_shape a sa ca ma va la ka la' ka') by assumption.
  rewrite (makeKey_shape b sb cb mb vb lb kb lb' kb') by assumption.
  unfold same_key_fields.
  rewrite Esa, Esb, Eca, Ecb, Eva, Evb, Ema, Emb, Ela, Elb, Eka, Ekb,
    Ela', Elb', Eka', Ekb'.
  split.
  - intros E. injection E as E.
    apply bar_split in E as [-> E]; [|assumption..].
    apply bar_split in E as [-> E]; [|assumption..].
    apply bar_split in E as [Ev E];
      [|now apply toString_bar_free_safe..].
    apply toString_inj_safe in Ev as ->; [|assumption..].
    apply bar_split in E as [-> E]; [|assumption..].
    apply bar_split in E as [E1 E]; [|apply Number_toString_bar_free..].
    apply bar_split in E as [E2 E]; [|apply Number_toString_bar_free..].
    apply bar_split in E as [E3 E]; [|apply Number_toString_bar_free..].
    apply app_inj_tail in E as [E4 _].
    apply Number_toString_inj in E1, E2, E3, E4. subst.
    repeat split; reflexivity.
  - intros (E1 & E2 & E3 & E4 & E5 & E6 & E7 & E8).
    congruence.
Qed.

End MarkerKeys.

Lemma default_display_strings_ok : @display_strings_ok default_nls.
Proof.
unfold display_strings_ok, bar_free; cbn.
repeat split; try discriminate; intros Hin;
  repeat (destruct Hin as [Hin|Hin]; [discriminate|]); exact Hin.
Qed.

Lemma marker_1_safe : safe_marker marker_1.
Proof.
unfold safe_marker, safe_string, safe_severity, bar_free; cbn.
repeat split; eauto;
  try (eexists; split; [reflexivity|split; [discriminate|]];
       intros Hin; repeat (destruct Hin as [Hin|Hin]; [discriminate|]);
       exact Hin).
Qed.

Lemma marker_2_safe : safe_marker marker_2.
Proof.
unfold safe_marker, safe_string, safe_severity, bar_free; cbn.
repeat split; eauto;
  try (eexists; split; [reflexivity|split; [discriminate|]];
       intros Hin; repeat (destruct Hin as [Hin|Hin]; [discriminate|]);
       exact Hin).
Qed.

(** Two markers that differ in their tags only share their key. *)
Lemma makeKey_injective_on_safe_witness :
@makeKey default_nls marker_1 = @makeKey default_nls marker_2
<-> same_key_fields marker_1 marker_2.
Proof.
exact (@makeKey_injective_on_safe default_nls marker_1 marker_2
         default_display_strings_ok marker_1_safe marker_2_safe).
Defined.

(** ** The language registry *)

Lemma mergeLanguage_identifier rl lang :
  identifier (_mergeLanguage rl lang) = identifier rl.
Proof.
  unfold _mergeLanguage.
  destruct (lang_mimetypes lang) as [[|m ms]|]; reflexivity.
Qed.

Lemma array_set_extend {V} (i : N) (v : V) (a : list (option V)) :
  (length a <= N.to_nat i)%nat ->
  array_set i v a = a ++ replicate (N.to_nat i - length a) None ++ [Some v].
Proof.
  intros Hle. unfold array_set. destruct (decide _); [lia|reflexivity].
Qed.

Lemma array_set_extend_length {V} (i : N) (v : V) (a : list (option V)) :
  (length a <= N.to_nat i)%nat ->
  length (array_set i v a) = S (N.to_nat i).
Proof.
  intros Hle. rewrite array_set_extend by assumption.
  rewrite !length_app, length_replicate. cbn. lia.
Qed.

Lemma array_set_extend_new {V} (i : N) (v : V) (a : list (option V)) :
  (length a <= N.to_nat i)%nat ->
  array_set i v a !! N.to_nat i = Some (Some v).
Proof.
  intros Hle. rewrite array_set_extend by assumption.
  rewrite lookup_app_r by assumption.
  rewrite lookup_app_r by (rewrite length_replicate; lia).
  rewrite length_replicate.
  replace (N.to_nat i - length a - (N.to_nat i - length a))%nat with 0%nat
    by lia.
  reflexivity.
Qed.

Lemma array_set_extend_old {V} (i : N) (v : V) (a : list (option V)) j x :
  (length a <= N.to_nat i)%nat ->
  a !! j = Some x -> array_set i v a !! j = Some x.
Proof.
  intros Hle Hj. rewrite array_set_extend by assumption.
  apply lookup_app_l_Some. exact Hj.
Qed.

Lemma registry_inv_new b : registry_inv (new_LanguagesRegistry b).
Proof.
  split; [|split]; cbn; try lia.
  intros k rl Hk. rewrite lookup_empty in Hk. discriminate.
Qed.

Lemma registry_inv_step lang r :
  registry_inv r -> registry_inv (_registerLanguage lang r).
Proof.
  intros (Hent & Hlen & Hnext). unfold _registerLanguage.
  destruct (_languages r !! lang_id lang) as [rl0|] eqn:Hown.
  - split; [|split]; cbn; try assumption.
    intros k rl Hk.
    destruct (decide (lang_id lang = k)) as [<-|Hne].
    + rewrite lookup_insert_eq in Hk. injection Hk as <-.
      rewrite mergeLanguage_identifier. now apply Hent.
    + rewrite lookup_insert_ne in Hk by assumption. now apply Hent.
  - split; [|split]; cbn.
    + intros k rl Hk. unfold obj_set in Hk.
      assert (Hold : forall rl', _languages r !! k = Some rl' ->
                li_language (identifier rl') = k /\
                1 <= li_id (identifier rl') < _nextLanguageId r + 1 /\
                array_set (_nextLanguageId r) (lang_id lang) (_languageIds r)
                  !! N.to_nat (li_id (identifier rl')) = Some (Some k)).
      { intros rl' Hk'. destruct (Hent k rl' Hk') as (H1 & H2 & H3).
        split; [exact H1|]. split; [lia|].
        now apply array_set_extend_old. }
      destruct (decide (lang_id lang = PROTO)); [now apply Hold|].
      destruct (decide (lang_id lang = k)) as [<-|Hne].
      * rewrite lookup_insert_eq in Hk. injection Hk as <-.
        rewrite mergeLanguage_identifier. cbn.
        split; [reflexivity|]. split; [lia|].
        now apply array_set_extend_new.
      * rewrite lookup_insert_ne in Hk by assumption. now apply Hold.
    + rewrite array_set_extend_length by assumption. lia.
    + lia.
Qed.

Lemma registry_inv_registerLanguages desc r :
  registry_inv r -> registry_inv (_registerLanguages desc r).
Proof.
  unfold _registerLanguages. revert r.
  induction desc as [|lang desc IH]; intros r Hinv; [exact Hinv|].
  cbn. apply IH. now apply registry_inv_step.
Qed.

Lemma truthy_nonempty (k : jsstring) : k <> [] -> truthy (Some k) = true.
Proof. destruct k; [congruence|reflexivity]. Qed.

Lemma lookup_own (m : gmap jsstring IResolvedLanguage) (k : jsstring) rl :
  m !! k = Some rl ->
  (if hasOwnProperty m k then identifier <$> (m !! k) else None)
    = Some (identifier rl).
Proof.
  intros Hk. unfold hasOwnProperty. rewrite Hk. reflexivity.
Qed.

(** X3.  After any sequence of registrations, two different
    registered string ids carry different numeric ids; registering a string
    id that is an own entry allocates nothing and keeps its identifier; and
    the numeric id of a registered language whose string id is not empty
    leads back to its identifier. *)
Lemma registry_ids_consistent `{Modes} (desc : list ILanguageExtensionPoint)
  (warn : bool) :
  LanguageId_Null = 0 ->
  let r := _registerLanguages desc (new_LanguagesRegistry warn) in
  (forall k k' rl rl',
     _languages r !! k = Some rl -> _languages r !! k' = Some rl' ->
     k <> k' -> li_id (identifier rl) <> li_id (identifier rl')) /\
  (forall lang rl,
     _languages r !! lang_id lang = Some rl ->
     _nextLanguageId (_registerLanguage lang r) = _nextLanguageId r /\
     identifier <$> (_languages (_registerLanguage lang r) !! lang_id lang)
       = Some (identifier rl)) /\
  (forall k rl,
     _languages r !! k = Some rl -> k <> [] ->
     getLanguageIdentifier (inr (li_id (identifier rl))) r
       = Some (identifier rl)).
Proof.
  intros Hnull r.
  assert (Hinv : registry_inv r)
    by apply registry_inv_registerLanguages, registry_inv_new.
  destruct Hinv as (Hent & _ & _).
  split; [|split].
  - intros k k' rl rl' Hk Hk' Hne Heq.
    destruct (Hent k rl Hk) as (_ & _ & H1).
    destruct (Hent k' rl' Hk') as (_ & _ & H2).
    rewrite Heq in H1. congruence.
  - intros lang rl Hk. unfold _registerLanguage. rewrite Hk. cbn.
    split; [reflexivity|].
    now rewrite lookup_insert_eq; cbn; rewrite mergeLanguage_identifier.
  - intros k rl Hk Hne.
    destruct (Hent k rl Hk) as (_ & Hid & Hids).
    unfold getLanguageIdentifier.
    destruct (decide (li_id (identifier rl) = LanguageId_Null)) as [Heq|_];
      [lia|].
    unfold array_get. rewrite Hids.
    rewrite (truthy_nonempty k Hne). cbn [default from_option id].
    now apply lookup_own.
Qed.

(** C8, at the input on which the code fails.  A language whose string id is
    the empty string is registered under the numeric id 1 and found by its
    string id, but [getLanguageIdentifier(1)] returns [null]: [!modeId]
    takes the empty string for a missing entry.  (An id [__proto__] is
    never an own entry: registering it twice allocates two numeric ids.) *)
Theorem empty_language_id_breaks_round_trip :
  let r := _registerLanguages [plain_language []] (new_LanguagesRegistry false) in
  identifier <$> (_languages r !! []) = Some {| li_language := []; li_id := 1 |} /\
  @getLanguageIdentifier editor_modes (inl []) r
    = Some {| li_language := []; li_id := 1 |} /\
  @getLanguageIdentifier editor_modes (inr 1) r = None /\
  _nextLanguageId
    (_registerLanguages [plain_language PROTO; plain_language PROTO]
       (new_LanguagesRegistry false)) = 3.
Proof. vm_compute. repeat split. Qed.

(** ** The view: traces and loops *)

Section ViewFacts.
Context `{Collaborators}.

Lemma rendered_app tr1 tr2 : rendered (tr1 ++ tr2) = rendered tr1 ++ rendered tr2.
Proof.
  induction tr1 as [|ev tr1 IH]; [reflexivity|].
  destruct ev; simpl; rewrite ?IH; reflexivity.
Qed.

Lemma prepared_app tr1 tr2 : prepared (tr1 ++ tr2) = prepared tr1 ++ prepared tr2.
Proof.
  induction tr1 as [|ev tr1 IH]; [reflexivity|].
  destruct ev; simpl; rewrite ?IH; reflexivity.
Qed.


Lemma snapshots_app tr1 tr2 :
  snapshots (tr1 ++ tr2) = snapshots tr1 ++ snapshots tr2.
Proof.
  induction tr1 as [|ev tr1 IH]; [reflexivity|].
  destruct ev; simpl; rewrite ?IH; reflexivity.
Qed.

Lemma reports_app tr1 tr2 : reports (tr1 ++ tr2) = reports tr1 ++ reports tr2.
Proof.
  induction tr1 as [|ev tr1 IH]; [reflexivity|].
  destruct ev; simpl; rewrite ?IH; reflexivity.
Qed.

Lemma passes_app tr1 tr2 : passes (tr1 ++ tr2) = (passes tr1 + passes tr2)%nat.
Proof.
  induction tr1 as [|ev tr1 IH]; [reflexivity|].
  destruct ev; simpl; rewrite ?IH; reflexivity.
Qed.

Lemma events_app (s s' : ViewState) new :
  trace s' = trace s ++ new -> events s s' = new.
Proof.
  unfold events. intros ->. now rewrite drop_app_length.
Qed.

Lemma events_refl (s : ViewState) : events s s = [].
Proof. apply events_app. now rewrite app_nil_r. Qed.

Lemma same_view_refl (s : ViewState) : same_view s s.
Proof. repeat split. Qed.

Lemma same_view_trans (s1 s2 s3 : ViewState) :
  same_view s1 s2 -> same_view s2 s3 -> same_view s1 s3.
Proof.
  unfold same_view. intros (?&?&?&?&?&?) (?&?&?&?&?&?).
  repeat split; congruence.
Qed.

Lemma collectLoop_spec parts w result :
  collectLoop parts w result = result ++ dirtyParts w parts.
Proof.
  revert result. induction parts as [|p parts IH]; intros result; simpl.
  - now rewrite app_nil_r.
  - destruct (shouldRender p w); rewrite IH; [|reflexivity].
    now rewrite <- app_assoc.
Qed.

Lemma getViewPartsToRender_spec s :
  _getViewPartsToRender s = Ret (dirtyParts (world s) (viewParts s)) s.
Proof. unfold _getViewPartsToRender. now rewrite collectLoop_spec. Qed.

(** Facts about the events of the two loops. *)
Section LoopEvents.
Variable ctx : RenderingContext.

Lemma rendered_prepare_events l :
  rendered (List.map (fun p => EPrepareRender p ctx) l) = [].
Proof. induction l; simpl; auto. Qed.

Lemma prepared_prepare_events l :
  prepared (List.map (fun p => EPrepareRender p ctx) l) = l.
Proof. induction l; simpl; congruence. Qed.

Lemma rendered_commit_events l : rendered (commit_events ctx l) = l.
Proof. induction l; simpl; congruence. Qed.

Lemma prepared_commit_events l : prepared (commit_events ctx l) = [].
Proof. induction l; simpl; auto. Qed.

Lemma commit_events_app l1 l2 :
  commit_events ctx (l1 ++ l2) = commit_events ctx l1 ++ commit_events ctx l2.
Proof. unfold commit_events. now rewrite flat_map_app. Qed.

End LoopEvents.

Lemma prepareLoop_spec ctx l s :
  exists lp lp',
    l = lp ++ lp' /\
    same_view s (state_of (prepareLoop ctx l s)) /\
    trace (state_of (prepareLoop ctx l s)) =
      trace s ++ List.map (fun p => EPrepareRender p ctx) lp /\
    (is_ret (prepareLoop ctx l s) = true -> lp' = []).
Proof.
  revert s. induction l as [|p l IH]; intros s.
  - exists [], []. simpl. rewrite app_nil_r.
    repeat split; auto.
  - cbn [prepareLoop]. unfold bind, invoke.
    destruct (prepareRender p ctx (world (add_event (EPrepareRender p ctx) s)))
      as [[] w1|e w1].
    + destruct (IH (set_world w1 (add_event (EPrepareRender p ctx) s)))
        as (lp & lp' & -> & Hsame & Htr & Hret).
      exists (p :: lp), lp'. split; [reflexivity|].
      split; [|split].
      * eapply same_view_trans; [|exact Hsame]. repeat split.
      * rewrite Htr. simpl. now rewrite <- app_assoc.
      * exact Hret.
    + exists [p], l. simpl. repeat split; auto. discriminate.
Qed.

Lemma renderLoop_spec ctx l s :
  exists lc lc' tail,
    l = lc ++ lc' /\
    same_view s (state_of (renderLoop ctx l s)) /\
    trace (state_of (renderLoop ctx l s)) =
      trace s ++ commit_events ctx lc ++ tail /\
    (tail = [] \/ exists p r, lc' = p :: r /\ tail = [ERender p ctx]) /\
    (is_ret (renderLoop ctx l s) = true -> lc' = [] /\ tail = []).
Proof.
  revert s. induction l as [|p l IH]; intros s.
  - exists [], [], []. simpl. rewrite app_nil_r.
    repeat split; auto.
  - cbn [renderLoop]. unfold bind, invoke.
    destruct (render p ctx (world (add_event (ERender p ctx) s)))
      as [[] w1|e w1]; cbn [world set_world add_event].
    + destruct (onDidRender p w1) as [[] w2|e w2].
      * match goal with
        | |- context [renderLoop ctx l ?s2] =>
            destruct (IH s2) as (lc & lc' & tail & -> & Hsame & Htr & Ht & Hret)
        end.
        exists (p :: lc), lc', tail. split; [reflexivity|].
        split; [|split; [|split]].
        -- eapply same_view_trans; [|exact Hsame]. repeat split.
        -- rewrite Htr. simpl. rewrite <- !app_assoc. reflexivity.
        -- exact Ht.
        -- exact Hret.
      * exists [p], l, []. simpl. rewrite <- app_assoc.
        repeat split; auto; discriminate.
    + exists [], (p :: l), [ERender p ctx]. simpl.
      repeat split; eauto; discriminate.
Qed.

Lemma pass_loops_shape ctx l s : LoopsShape ctx l s (pass_loops ctx l s).
Proof.
  unfold pass_loops, bind.
  destruct (prepareLoop_spec ctx l s) as (lp & lp' & Hl & Hsame & Htr & Hret).
  destruct (prepareLoop ctx l s) as [[] s1|e s1]; cbn [state_of is_ret] in *.
  - destruct (renderLoop_spec ctx l s1)
      as (lc & lc' & tail & Hl2 & Hsame2 & Htr2 & Ht & Hret2).
    specialize (Hret eq_refl). subst lp'. rewrite app_nil_r in Hl. subst lp.
    apply (loops_shape_intro ctx l s _ l [] lc lc' tail).
    + eapply same_view_trans; eauto.
    + rewrite Htr2, Htr. now rewrite <- app_assoc.
    + now rewrite app_nil_r.
    + exact Hl2.
    + exact Ht.
    + now right.
    + intros Hr. destruct (Hret2 Hr). auto.
  - apply (loops_shape_intro ctx l s _ lp lp' [] l []).
    + exact Hsame.
    + cbn [state_of]. rewrite Htr. simpl. now rewrite app_nil_r.
    + exact Hl.
    + reflexivity.
    + now left.
    + now left.
    + discriminate.
Qed.

Ltac solve_setup :=
  repeat first
    [ apply List.Forall_nil
    | apply List.Forall_cons; [unfold setup_event; auto 7|] ].

Lemma pass_lines_shape vd l0 s : SetupShape vd l0 s (pass_lines vd l0 s).
Proof.
  unfold pass_lines, bind, gets.
  destruct (viewLines_shouldRender (world s)) eqn:Hlines.
  - unfold invoke at 1.
    destruct (viewLines_renderText vd (world (add_event (ERenderText vd) s)))
      as [[] w1|e w1] eqn:Hrt.
    + unfold invoke at 1. cbn [world set_world add_event].
      destruct (viewLines_onDidRender w1) as [[] w2|e w2] eqn:Hdr.
      * rewrite getViewPartsToRender_spec.
        match goal with
        | |- context [pass_loops ?c ?l ?s2] =>
            destruct (pass_loops_shape c l s2)
              as [lp lp' lc lc' tail Hsame Htr Hlp Hlc Ht Hph Hdone]
        end.
        cbn [world set_world add_event viewParts trace] in *.
        apply (setup_shape_intro vd l0 s _ (dirtyParts w2 (viewParts s))
                 [ERenderText vd; ELinesDidRender] lp lp' lc lc' tail).
        -- eapply same_view_trans; [|exact Hsame]. repeat split.
        -- rewrite Htr. rewrite <- !app_assoc. reflexivity.
        -- solve_setup.
        -- reflexivity.
        -- exact Hlp.
        -- exact Hlc.
        -- exact Ht.
        -- exact Hph.
        -- right. exists w2. split; [|split; [reflexivity|now left]].
           eapply reach_renderText; [exact Hrt|].
           eapply reach_linesDidRender; [exact Hdr|]. apply reach_refl.
        -- exact Hdone.
      * apply (setup_shape_intro vd l0 s _ (dirtyParts (world s) (viewParts s))
                 [ERenderText vd; ELinesDidRender]
                 [] (dirtyParts (world s) (viewParts s))
                 [] (dirtyParts (world s) (viewParts s)) []).
        -- repeat split.
        -- cbn. rewrite <- app_assoc. reflexivity.
        -- solve_setup.
        -- reflexivity.
        -- reflexivity.
        -- reflexivity.
        -- now left.
        -- now left.
        -- right. exists (world s). split; [apply reach_refl|].
           split; [reflexivity|now left].
        -- discriminate.
    + apply (setup_shape_intro vd l0 s _ (dirtyParts (world s) (viewParts s))
               [ERenderText vd]
               [] (dirtyParts (world s) (viewParts s))
               [] (dirtyParts (world s) (viewParts s)) []).
      * repeat split.
      * reflexivity.
      * solve_setup.
      * reflexivity.
      * reflexivity.
      * reflexivity.
      * now left.
      * now left.
      * right. exists (world s). split; [apply reach_refl|].
        split; [reflexivity|now left].
      * discriminate.
  - unfold ret.
    destruct (pass_loops_shape (new_RenderingContext vd) l0 s)
      as [lp lp' lc lc' tail Hsame Htr Hlp Hlc Ht Hph Hdone].
    apply (setup_shape_intro vd l0 s _ l0 [] lp lp' lc lc' tail);
      try assumption.
    + constructor.
    + reflexivity.
    + left. split; [reflexivity|]. intros vd' [].
Qed.

Lemma pass_widgets_shape vd l0 s : SetupShape vd l0 s (pass_widgets vd l0 s).
Proof.
  unfold pass_widgets, bind, gets, field.
  destruct (shouldRender (contentWidgets s) (world s)).
  - unfold invoke at 1.
    destruct (onBeforeRender vd (world (add_event (EOnBeforeRender vd) s)))
      as [[] w1|e w1] eqn:Hbr.
    + match goal with
      | |- context [pass_lines vd l0 ?s2] =>
          destruct (pass_lines_shape vd l0 s2)
            as [L setup lp lp' lc lc' tail Hsame Htr Hsetup Hsnap Hlp Hlc
                  Ht Hph Hw Hdone]
      end.
      cbn [world set_world add_event viewParts trace] in *.
      apply (setup_shape_intro vd l0 s _ L (EOnBeforeRender vd :: setup)
               lp lp' lc lc' tail); try assumption.
      * rewrite Htr. rewrite <- !app_assoc. reflexivity.
      * constructor; [unfold setup_event; auto|exact Hsetup].
      * destruct Hw as [[-> Hno]|(w & Hreach & -> & Hin)].
        -- left. split; [reflexivity|].
           intros vd' [Hin|Hin]; [discriminate|]. now apply (Hno vd').
        -- right. exists w. split; [|split; [reflexivity|now right]].
           eapply reach_onBeforeRender; [exact Hbr|exact Hreach].
    + apply (setup_shape_intro vd l0 s _ l0 [EOnBeforeRender vd]
               [] l0 [] l0 []).
      * repeat split.
      * reflexivity.
      * solve_setup.
      * reflexivity.
      * reflexivity.
      * reflexivity.
      * now left.
      * now left.
      * left. split; [reflexivity|].
        intros vd' [Hin|[]]. discriminate.
      * discriminate.
  - unfold ret. apply pass_lines_shape.
Qed.

Lemma actualRender_unfold s :
  _actualRender s =
    let s0 := add_event EActualRender s in
    if negb (isInDOM (world s)) then Ret tt s0 else
    let l0 := dirtyParts (world s) (viewParts s) in
    if negb (viewLines_shouldRender (world s)) && (length l0 =? 0)%nat
    then Ret tt s0 else
    let pvd := getLinesViewportData (world s) in
    let ev := ESetViewport (pvd_startLineNumber pvd) (pvd_endLineNumber pvd)
                (pvd_centeredLineNumber pvd) in
    match setViewport (pvd_startLineNumber pvd) (pvd_endLineNumber pvd)
            (pvd_centeredLineNumber pvd) (world s) with
    | Throw e w1 => Throw e (set_world w1 (add_event ev s0))
    | Ret _ w1 =>
        let vd := new_ViewportData (getViewSelections w1) pvd
                    (getWhitespaceViewportData w1) in
        pass_widgets vd l0
          (add_event (ENewViewportData vd) (set_world w1 (add_event ev s0)))
    end.
Proof.
  unfold _actualRender, bind, update, gets. cbn [world add_event].
  destruct (isInDOM (world s)); [|reflexivity]. cbn [negb].
  rewrite getViewPartsToRender_spec. cbn [world add_event viewParts].
  destruct (negb (viewLines_shouldRender (world s)) &&
            (length (dirtyParts (world s) (viewParts s)) =? 0)%nat);
    [reflexivity|].
  cbv zeta. unfold invoke. cbn [world add_event].
  destruct (setViewport _ _ _ (world s)) as [[] w1|e w1]; reflexivity.
Qed.

(** The shape of every render pass. *)
Lemma pass_shape s : PassShape s (_actualRender s).
Proof.
  rewrite actualRender_unfold. cbv zeta.
  set (w0 := world s).
  set (vd0 := new_ViewportData (getViewSelections w0)
                (getLinesViewportData w0) (getWhitespaceViewportData w0)).
  set (l0 := dirtyParts w0 (viewParts s)).
  destruct (isInDOM w0) eqn:Hdom; cbn [negb].
  2:{ apply (pass_shape_intro s _ w0 vd0 [] [] l0 [] l0 []).
      - repeat split.
      - reflexivity.
      - constructor.
      - now right.
      - reflexivity.
      - reflexivity.
      - now left.
      - now left.
      - apply reach_refl.
      - reflexivity.
      - intros _ Hd. subst w0. congruence.
      - intros Hd. subst w0. congruence. }
  destruct (negb (viewLines_shouldRender w0) && (length l0 =? 0)%nat)
    eqn:Hguard.
  { apply andb_true_iff in Hguard as [Hlines Hlen].
    apply negb_true_iff in Hlines.
    apply Nat.eqb_eq in Hlen. apply length_zero_iff_nil in Hlen.
    apply (pass_shape_intro s _ w0 vd0 [] [] l0 [] l0 []).
    - repeat split.
    - reflexivity.
    - constructor.
    - now right.
    - reflexivity.
    - reflexivity.
    - now left.
    - now left.
    - apply reach_refl.
    - reflexivity.
    - intros _ _. auto.
    - intros _ [Hl|Hl]; [subst w0; congruence|]. now elim Hl. }
  destruct (setViewport _ _ _ w0) as [[] w1|e w1] eqn:Hsv.
  - set (vd := new_ViewportData (getViewSelections w1)
                 (getLinesViewportData w0) (getWhitespaceViewportData w1)).
    match goal with
    | |- context [pass_widgets vd l0 ?s2] =>
        destruct (pass_widgets_shape vd l0 s2)
          as [L setup lp lp' lc lc' tail Hsame Htr Hsetup Hsnap Hlp Hlc
                Ht Hph Hw Hdone]
    end.
    cbn [world set_world add_event viewParts trace] in *.
    set (ev := ESetViewport (pvd_startLineNumber (getLinesViewportData w0))
                 (pvd_endLineNumber (getLinesViewportData w0))
                 (pvd_centeredLineNumber (getLinesViewportData w0))) in *.
    assert (Hsame' : same_view s
              (state_of (pass_widgets vd l0
                 (add_event (ENewViewportData vd)
                    (set_world w1 (add_event ev (add_event EActualRender s))))))).
    { eapply same_view_trans; [|exact Hsame]. repeat split. }
    assert (Hsetup' : Forall (setup_event vd)
                        (ev :: ENewViewportData vd :: setup)).
    { constructor; [left; unfold ev; eauto|].
      constructor; [unfold setup_event; auto|exact Hsetup]. }
    assert (Hsnap' : snapshots (ev :: ENewViewportData vd :: setup) = [vd]).
    { cbn. now rewrite Hsnap. }
    destruct Hw as [[HL Hno]|(w & Hreach & HL & Hin)].
    + apply (pass_shape_intro s _ w0 vd
               (ev :: ENewViewportData vd :: setup) lp lp' lc lc' tail);
        try assumption.
      * rewrite Htr. rewrite <- !app_assoc. reflexivity.
      * now left.
      * fold l0. congruence.
      * fold l0. congruence.
      * apply reach_refl.
      * reflexivity.
      * intros Hr _. now apply Hdone.
      * intros _ _ _. exact Hsnap'.
    + apply (pass_shape_intro s _ w vd
               (ev :: ENewViewportData vd :: setup) lp lp' lc lc' tail);
        try assumption.
      * rewrite Htr. rewrite <- !app_assoc. reflexivity.
      * now left.
      * congruence.
      * congruence.
      * eapply reach_setViewport; [exact Hsv|exact Hreach].
      * intros Hno. exfalso. apply (Hno vd). now right; right.
      * intros Hr _. now apply Hdone.
      * intros _ _ _. exact Hsnap'.
  - apply (pass_shape_intro s _ w0 vd0
             [ESetViewport (pvd_startLineNumber (getLinesViewportData w0))
                (pvd_endLineNumber (getLinesViewportData w0))
                (pvd_centeredLineNumber (getLinesViewportData w0))]
             [] l0 [] l0 []).
    + repeat split.
    + cbn. rewrite <- app_assoc. reflexivity.
    + constructor; [left; eauto|constructor].
    + now right.
    + reflexivity.
    + reflexivity.
    + now left.
    + now left.
    + apply reach_refl.
    + reflexivity.
    + discriminate.
    + intros _ _ [w1' Hw1]. subst w0. congruence.
Qed.

Lemma passes_setup vd setup : Forall (setup_event vd) setup -> passes setup = 0%nat.
Proof.
  induction 1 as [|ev setup Hev _ IH]; [reflexivity|].
  destruct Hev as [(a & b & c & ->)|[->|[->|[->| ->]]]]; exact IH.
Qed.

Lemma passes_prepare_events ctx l :
  passes (List.map (fun p => EPrepareRender p ctx) l) = 0%nat.
Proof. induction l; simpl; auto. Qed.

Lemma passes_commit_events ctx l : passes (commit_events ctx l) = 0%nat.
Proof. induction l; simpl; auto. Qed.

Lemma reports_setup vd setup : Forall (setup_event vd) setup -> reports setup = [].
Proof.
  induction 1 as [|ev setup Hev _ IH]; [reflexivity|].
  destruct Hev as [(a & b & c & ->)|[->|[->|[->| ->]]]]; exact IH.
Qed.

Lemma reports_prepare_events ctx l :
  reports (List.map (fun p => EPrepareRender p ctx) l) = [].
Proof. induction l; simpl; auto. Qed.

Lemma reports_commit_events ctx l : reports (commit_events ctx l) = [].
Proof. induction l; simpl; auto. Qed.

(** A pass begins once and reports nothing by itself. *)
Lemma actualRender_counts s :
  passes (events s (state_of (_actualRender s))) = 1%nat /\
  reports (events s (state_of (_actualRender s))) = [].
Proof.
  destruct (pass_shape s)
    as [w vd setup lp lp' lc lc' tail Hsame Htr Hsetup _ _ _ Ht _ _ _ _ _].
  rewrite (events_app _ _ _ Htr).
  change (EActualRender :: ?l) with ([EActualRender] ++ l).
  rewrite !passes_app, !reports_app.
  rewrite (passes_setup vd setup Hsetup), passes_prepare_events,
    passes_commit_events, (reports_setup vd setup Hsetup),
    reports_prepare_events, reports_commit_events.
  destruct Ht as [->|(p & r & _ & ->)]; split; reflexivity.
Qed.

Lemma renderNow_eq s :
  _renderNow s =
    match _actualRender s with
    | Ret _ s1 => Ret tt s1
    | Throw e s1 => Ret tt (add_event (EUnexpectedError e) s1)
    end.
Proof.
  unfold _renderNow, safeInvokeNoArg, try_catch, bind, ret, onUnexpectedError,
    update.
  destruct (_actualRender s); reflexivity.
Qed.

Lemma events_add_event (s s1 : ViewState) ev :
  (length (trace s) <= length (trace s1))%nat ->
  events s (add_event ev s1) = events s s1 ++ [ev].
Proof.
  unfold events. cbn [trace add_event]. intros Hle.
  now rewrite drop_app_le.
Qed.

Lemma actualRender_trace_grows s :
  (length (trace s) <= length (trace (state_of (_actualRender s))))%nat.
Proof.
  destruct (pass_shape s)
    as [w vd setup lp lp' lc lc' tail _ Htr _ _ _ _ _ _ _ _ _ _].
  rewrite Htr, length_app. lia.
Qed.

(** [_renderNow] always returns; it runs one pass and leaves the scheduling
    fields alone. *)
Lemma renderNow_spec s :
  exists s',
    _renderNow s = Ret tt s' /\ same_view s s' /\
    passes (events s s') = 1%nat.
Proof.
  rewrite renderNow_eq.
  destruct (pass_shape s)
    as [w vd setup lp lp' lc lc' tail Hsame _ _ _ _ _ _ _ _ _ _ _].
  destruct (actualRender_counts s) as [Hp _].
  pose proof (actualRender_trace_grows s) as Hlen.
  destruct (_actualRender s) as [[] s1|e s1]; cbn [state_of] in *.
  - exists s1. auto.
  - exists (add_event (EUnexpectedError e) s1). split; [reflexivity|].
    split; [exact Hsame|].
    rewrite events_add_event by assumption.
    rewrite passes_app, Hp. reflexivity.
Qed.

Lemma scheduleRender_pending s h :
  _renderAnimationFrame s = Some h -> _scheduleRender s = Ret tt s.
Proof.
  intros Hf. unfold _scheduleRender, bind, field. now rewrite Hf.
Qed.

Lemma scheduleRender_idle s :
  _renderAnimationFrame s = None ->
  _scheduleRender s =
    Ret tt (set_renderAnimationFrame (Some (nextHandle s))
              (set_scheduled (scheduled s ++ [nextHandle s])
                 (S (nextHandle s)) s)).
Proof.
  intros Hf. unfold _scheduleRender, bind, field. now rewrite Hf.
Qed.

(** A request keeps the invariant, leaves exactly one callback with the host
    and touches neither the world nor the trace. *)
Lemma scheduleRender_spec s :
  sched_inv s ->
  exists s1 h,
    _scheduleRender s = Ret tt s1 /\ sched_inv s1 /\
    _renderAnimationFrame s1 = Some h /\ scheduled s1 = [h] /\
    trace s1 = trace s /\ world s1 = world s /\ viewParts s1 = viewParts s.
Proof.
  unfold sched_inv. intros Hinv.
  destruct (_renderAnimationFrame s) as [h|] eqn:Hf.
  - exists s, h. rewrite (scheduleRender_pending s h Hf), Hf. auto 10.
  - rewrite (scheduleRender_idle s Hf), Hinv.
    eexists _, (nextHandle s). split; [reflexivity|].
    cbn. auto 10.
Qed.

Lemma requests_spec n s :
  (1 <= n)%nat -> sched_inv s ->
  exists s1 h,
    requests n s = Ret tt s1 /\ sched_inv s1 /\
    _renderAnimationFrame s1 = Some h /\ scheduled s1 = [h] /\
    trace s1 = trace s /\ world s1 = world s /\ viewParts s1 = viewParts s.
Proof.
  revert s. induction n as [|n IH]; intros s Hn Hinv; [lia|].
  cbn [requests]. unfold bind.
  destruct (scheduleRender_spec s Hinv)
    as (s1 & h & -> & Hinv1 & Hf1 & Hq1 & Ht1 & Hw1 & Hp1).
  destruct n as [|n].
  - exists s1, h. cbn. auto 10.
  - destruct (IH s1 ltac:(lia) Hinv1)
      as (s2 & h2 & -> & Hinv2 & Hf2 & Hq2 & Ht2 & Hw2 & Hp2).
    exists s2, h2. split; [reflexivity|].
    repeat split; congruence.
Qed.

(** When the host fires with exactly one callback waiting, [_renderNow] runs
    once on the state whose handle has been cleared. *)
Lemma animationFrame_one s h :
  scheduled s = [h] ->
  exists s2,
    animationFrame s = Ret tt s2 /\
    passes (events s s2) = 1%nat /\
    _renderAnimationFrame s2 = None /\ scheduled s2 = [].
Proof.
  intros Hq.
  unfold animationFrame, bind, field, update. rewrite Hq.
  cbn [runCallbacks]. unfold bind, _onRenderScheduled, bind, update,
    _flushAccumulatedAndRenderNow, ret.
  match goal with
  | |- context [_renderNow ?s1] =>
      destruct (renderNow_spec s1) as (s2 & -> & Hsame & Hp)
  end.
  exists s2. split; [reflexivity|].
  destruct Hsame as (_ & _ & Hf & Hs & _ & _).
  split; [exact Hp|]. split; [exact Hf|exact Hs].
Qed.

(** [sched_inv] holds of a new view and is kept by every operation of the
    scheduler. *)
Lemma sched_inv_new_View w parts widgets : sched_inv (new_View w parts widgets).
Proof. reflexivity. Qed.

Lemma sched_inv_same_view s s' : same_view s s' -> sched_inv s -> sched_inv s'.
Proof.
  unfold sched_inv. intros (_ & _ & -> & -> & _). auto.
Qed.

Lemma sched_inv_preserved s :
  sched_inv s ->
  sched_inv (state_of (_scheduleRender s)) /\
  sched_inv (state_of (_renderNow s)) /\
  sched_inv (state_of (animationFrame s)) /\
  (forall now everything, sched_inv (state_of (View_render now everything s))).
Proof.
  intros Hinv.
  assert (Hsr : forall s0, sched_inv s0 -> sched_inv (state_of (_scheduleRender s0))).
  { intros s0 H0. destruct (scheduleRender_spec s0 H0) as (s1 & h & -> & H1 & _).
    exact H1. }
  assert (Hrn : forall s0, sched_inv s0 -> sched_inv (state_of (_renderNow s0))).
  { intros s0 H0. destruct (renderNow_spec s0) as (s1 & -> & Hsame & _).
    now apply (sched_inv_same_view s0). }
  split; [now apply Hsr|]. split; [now apply Hrn|]. split.
  - unfold sched_inv in Hinv.
    destruct (_renderAnimationFrame s) as [h|] eqn:Hf.
    + destruct (animationFrame_one s h Hinv) as (s2 & -> & _ & Hf2 & Hq2).
      unfold sched_inv. cbn [state_of]. now rewrite Hf2.
    + unfold animationFrame, bind, field, update. rewrite Hinv.
      cbn. unfold sched_inv. cbn. now rewrite Hf.
  - intros now everything. unfold View_render, _flushAccumulatedAndRenderNow.
    destruct everything, now; unfold bind, field, update, ret;
      first [apply Hrn | apply Hsr]; exact Hinv.
Qed.

(** C1.  From a state in which the host holds exactly the callback the view
    remembers, any number [n >= 1] of render requests in a row leaves
    exactly one callback pending after each of them and runs no pass; when
    the host then fires, exactly one render pass runs and nothing is
    pending afterwards; and a request made while a frame is pending returns
    the state unchanged. *)
Theorem render_requests_coalesce (n : nat) (s : ViewState) :
  (1 <= n)%nat -> sched_inv s ->
  (forall k, (1 <= k <= n)%nat ->
     exists sk h,
       requests k s = Ret tt sk /\ _renderAnimationFrame sk = Some h /\
       scheduled sk = [h] /\ events s sk = []) /\
  (exists s1 s2,
     requests n s = Ret tt s1 /\ animationFrame s1 = Ret tt s2 /\
     passes (events s1 s2) = 1%nat /\
     _renderAnimationFrame s2 = None /\ scheduled s2 = []) /\
  (forall s' h,
     _renderAnimationFrame s' = Some h -> _scheduleRender s' = Ret tt s').
Proof.
  intros Hn Hinv. split; [|split].
  - intros k [Hk _].
    destruct (requests_spec k s Hk Hinv)
      as (sk & h & Hr & _ & Hf & Hq & Ht & _).
    exists sk, h. repeat split; try assumption.
    apply events_app. now rewrite app_nil_r.
  - destruct (requests_spec n s Hn Hinv)
      as (s1 & h & Hr & _ & Hf & Hq & _).
    destruct (animationFrame_one s1 h Hq) as (s2 & Ha & Hp & Hf2 & Hq2).
    exists s1, s2. auto.
  - intros s' h. apply scheduleRender_pending.
Qed.


Lemma rendered_setup vd setup : Forall (setup_event vd) setup -> rendered setup = [].
Proof.
  induction 1 as [|ev setup Hev _ IH]; [reflexivity|].
  destruct Hev as [(a & b & c & ->)|[->|[->|[->| ->]]]]; exact IH.
Qed.

Lemma prepared_setup vd setup : Forall (setup_event vd) setup -> prepared setup = [].
Proof.
  induction 1 as [|ev setup Hev _ IH]; [reflexivity|].
  destruct Hev as [(a & b & c & ->)|[->|[->|[->| ->]]]]; exact IH.
Qed.


Lemma setup_no_phase vd setup :
  Forall (setup_event vd) setup ->
  forallb (fun ev => negb (is_prepare ev) && negb (is_commit ev)) setup = true.
Proof.
  induction 1 as [|ev setup Hev _ IH]; [reflexivity|].
  destruct Hev as [(a & b & c & ->)|[->|[->|[->| ->]]]]; exact IH.
Qed.





Lemma is_prepare_prepare_events ctx l :
  forallb is_prepare (List.map (fun p => EPrepareRender p ctx) l) = true.
Proof. induction l; simpl; auto. Qed.

Lemma is_commit_commit_events ctx l :
  forallb is_commit (commit_events ctx l) = true.
Proof. induction l; simpl; auto. Qed.

(** The commit stretch of a pass renders a first stretch of the collected
    list and consists of commit calls only. *)
Lemma commit_stretch ctx (dirty lc lc' : list Part) tail :
  dirty = lc ++ lc' ->
  (tail = [] \/ exists p r, lc' = p :: r /\ tail = [ERender p ctx]) ->
  forallb is_commit (commit_events ctx lc ++ tail) = true /\
  exists rest, dirty = rendered (commit_events ctx lc ++ tail) ++ rest.
Proof.
  intros -> Ht.
  rewrite forallb_app, is_commit_commit_events, rendered_app,
    rendered_commit_events.
  destruct Ht as [->|(p & r & -> & ->)]; cbn.
  - split; [reflexivity|]. exists lc'. now rewrite app_nil_r.
  - split; [reflexivity|]. exists r. now rewrite <- app_assoc.
Qed.



(** *** The pass, split at its loops *)

Lemma actualRender_split s : _actualRender s = pass_of_setup (pass_setup s).
Proof.
  unfold _actualRender, pass_setup, pass_of_setup, pass_loops, bind, update,
    gets, field, ret, invoke, _getViewPartsToRender.
  cbn [world add_event set_world contentWidgets viewParts].
  repeat match goal with
         | |- context [match ?x with _ => _ end] =>
             lazymatch x with
             | prepareLoop _ _ _ => fail
             | _ => destruct x eqn:?
             end
         | |- context [if ?b then _ else _] => destruct b eqn:?
         end; try reflexivity.
Qed.

Lemma lines_rendered_app tr1 tr2 :
  lines_rendered (tr1 ++ tr2) = lines_rendered tr1 || lines_rendered tr2.
Proof. apply existsb_app. Qed.

Lemma lines_rendered_prepare_events ctx l :
  lines_rendered (List.map (fun p => EPrepareRender p ctx) l) = false.
Proof. induction l; simpl; auto. Qed.

Lemma lines_rendered_commit_events ctx l :
  lines_rendered (commit_events ctx l) = false.
Proof. induction l; simpl; auto. Qed.





Lemma pass_setup_spec s : setup_post s (pass_setup s).
Proof.
  unfold pass_setup, bind, update, gets, field, ret.
  cbn [world add_event].
  destruct (isInDOM (world s)) eqn:Hdom; cbn [negb].
  2:{ unfold setup_post. cbn [state_of]. split; [repeat split|].
      split; [reflexivity|now left]. }
  rewrite getViewPartsToRender_spec. cbn [world add_event viewParts].
  set (l0 := dirtyParts (world s) (viewParts s)).
  destruct (negb (viewLines_shouldRender (world s)) && (length l0 =? 0)%nat)
    eqn:Hguard.
  { apply andb_true_iff in Hguard as [Hlines Hlen].
    apply negb_true_iff in Hlines.
    apply Nat.eqb_eq in Hlen. apply length_zero_iff_nil in Hlen.
    unfold setup_post. cbn [state_of]. split; [repeat split|].
    split; [reflexivity|]. right. auto. }
  assert (Hsome : something_to_render s).
  { unfold something_to_render. fold l0.
    destruct (viewLines_shouldRender (world s)); [now left|right].
    cbn in Hguard. apply Nat.eqb_neq in Hguard. intros Hl. apply Hguard.
    now rewrite Hl. }
  unfold invoke at 1. cbn [world add_event].
  set (pvd := getLinesViewportData (world s)).
  set (ev := ESetViewport (pvd_startLineNumber pvd) (pvd_endLineNumber pvd)
               (pvd_centeredLineNumber pvd)).
  destruct (setViewport (pvd_startLineNumber pvd) (pvd_endLineNumber pvd)
              (pvd_centeredLineNumber pvd) (world s)) as [[] w1|e w1] eqn:Hsv.
  2:{ unfold setup_post. cbn [state_of]. split; [repeat split|].
      split; [exact Hdom|]. split; [exact Hsome|].
      exists (pvd_startLineNumber pvd), (pvd_endLineNumber pvd),
        (pvd_centeredLineNumber pvd).
      left. split.
      - cbn [trace add_event set_world]. now rewrite <- app_assoc.
      - fold pvd. now rewrite Hsv. }
  cbn [world set_world add_event contentWidgets].
  set (vd := new_ViewportData (getViewSelections w1) pvd
               (getWhitespaceViewportData w1)).
  assert (Hfin : forall (pre : list Event) (w2 : World) (s4 : ViewState),
            Forall (setup_event vd) pre -> snapshots pre = [] ->
            lines_rendered pre = false ->
            world s4 = w2 -> viewParts s4 = viewParts s ->
            same_view s s4 ->
            trace s4 = trace s ++ EActualRender :: ev ::
                         ENewViewportData vd :: pre ->
            setup_post s
              match
                (if viewLines_shouldRender w2
                 then
                   fun s5 =>
                     match invoke (ERenderText vd) (viewLines_renderText vd) s5
                     with
                     | Ret _ s6 =>
                         match invoke ELinesDidRender viewLines_onDidRender s6
                         with
                         | Ret _ s7 => _getViewPartsToRender s7
                         | Throw e s7 => Throw e s7
                         end
                     | Throw e s6 => Throw e s6
                     end
                 else fun s5 => Ret l0 s5) s4
              with
              | Ret l s8 => Ret (Some (vd, l)) s8
              | Throw e s8 => Throw e s8
              end).
  { intros pre w2 s4 Hpre Hsn Hlr Hw Hparts Hsame Htr.
    destruct (viewLines_shouldRender w2) eqn:Hlines.
    - unfold invoke at 1. cbn [world add_event]. rewrite Hw.
      destruct (viewLines_renderText vd w2) as [[] w3|e w3].
      + unfold invoke at 1. cbn [world add_event set_world].
        destruct (viewLines_onDidRender w3) as [[] w4|e w4].
        * rewrite getViewPartsToRender_spec.
          unfold setup_post.
          cbn [state_of world set_world add_event viewParts].
          split.
          { destruct Hsame as (H1 & H2 & H3 & H4 & H5 & H6).
            repeat split; assumption. }
          exists (pvd_startLineNumber pvd), (pvd_endLineNumber pvd),
            (pvd_centeredLineNumber pvd),
            (pre ++ [ERenderText vd; ELinesDidRender]), w1.
          split.
          { cbn [trace add_event set_world]. rewrite Htr.
            rewrite <- !app_assoc. reflexivity. }
          split.
          { apply Forall_app. split; [exact Hpre|]. solve_setup. }
          split; [rewrite snapshots_app, Hsn; reflexivity|].
          split; [exact Hdom|]. split; [exact Hsome|].
          split; [exact Hsv|]. split; [reflexivity|].
          rewrite lines_rendered_app. cbn. rewrite orb_true_r.
          now rewrite Hparts.
        * unfold setup_post. cbn [state_of]. split.
          { destruct Hsame as (H1 & H2 & H3 & H4 & H5 & H6).
            repeat split; assumption. }
          split; [exact Hdom|]. split; [exact Hsome|].
          exists (pvd_startLineNumber pvd), (pvd_endLineNumber pvd),
            (pvd_centeredLineNumber pvd).
          right. exists vd, (pre ++ [ERenderText vd; ELinesDidRender]), w1.
          split.
          { cbn [trace add_event set_world]. rewrite Htr.
            rewrite <- !app_assoc. reflexivity. }
          split; [apply Forall_app; split; [exact Hpre|solve_setup]|].
          split; [rewrite snapshots_app, Hsn; reflexivity|].
          split; [exact Hsv|reflexivity].
      + unfold setup_post. cbn [state_of]. split.
        { destruct Hsame as (H1 & H2 & H3 & H4 & H5 & H6).
          repeat split; assumption. }
        split; [exact Hdom|]. split; [exact Hsome|].
        exists (pvd_startLineNumber pvd), (pvd_endLineNumber pvd),
          (pvd_centeredLineNumber pvd).
        right. exists vd, (pre ++ [ERenderText vd]), w1.
        split.
        { cbn [trace add_event set_world]. rewrite Htr.
          rewrite <- !app_assoc. reflexivity. }
        split; [apply Forall_app; split; [exact Hpre|solve_setup]|].
        split; [rewrite snapshots_app, Hsn; reflexivity|].
          split; [exact Hsv|reflexivity].
    - unfold setup_post. cbn [state_of]. split; [exact Hsame|].
      exists (pvd_startLineNumber pvd), (pvd_endLineNumber pvd),
        (pvd_centeredLineNumber pvd), pre, w1.
      split; [exact Htr|]. split; [exact Hpre|]. split; [exact Hsn|].
      split; [exact Hdom|]. split; [exact Hsome|].
      split; [exact Hsv|]. split; [reflexivity|].
      rewrite Hlr. reflexivity. }
  destruct (shouldRender (contentWidgets s) w1) eqn:Hcw.
  - unfold invoke at 1. cbn [world add_event set_world].
    destruct (onBeforeRender vd w1) as [[] w2|e w2].
    + cbn [world set_world].
      match goal with
      | |- context [(if viewLines_shouldRender w2 then _ else _) ?s4] =>
          apply (Hfin [EOnBeforeRender vd] w2 s4)
      end; try reflexivity.
      * solve_setup.
      * repeat split.
      * cbn [trace add_event set_world]. rewrite <- !app_assoc. reflexivity.
    + unfold setup_post. cbn [state_of]. split; [repeat split|].
      split; [exact Hdom|]. split; [exact Hsome|].
      exists (pvd_startLineNumber pvd), (pvd_endLineNumber pvd),
        (pvd_centeredLineNumber pvd).
      right. exists vd, [EOnBeforeRender vd], w1.
      split.
      { cbn [trace add_event set_world]. rewrite <- !app_assoc. reflexivity. }
      split; [solve_setup|]. split; [reflexivity|].
      split; [exact Hsv|reflexivity].
  - cbn [world set_world add_event].
    match goal with
    | |- context [(if viewLines_shouldRender w1 then _ else _) ?s4] =>
        apply (Hfin [] w1 s4)
    end; try reflexivity.
    * constructor.
    * repeat split.
    * cbn [trace add_event set_world]. rewrite <- !app_assoc. reflexivity.
Qed.

(** The whole pass, read from its trace. *)
Lemma pass_run s :
  match pass_setup s with
  | Ret (Some (vd, l)) s1 =>
      exists a b c more w1 lp lp' lc lc' tail,
        events s (state_of (_actualRender s)) =
          (EActualRender :: ESetViewport a b c :: ENewViewportData vd :: more) ++
          List.map (fun p => EPrepareRender p (new_RenderingContext vd)) lp ++
          commit_events (new_RenderingContext vd) lc ++ tail /\
        events s s1 =
          EActualRender :: ESetViewport a b c :: ENewViewportData vd :: more /\
        Forall (setup_event vd) more /\ snapshots more = [] /\
        isInDOM (world s) = true /\ something_to_render s /\
        setViewport (pvd_startLineNumber (getLinesViewportData (world s)))
          (pvd_endLineNumber (getLinesViewportData (world s)))
          (pvd_centeredLineNumber (getLinesViewportData (world s)))
          (world s) = Ret tt w1 /\
        vd = new_ViewportData (getViewSelections w1)
               (getLinesViewportData (world s))
               (getWhitespaceViewportData w1) /\
        l = dirtyParts (if lines_rendered more then world s1 else world s)
              (viewParts s) /\
        l = lp ++ lp' /\ l = lc ++ lc' /\
        (tail = [] \/
         exists p r, lc' = p :: r /\
                     tail = [ERender p (new_RenderingContext vd)]) /\
        ((lc = [] /\ tail = []) \/ lp' = []) /\
        (is_ret (_actualRender s) = true ->
         lp' = [] /\ lc' = [] /\ tail = [])
  | Ret None s1 =>
      _actualRender s = Ret tt (add_event EActualRender s) /\
      (isInDOM (world s) = false \/
       (isInDOM (world s) = true /\ viewLines_shouldRender (world s) = false /\
        dirtyParts (world s) (viewParts s) = []))
  | Throw e s1 =>
      _actualRender s = Throw e s1 /\
      isInDOM (world s) = true /\ something_to_render s /\
      exists a b c,
        (events s s1 = [EActualRender; ESetViewport a b c] /\
         is_ret (setViewport
                   (pvd_startLineNumber (getLinesViewportData (world s)))
                   (pvd_endLineNumber (getLinesViewportData (world s)))
                   (pvd_centeredLineNumber (getLinesViewportData (world s)))
                   (world s)) = false) \/
        (exists vd more w1,
           events s s1 =
             EActualRender :: ESetViewport a b c :: ENewViewportData vd :: more /\
           Forall (setup_event vd) more /\ snapshots more = [] /\
           setViewport (pvd_startLineNumber (getLinesViewportData (world s)))
             (pvd_endLineNumber (getLinesViewportData (world s)))
             (pvd_centeredLineNumber (getLinesViewportData (world s)))
             (world s) = Ret tt w1 /\
           vd = new_ViewportData (getViewSelections w1)
                  (getLinesViewportData (world s))
                  (getWhitespaceViewportData w1))
  end.
Proof.
  rewrite actualRender_split.
  destruct (pass_setup_spec s) as [_ Hpost].
  destruct (pass_setup s) as [[[vd l]|] s1|e s1]; cbn [pass_of_setup].
  - destruct Hpost as (a & b & c & more & w1 & Htr & Hmore & Hsn & Hdom
                       & Hsome & Hsv & Hvd & Hl).
    destruct (pass_loops_shape (new_RenderingContext vd) l s1)
      as [lp lp' lc lc' tail _ Htr2 Hlp Hlc Ht Hph Hdone].
    exists a, b, c, more, w1, lp, lp', lc, lc', tail.
    split.
    { apply events_app. rewrite Htr2, Htr. now rewrite <- app_assoc. }
    split; [now apply events_app|].
    auto 15.
  - destruct Hpost as [-> Hguard]. split; [reflexivity|exact Hguard].
  - destruct Hpost as (Hdom & Hsome & a & b & c & Hcase).
    split; [reflexivity|]. split; [exact Hdom|]. split; [exact Hsome|].
    exists a, b, c.
    destruct Hcase as [[Htr Hsv]|(vd & more & w1 & Htr & Hrest)].
    + left. split; [now apply events_app|exact Hsv].
    + right. exists vd, more, w1. split; [now apply events_app|exact Hrest].
Qed.

(** C3.  A pass that reaches its loops with the list [l] of parts ([l] is
    the list of the parts that were dirty at the start of the pass, or,
    when the view lines were rendered, of the parts dirty on reaching the
    loops) makes its calls in three stretches: calls that are neither
    [prepareRender] nor a commit, then [prepareRender] on a first stretch
    [lp] of [l], then commits ([render] and [onDidRender]) only, on a first
    stretch of [l].  As soon as one commit was made, [lp] is all of [l]:
    every dirty part was prepared before any was committed, and no prepare
    follows a commit.  When the pass returns, both stretches are all of
    [l]: it called [prepareRender] on every part of [l], in order, and then
    [render] and [onDidRender] on every part of [l], in order.  A pass that
    does not reach its loops calls no part. *)
Theorem two_phase_render_order (s : ViewState) :
  match pass_setup s with
  | Ret (Some (vd, l)) s1 =>
      l = dirtyParts
            (if lines_rendered (events s s1) then world s1 else world s)
            (viewParts s) /\
      exists (before commits : list Event) (lp lp' rest : list Part),
        events s (state_of (_actualRender s)) =
          before ++
          List.map (fun p => EPrepareRender p (new_RenderingContext vd)) lp ++
          commits /\
        forallb (fun ev => negb (is_prepare ev) && negb (is_commit ev)) before
          = true /\
        forallb is_commit commits = true /\
        l = lp ++ lp' /\
        l = rendered commits ++ rest /\
        (commits <> [] -> lp' = []) /\
        (is_ret (_actualRender s) = true ->
         lp = l /\ commits = commit_events (new_RenderingContext vd) l)
  | _ =>
      prepared (events s (state_of (_actualRender s))) = [] /\
      rendered (events s (state_of (_actualRender s))) = []
  end.
Proof.
  pose proof (pass_run s) as Hrun.
  destruct (pass_setup s) as [[[vd l]|] s1|e s1].
  - destruct Hrun as (a & b & c & more & w1 & lp & lp' & lc & lc' & tail
                      & Hev & Hev1 & Hmore & _ & _ & _ & _ & _ & Hl & Hlp
                      & Hlc & Ht & Hph & Hdone).
    split; [rewrite Hev1; exact Hl|].
    destruct (commit_stretch (new_RenderingContext vd) l lc lc' tail Hlc Ht)
      as [Hc [rest Hrest]].
    exists (EActualRender :: ESetViewport a b c :: ENewViewportData vd :: more),
      (commit_events (new_RenderingContext vd) lc ++ tail), lp, lp', rest.
    split; [exact Hev|].
    split; [cbn; now apply (setup_no_phase vd)|].
    split; [exact Hc|]. split; [exact Hlp|]. split; [exact Hrest|].
    split.
    + intros Hne. destruct Hph as [[-> ->]|Hp]; [now elim Hne|exact Hp].
    + intros Hret. destruct (Hdone Hret) as (-> & -> & ->).
      rewrite !app_nil_r in *. now subst.
  - destruct Hrun as [-> _]. cbn [state_of].
    rewrite (events_app s (add_event EActualRender s) [EActualRender])
      by reflexivity.
    split; reflexivity.
  - destruct Hrun as (-> & _ & _ & a & b & c & Hcase). cbn [state_of].
    destruct Hcase as [[-> _]|(vd & more & w1 & -> & Hmore & _)];
      [split; reflexivity|].
    cbn [prepared rendered].
    now rewrite (prepared_setup vd more Hmore), (rendered_setup vd more Hmore).
Qed.

(** A flush of an attached view that reports no error ran its pass to the
    end: every part collected in [w] was prepared and then rendered, in the
    order of [viewParts]. *)
Lemma flush_complete s :
  isInDOM (world s) = true ->
  reports (events s (state_of (_renderNow s))) = [] ->
  exists w,
    setup_reach (world s) w /\
    prepared (events s (state_of (_renderNow s))) = dirtyParts w (viewParts s) /\
    rendered (events s (state_of (_renderNow s))) = dirtyParts w (viewParts s) /\
    ((forall vd, ~ In (ERenderText vd) (events s (state_of (_renderNow s)))) ->
     w = world s).
Proof.
  intros Hdom. rewrite renderNow_eq.
  pose proof (pass_shape s) as Hshape.
  destruct (actualRender_counts s) as [_ Hrep].
  pose proof (actualRender_trace_grows s) as Hlen.
  destruct (_actualRender s) as [[] s1|e s1]; cbn [state_of] in *.
  - intros _.
    destruct Hshape
      as [w vd setup lp lp' lc lc' tail _ Htr Hsetup _ Hlp Hlc _ _ Hreach
            Hfresh Hdone _].
    destruct (Hdone eq_refl Hdom) as (-> & -> & ->).
    rewrite app_nil_r in Hlp, Hlc. subst lc.
    cbn [state_of] in Htr.
    rewrite (events_app _ _ _ Htr).
    exists w. split; [exact Hreach|].
    change (EActualRender :: ?l) with ([EActualRender] ++ l).
    rewrite !prepared_app, !rendered_app.
    rewrite (prepared_setup vd setup Hsetup), (rendered_setup vd setup Hsetup),
      prepared_prepare_events, rendered_prepare_events,
      prepared_commit_events, rendered_commit_events.
    cbn. rewrite !app_nil_r. repeat split; auto.
    intros Hno. apply Hfresh. intros vd' Hin. apply (Hno vd').
    right. apply in_or_app. now left.
  - rewrite events_add_event by assumption.
    rewrite reports_app, Hrep. discriminate.
Qed.

Lemma flush_events s :
  events s (state_of (_renderNow s)) =
    events s (state_of (_actualRender s)) ++
    match _actualRender s with
    | Ret _ _ => []
    | Throw e _ => [EUnexpectedError e]
    end.
Proof.
  rewrite renderNow_eq. pose proof (actualRender_trace_grows s) as Hlen.
  destruct (_actualRender s) as [[] s1|e s1]; cbn [state_of] in *.
  - now rewrite app_nil_r.
  - now apply events_add_event.
Qed.

Lemma lines_rendered_false tr :
  (forall vd, ~ In (ERenderText vd) tr) -> lines_rendered tr = false.
Proof.
  intros Hno. unfold lines_rendered.
  destruct (existsb _ tr) eqn:Hex; [|reflexivity].
  apply existsb_exists in Hex as (ev & Hin & Hev).
  destruct ev; try discriminate. now elim (Hno viewportData).
Qed.

(** C4, as the code has it.  [_getViewPartsToRender] returns the parts whose
    [shouldRender()] holds, in the order of [viewParts].  A flush of a view
    that is not in the DOM calls no part.  When the view is in the DOM and
    the flush reports no error, [prepareRender] and [render] were called on
    exactly the parts of the list the pass reached its loops with, in that
    order: the parts that were dirty at the start of the flush when the
    view lines were not rendered in it, and the parts that were dirty right
    after [viewLines.renderText] and [viewLines.onDidRender] when they
    were. *)
Theorem flush_renders_dirty_parts_in_order (s : ViewState) :
  _getViewPartsToRender s = Ret (dirtyParts (world s) (viewParts s)) s /\
  (isInDOM (world s) = false ->
   prepared (events s (state_of (_flushAccumulatedAndRenderNow s))) = [] /\
   rendered (events s (state_of (_flushAccumulatedAndRenderNow s))) = []) /\
  (isInDOM (world s) = true ->
   reports (events s (state_of (_flushAccumulatedAndRenderNow s))) = [] ->
   match pass_setup s with
   | Ret (Some (vd, l)) s1 =>
       prepared (events s (state_of (_flushAccumulatedAndRenderNow s))) = l /\
       rendered (events s (state_of (_flushAccumulatedAndRenderNow s))) = l /\
       l = dirtyParts
             (if lines_rendered
                   (events s (state_of (_flushAccumulatedAndRenderNow s)))
              then world s1 else world s)
             (viewParts s)
   | _ =>
       prepared (events s (state_of (_flushAccumulatedAndRenderNow s))) = [] /\
       rendered (events s (state_of (_flushAccumulatedAndRenderNow s))) = [] /\
       dirtyParts (world s) (viewParts s) = []
   end) /\
  (isInDOM (world s) = true ->
   reports (events s (state_of (_flushAccumulatedAndRenderNow s))) = [] ->
   (forall vd,
      ~ In (ERenderText vd)
          (events s (state_of (_flushAccumulatedAndRenderNow s)))) ->
   rendered (events s (state_of (_flushAccumulatedAndRenderNow s)))
     = dirtyParts (world s) (viewParts s)).
Proof.
  unfold _flushAccumulatedAndRenderNow.
  split; [apply getViewPartsToRender_spec|].
  rewrite flush_events.
  pose proof (pass_run s) as Hrun.
  assert (Hmain :
    isInDOM (world s) = true ->
    reports (events s (state_of (_actualRender s)) ++
             match _actualRender s with
             | Ret _ _ => []
             | Throw e _ => [EUnexpectedError e]
             end) = [] ->
    match pass_setup s with
    | Ret (Some (vd, l)) s1 =>
        prepared (events s (state_of (_actualRender s)) ++
                  match _actualRender s with
                  | Ret _ _ => []
                  | Throw e _ => [EUnexpectedError e]
                  end) = l /\
        rendered (events s (state_of (_actualRender s)) ++
                  match _actualRender s with
                  | Ret _ _ => []
                  | Throw e _ => [EUnexpectedError e]
                  end) = l /\
        l = dirtyParts
              (if lines_rendered
                    (events s (state_of (_actualRender s)) ++
                     match _actualRender s with
                     | Ret _ _ => []
                     | Throw e _ => [EUnexpectedError e]
                     end)
               then world s1 else world s)
              (viewParts s)
    | _ =>
        prepared (events s (state_of (_actualRender s)) ++
                  match _actualRender s with
                  | Ret _ _ => []
                  | Throw e _ => [EUnexpectedError e]
                  end) = [] /\
        rendered (events s (state_of (_actualRender s)) ++
                  match _actualRender s with
                  | Ret _ _ => []
                  | Throw e _ => [EUnexpectedError e]
                  end) = [] /\
        dirtyParts (world s) (viewParts s) = []
    end).
  { intros Hdom.
    destruct (pass_setup s) as [[[vd l]|] s1|e s1].
    - destruct Hrun as (a & b & c & more & w1 & lp & lp' & lc & lc' & tail
                        & Hev & _ & Hmore & _ & _ & _ & _ & _ & Hl & Hlp
                        & Hlc & _ & _ & Hdone).
      destruct (_actualRender s) as [[] s2|e s2]; cbn [state_of] in *.
      + intros _. destruct (Hdone eq_refl) as (-> & -> & ->).
        rewrite !app_nil_r in *. subst lp lc. rewrite Hev.
        change (EActualRender :: ESetViewport a b c :: ENewViewportData vd :: ?m)
          with ([EActualRender; ESetViewport a b c; ENewViewportData vd] ++ m).
        rewrite !prepared_app, !rendered_app, !lines_rendered_app,
          (prepared_setup vd more Hmore), (rendered_setup vd more Hmore),
          prepared_prepare_events, rendered_prepare_events,
          prepared_commit_events, rendered_commit_events,
          lines_rendered_prepare_events, lines_rendered_commit_events.
        cbn [prepared rendered lines_rendered existsb app orb].
        rewrite !app_nil_r, !orb_false_r. auto.
      + rewrite reports_app. cbn [reports]. intros Habs.
        apply app_eq_nil in Habs as [_ Habs]. discriminate Habs.
    - destruct Hrun as [-> [Hd|(_ & _ & Hnil)]]; [congruence|].
      cbn [state_of]. intros _.
      rewrite (events_app s (add_event EActualRender s) [EActualRender])
        by reflexivity.
      auto.
    - destruct Hrun as (-> & _). cbn [state_of].
      rewrite reports_app. cbn [reports]. intros Habs.
      apply app_eq_nil in Habs as [_ Habs]. discriminate Habs. }
  split; [|split; [exact Hmain|]].
  - intros Hdom. clear Hmain.
    destruct (pass_setup s) as [[[vd l]|] s1|e s1].
    + destruct Hrun as (a & b & c & more & w1 & lp & lp' & lc & lc' & tail
                        & _ & _ & _ & _ & Habs & _). congruence.
    + destruct Hrun as [-> _]. cbn [state_of].
      rewrite (events_app s (add_event EActualRender s) [EActualRender])
        by reflexivity.
      auto.
    + destruct Hrun as (_ & Habs & _). congruence.
  - intros Hdom Hrep Hno. specialize (Hmain Hdom Hrep).
    rewrite (lines_rendered_false _ Hno) in Hmain.
    destruct (pass_setup s) as [[[vd l]|] s1|e s1].
    + destruct Hmain as (_ & -> & ->). reflexivity.
    + destruct Hmain as (_ & -> & ->). reflexivity.
    + destruct Hmain as (_ & -> & ->). reflexivity.
Qed.

Lemma forceLoop_keeps (Hc : PartContract) parts p w :
  shouldRender p w = true -> shouldRender p (forceLoop parts w) = true.
Proof.
  revert w. induction parts as [|q parts IH]; intros w Hp; [exact Hp|].
  cbn. apply IH. now apply (force_keeps Hc).
Qed.

Lemma forceLoop_sets (Hc : PartContract) parts p w :
  In p parts -> shouldRender p (forceLoop parts w) = true.
Proof.
  revert w. induction parts as [|q parts IH]; intros w Hin; [destruct Hin|].
  cbn. destruct Hin as [->|Hin].
  - apply forceLoop_keeps; [exact Hc|]. apply (force_sets Hc).
  - now apply IH.
Qed.

Lemma setup_reach_keeps (Hc : PartContract) w w' p :
  setup_reach w w' -> shouldRender p w = true -> shouldRender p w' = true.
Proof.
  induction 1 as [w|a b c w w1 w2 Hs _ IH|vd w w1 w2 Hs _ IH
                  |vd w w1 w2 Hs _ IH|w w1 w2 Hs _ IH]; intros Hp.
  - exact Hp.
  - apply IH. exact (setViewport_keeps Hc a b c p w w1 Hp Hs).
  - apply IH. exact (onBeforeRender_keeps Hc vd p w w1 Hp Hs).
  - apply IH. exact (renderText_keeps Hc vd p w w1 Hp Hs).
  - apply IH. exact (linesDidRender_keeps Hc p w w1 Hp Hs).
Qed.

Lemma dirtyParts_all w parts :
  (forall p, In p parts -> shouldRender p w = true) ->
  dirtyParts w parts = parts.
Proof.
  unfold dirtyParts. induction parts as [|p parts IH]; intros Hall;
    [reflexivity|].
  cbn. rewrite (Hall p) by now left.
  f_equal. apply IH. intros q Hq. apply Hall. now right.
Qed.




(** ** [View.change] *)

Lemma CallbackStep_refl s : CallbackStep s s.
Proof.
  exists []. rewrite app_nil_r, orb_false_r. repeat split.
Qed.

Lemma CallbackStep_trans s1 s2 s3 :
  CallbackStep s1 s2 -> CallbackStep s2 s3 -> CallbackStep s1 s3.
Proof.
  intros (n1 & Ht1 & Hz1 & Hf1 & ? & ? & ? & ? & ?)
         (n2 & Ht2 & Hz2 & Hf2 & ? & ? & ? & ? & ?).
  exists (n1 ++ n2).
  rewrite Ht2, Ht1, <- app_assoc, forallb_app, Hz1, Hz2, Hf2, Hf1,
    existsb_app, orb_assoc.
  repeat split; congruence.
Qed.

Lemma accessor_addZone_step zone s :
  CallbackStep s (state_of (accessor_addZone zone s)).
Proof.
  unfold accessor_addZone, bind, update, invoke, ret.
  cbn [world add_event set_zonesHaveChanged].
  destruct (viewZones_addZone zone (world s)) as [id w|e w]; cbn [state_of].
  - exists [EAddZone zone; EAddZoneReturned id]. cbn.
    rewrite <- app_assoc, orb_true_r. repeat split.
  - exists [EAddZone zone]. cbn. rewrite orb_true_r. repeat split.
Qed.

Lemma accessor_removeZone_step id s :
  CallbackStep s (state_of (accessor_removeZone id s)).
Proof.
  unfold accessor_removeZone.
  destruct (id =? 0)%Z; [apply CallbackStep_refl|].
  unfold bind, update, invoke.
  cbn [world add_event set_zonesHaveChanged].
  destruct (viewZones_removeZone id (world s)) as [c w|e w]; cbn [state_of].
  - exists [ERemoveZone id; ERemoveZoneReturned id c]. cbn.
    rewrite <- app_assoc, orb_false_r, orb_comm. repeat split.
  - exists [ERemoveZone id]. cbn. rewrite orb_false_r. repeat split.
Qed.

Lemma accessor_layoutZone_step id s :
  CallbackStep s (state_of (accessor_layoutZone id s)).
Proof.
  unfold accessor_layoutZone.
  destruct (id =? 0)%Z; [apply CallbackStep_refl|].
  unfold bind, update, invoke.
  cbn [world add_event set_zonesHaveChanged].
  destruct (viewZones_layoutZone id (world s)) as [c w|e w]; cbn [state_of].
  - exists [ELayoutZone id; ELayoutZoneReturned id c]. cbn.
    rewrite <- app_assoc, orb_false_r, orb_comm. repeat split.
  - exists [ELayoutZone id]. cbn. rewrite orb_false_r. repeat split.
Qed.

Lemma runCallback_step callback s :
  CallbackStep s (state_of (runCallback callback s)).
Proof.
  revert s.
  induction callback as [|e|zone k IH|id k IH|id k IH]; intros s;
    cbn [runCallback].
  - apply CallbackStep_refl.
  - apply CallbackStep_refl.
  - pose proof (accessor_addZone_step zone s) as Hstep.
    destruct (accessor_addZone zone s) as [r s1|e s1]; cbn [state_of] in Hstep;
      (eapply CallbackStep_trans; [exact Hstep|apply IH]).
  - pose proof (accessor_removeZone_step id s) as Hstep.
    destruct (accessor_removeZone id s) as [r s1|e s1];
      cbn [state_of] in Hstep;
      (eapply CallbackStep_trans; [exact Hstep|apply IH]).
  - pose proof (accessor_layoutZone_step id s) as Hstep.
    destruct (accessor_layoutZone id s) as [r s1|e s1];
      cbn [state_of] in Hstep;
      (eapply CallbackStep_trans; [exact Hstep|apply IH]).
Qed.

Lemma scheduleRender_total s :
  exists s',
    _scheduleRender s = Ret tt s' /\ trace s' = trace s /\
    zonesHaveChanged s' = zonesHaveChanged s.
Proof.
  destruct (_renderAnimationFrame s) as [h|] eqn:Hf.
  - rewrite (scheduleRender_pending s h Hf). eauto.
  - rewrite (scheduleRender_idle s Hf). eexists. split; [reflexivity|].
    split; reflexivity.
Qed.




(** What [change] leaves behind, in terms of the calls the callback made. *)
Lemma change_spec callback s :
  exists s' calls rest,
    change callback s = Ret (existsb sets_flag calls) s' /\
    events s s' = calls ++ rest /\
    forallb is_zone_call calls = true /\
    existsb sets_flag rest = false /\
    (existsb sets_flag calls = false ->
       heightNotifications rest = 0%nat /\ zonesChangedEvents rest = 0%nat) /\
    (existsb sets_flag calls = true ->
       heightNotifications rest = 1%nat /\
       (zonesChangedEvents rest <= 1)%nat /\
       ((forall w, is_ret (onHeightMaybeChanged w) = true) ->
        zonesChangedEvents rest = 1%nat)).
Proof.
  unfold change, _renderOnce, safeInvokeNoArg, safeInvoke1Arg, try_catch.
  unfold bind at 1. unfold update at 1.
  set (s0 := set_zonesHaveChanged false s).
  destruct (runCallback_step callback s0)
    as (calls & Htr & Hz & Hflag & _).
  cbn [zonesHaveChanged set_zonesHaveChanged s0 orb] in Hflag.
  cbn [trace set_zonesHaveChanged s0] in Htr.
  unfold bind, ret, onUnexpectedError, update, field.
  destruct (runCallback callback s0) as [[] s1|e s1]; cbn [state_of] in *.
  - cbn [zonesHaveChanged]. rewrite Hflag.
    destruct (existsb sets_flag calls) eqn:Hany.
    + unfold invoke at 1.
      destruct (onHeightMaybeChanged (world (add_event EHeightMaybeChanged s1)))
        as [[] w2|e2 w2] eqn:Hh.
      * unfold invoke at 1. cbn [world add_event set_world].
        destruct (emit_ViewZonesChangedEvent w2) as [[] w3|e3 w3];
          match goal with
          | |- context [_scheduleRender ?sx] =>
              destruct (scheduleRender_total sx) as (s' & -> & Ht' & Hf')
          end;
          cbn [trace zonesHaveChanged add_event set_world] in Ht', Hf';
          rewrite Hf', Hflag;
          eexists s', calls, _; rewrite Hany;
          (split; [reflexivity|]);
          (split; [apply events_app; rewrite Ht', Htr, <- !app_assoc;
                   reflexivity|]);
          cbn; repeat split; auto; try discriminate; try lia.
      * match goal with
        | |- context [_scheduleRender ?sx] =>
            destruct (scheduleRender_total sx) as (s' & -> & Ht' & Hf')
        end.
        cbn [trace zonesHaveChanged add_event set_world] in Ht', Hf'.
        rewrite Hf', Hflag.
        eexists s', calls, _. rewrite Hany.
        split; [reflexivity|].
        split; [apply events_app; rewrite Ht', Htr, <- !app_assoc;
                reflexivity|].
        cbn. repeat split; auto; try discriminate; try lia.
        intros Hall. specialize (Hall (world s1)).
        cbn [world add_event] in Hh. rewrite Hh in Hall. discriminate.
    + match goal with
      | |- context [_scheduleRender ?sx] =>
          destruct (scheduleRender_total sx) as (s' & -> & Ht' & Hf')
      end.
      rewrite Hf', Hflag.
      exists s', calls, []. rewrite Hany. split; [reflexivity|].
      split; [apply events_app; rewrite Ht', Htr, app_nil_r; reflexivity|].
      cbn. repeat split; auto; try discriminate; try lia.
  - cbn [zonesHaveChanged add_event]. rewrite Hflag.
    destruct (existsb sets_flag calls) eqn:Hany.
    + unfold invoke at 1.
      destruct (onHeightMaybeChanged
                  (world (add_event EHeightMaybeChanged
                            (add_event (EUnexpectedError e) s1))))
        as [[] w2|e2 w2] eqn:Hh.
      * unfold invoke at 1. cbn [world add_event set_world].
        destruct (emit_ViewZonesChangedEvent w2) as [[] w3|e3 w3];
          match goal with
          | |- context [_scheduleRender ?sx] =>
              destruct (scheduleRender_total sx) as (s' & -> & Ht' & Hf')
          end;
          cbn [trace zonesHaveChanged add_event set_world] in Ht', Hf';
          rewrite Hf', Hflag;
          eexists s', calls, _; rewrite Hany;
          (split; [reflexivity|]);
          (split; [apply events_app; rewrite Ht', Htr, <- !app_assoc;
                   reflexivity|]);
          cbn; repeat split; auto; try discriminate; try lia.
      * match goal with
        | |- context [_scheduleRender ?sx] =>
            destruct (scheduleRender_total sx) as (s' & -> & Ht' & Hf')
        end.
        cbn [trace zonesHaveChanged add_event set_world] in Ht', Hf'.
        rewrite Hf', Hflag.
        eexists s', calls, _. rewrite Hany.
        split; [reflexivity|].
        split; [apply events_app; rewrite Ht', Htr, <- !app_assoc;
                reflexivity|].
        cbn. repeat split; auto; try discriminate; try lia.
        intros Hall. specialize (Hall (world s1)).
        cbn [world add_event] in Hh. rewrite Hh in Hall. discriminate.
    + match goal with
      | |- context [_scheduleRender ?sx] =>
          destruct (scheduleRender_total sx) as (s' & -> & Ht' & Hf')
      end.
      cbn [trace zonesHaveChanged add_event set_world] in Ht', Hf'.
      rewrite Hf', Hflag.
      eexists s', calls, _. rewrite Hany. split; [reflexivity|].
      split; [apply events_app; rewrite Ht', Htr, <- !app_assoc;
              reflexivity|].
      cbn. repeat split; auto; try discriminate; try lia.
Qed.

(** [change] keeps the scheduler's invariant as well. *)
Lemma change_sched_inv callback s :
  sched_inv s -> sched_inv (state_of (change callback s)).
Proof.
  intros Hinv.
  unfold change, _renderOnce, safeInvokeNoArg, safeInvoke1Arg, try_catch.
  unfold bind at 1. unfold update at 1.
  set (s0 := set_zonesHaveChanged false s).
  destruct (runCallback_step callback s0)
    as (calls & _ & _ & _ & _ & _ & Hf & Hq & _).
  cbn [_renderAnimationFrame scheduled set_zonesHaveChanged s0] in Hf, Hq.
  assert (Hfin : forall sx,
            _renderAnimationFrame sx = _renderAnimationFrame s ->
            scheduled sx = scheduled s ->
            sched_inv (state_of (_scheduleRender sx))).
  { intros sx Hfx Hqx.
    assert (Hx : sched_inv sx) by (unfold sched_inv in *; now rewrite Hfx, Hqx).
    destruct (scheduleRender_spec sx Hx) as (s1 & h & -> & H1 & _). exact H1. }
  unfold bind, ret, onUnexpectedError, update, field, invoke.
  destruct (runCallback callback s0) as [[] s1|e s1]; cbn [state_of] in *;
    cbn [zonesHaveChanged add_event world];
    destruct (zonesHaveChanged s1);
    cbn [world set_world add_event];
    try destruct (onHeightMaybeChanged (world s1)) as [[] w2|e2 w2];
    cbn [world set_world add_event];
    try destruct (emit_ViewZonesChangedEvent w2) as [[] w3|e3 w3];
    match goal with
    | |- context [_scheduleRender ?sx] =>
        specialize (Hfin sx Hf Hq);
        destruct (_scheduleRender sx); exact Hfin
    end.
Qed.










End ViewFacts.

(** ** The concrete editor: witnesses and counterexamples *)

Lemma demo_contract : @PartContract demo.
Proof.
  constructor.
  - intros [] w; reflexivity.
  - intros [] [] w; cbn; auto.
  - intros a b c p w w' Hp Heq. cbn in Heq. injection Heq as <-. exact Hp.
  - intros vd p w w' Hp Heq. cbn in Heq. injection Heq as <-. exact Hp.
  - intros vd p w w' Hp Heq. cbn in Heq.
    destruct (fault w) as [[]|]; injection Heq as <-; try exact Hp.
    destruct p; cbn in *; auto.
  - intros p w w' Hp Heq. cbn in Heq. injection Heq as <-.
    destruct p; exact Hp.
Qed.

Section Demo.
#[local] Existing Instance demo.

(** Two requests before the host fires: one pass. *)
Lemma render_requests_coalesce_witness :
  (1 <= 2)%nat /\ sched_inv (demo_view demo_only_B) /\
  exists s1 s2,
    requests 2 (demo_view demo_only_B) = Ret tt s1 /\
    animationFrame s1 = Ret tt s2 /\ passes (events s1 s2) = 1%nat.
Proof.
  split; [lia|]. split; [reflexivity|].
  destruct (render_requests_coalesce 2 (demo_view demo_only_B)
              ltac:(lia) eq_refl)
    as (_ & (s1 & s2 & H1 & H2 & H3 & _) & _).
  exists s1, s2. auto.
Defined.


(** The scenario of the spec: A, B, C registered, only B dirty, view
    attached: B alone is rendered.  And the same with the view lines dirty
    and a scroll while they are rendered: the pass collects again and
    renders A and B. *)
Lemma flush_renders_dirty_parts_in_order_witness :
  isInDOM (world (demo_view demo_only_B)) = true /\
  reports (events (demo_view demo_only_B)
             (state_of (_flushAccumulatedAndRenderNow (demo_view demo_only_B))))
    = [] /\
  rendered (events (demo_view demo_only_B)
              (state_of (_flushAccumulatedAndRenderNow (demo_view demo_only_B))))
    = [PartB] /\
  dirtyParts (world (demo_view (demo_faulty FaultScroll
                                  (demo_set_lines true demo_only_B))))
    [PartA; PartB; PartC] = [PartB] /\
  rendered (events (demo_view (demo_faulty FaultScroll
                                 (demo_set_lines true demo_only_B)))
              (state_of (_flushAccumulatedAndRenderNow
                           (demo_view (demo_faulty FaultScroll
                                         (demo_set_lines true demo_only_B))))))
    = [PartA; PartB].
Proof.
  split; [reflexivity|]. split; [vm_compute; reflexivity|].
  destruct (flush_renders_dirty_parts_in_order (demo_view demo_only_B))
    as (_ & _ & _ & Hfresh).
  split.
  { rewrite Hfresh; [reflexivity|reflexivity|vm_compute; reflexivity|].
    intros vd Hin. vm_compute in Hin.
    repeat (destruct Hin as [Hin|Hin]; [discriminate|]). exact Hin. }
  split; [reflexivity|].
  destruct (flush_renders_dirty_parts_in_order
              (demo_view (demo_faulty FaultScroll
                            (demo_set_lines true demo_only_B))))
    as (_ & _ & Hmain & _).
  exact (proj1 (proj2 (Hmain eq_refl ltac:(vm_compute; reflexivity)))).
Defined.

(** C4, counterexample: the same scenario on a view that is not in the DOM;
    B is dirty and the flush renders nothing. *)
Lemma detached_flush_renders_nothing :
  dirtyParts (world (demo_view (demo_detached demo_only_B)))
    (viewParts (demo_view (demo_detached demo_only_B))) = [PartB] /\
  rendered (events (demo_view (demo_detached demo_only_B))
              (state_of (_flushAccumulatedAndRenderNow
                           (demo_view (demo_detached demo_only_B)))))
    <> [PartB].
Proof. split; [reflexivity|]. vm_compute. discriminate. Qed.








End Demo.

(* ===================================================================== *)
(** * Part III: further properties of the code *)
(* ===================================================================== *)

(** ** Markers *)

(** X1.  [MarkerSeverity.compare] is a comparator that puts the more severe
    value first: it is negative exactly when the first argument is the more
    severe one, zero exactly on equal arguments, antisymmetric and
    transitive. *)
Theorem severity_compare_sorts_most_severe_first (a b c : MarkerSeverity.t) :
  (MarkerSeverity.compare a b < 0 <->
     MarkerSeverity.value b < MarkerSeverity.value a)%Z /\
  (MarkerSeverity.compare a b = 0%Z <-> a = b) /\
  MarkerSeverity.compare b a = (- MarkerSeverity.compare a b)%Z /\
  (MarkerSeverity.compare a b < 0 -> MarkerSeverity.compare b c < 0 ->
   MarkerSeverity.compare a c < 0)%Z /\
  (MarkerSeverity.compare MarkerSeverity.Error MarkerSeverity.Warning < 0 /\
   MarkerSeverity.compare MarkerSeverity.Warning MarkerSeverity.Info < 0 /\
   MarkerSeverity.compare MarkerSeverity.Info MarkerSeverity.Hint < 0)%Z.
Proof.
  unfold MarkerSeverity.compare.
  split; [lia|]. split; [|split; [lia|split; [lia|cbn; lia]]].
  split; [|intros ->; lia].
  destruct a, b; cbn; intros E; try reflexivity; lia.
Qed.

Section MarkerKeyCollisions.
Context `{Nls}.

Lemma replace_same c s : replace c [c] s = s.
Proof.
  induction s as [|d s IH]; [reflexivity|].
  cbn. destruct (N.eqb_spec d c) as [->|_]; [reflexivity|].
  now rewrite IH.
Qed.

Lemma push_string_some result s : push_string result (Some s) = result ++ [s].
Proof.
  unfold push_string, truthy, emptyString.
  destruct s; [reflexivity|]. now rewrite replace_same.
Qed.

Lemma push_string_key result o : push_string result o = result ++ [key_string o].
Proof. destruct o; [apply push_string_some|reflexivity]. Qed.

(** The key is the list of the eight field texts between two empty strings,
    joined by the separator. *)
Lemma makeKey_fields m :
  makeKey m =
    join [BROKEN_BAR]
      [[]; key_string (source m); key_string (code m);
       key_severity (severity m); key_string (message m);
       key_number (startLineNumber m); key_number (startColumn m);
       key_number (endLineNumber m); key_number (endColumn m); []].
Proof.
  unfold makeKey. rewrite !push_string_key.
  destruct (severity m), (startLineNumber m), (startColumn m),
    (endLineNumber m), (endColumn m); reflexivity.
Qed.

(** X2.  [makeKey] escapes nothing: the replacement ['\¦'] is the separator
    itself.  So a separator inside a field moves the field boundary (source
    [x¦y] with code [z] and source [x] with code [y¦z] share their key), an
    empty string field and an undefined one share their key, and so do the
    severity [Hint], which has no display string, and an undefined
    severity. *)
Theorem makeKey_collisions (m : IMarkerData) (x y z : jsstring) :
  makeKey (with_source_code m (Some (x ++ BROKEN_BAR :: y)) (Some z)) =
  makeKey (with_source_code m (Some x) (Some (y ++ BROKEN_BAR :: z))) /\
  makeKey (with_source_code m (Some []) (code m)) =
  makeKey (with_source_code m None (code m)) /\
  makeKey (with_severity m (Some MarkerSeverity.Hint)) =
  makeKey (with_severity m None).
Proof.
  rewrite !makeKey_fields. split; [|split]; try reflexivity.
  cbn [with_source_code source code severity message startLineNumber
         startColumn endLineNumber endColumn key_string default from_option
         id join app].
  rewrite <- !app_assoc. reflexivity.
Qed.

End MarkerKeyCollisions.

(** ** The language registry, continued *)

Lemma mergeLanguage_mimetypes rl lang : mimetypes (_mergeLanguage rl lang) <> [].
Proof.
  unfold _mergeLanguage.
  destruct (lang_mimetypes lang) as [[|[|c m] ms]|];
    cbn [mimetypes truthy]; intros E;
    repeat match goal with
           | H : _ ++ _ = [] |- _ => apply app_eq_nil in H as [? ?]
           end; discriminate.
Qed.

Lemma mergeLanguage_aliases rl lang k :
  In k (aliases rl) \/ k = lang_id lang -> In k (aliases (_mergeLanguage rl lang)).
Proof.
  intros Hk.
  assert (Hin : In k (aliases rl ++ [lang_id lang])).
  { apply in_or_app. destruct Hk as [Hk| ->]; [now left|right; now left]. }
  unfold _mergeLanguage.
  destruct (lang_mimetypes lang) as [[|m ms]|]; cbn [aliases];
    destruct (lang_aliases lang) as [[|a l]|]; try exact Hin;
    apply in_or_app; now left.
Qed.

Lemma entries_inv_step lang r :
  entries_inv r -> entries_inv (_registerLanguage lang r).
Proof.
  intros Hent k rl. unfold _registerLanguage.
  destruct (_languages r !! lang_id lang) as [rl0|] eqn:Hown; cbn.
  - destruct (decide (lang_id lang = k)) as [<-|Hne].
    + rewrite lookup_insert_eq. intros [= <-].
      split; [apply mergeLanguage_mimetypes|].
      apply mergeLanguage_aliases. left. now apply (Hent _ _ Hown).
    + rewrite lookup_insert_ne by assumption. apply Hent.
  - unfold obj_set. destruct (decide (lang_id lang = PROTO)); [apply Hent|].
    destruct (decide (lang_id lang = k)) as [<-|Hne].
    + rewrite lookup_insert_eq. intros [= <-].
      split; [apply mergeLanguage_mimetypes|].
      apply mergeLanguage_aliases. now right.
    + rewrite lookup_insert_ne by assumption. apply Hent.
Qed.

Lemma ids_inv_new b : ids_inv (new_LanguagesRegistry b).
Proof.
  split; [|split]; cbn.
  - intros n k Hn. destruct n; discriminate.
  - intros n Hn. lia.
  - now left.
Qed.

Lemma ids_inv_step lang r :
  registry_inv r -> ids_inv r -> ids_inv (_registerLanguage lang r).
Proof.
  intros (Hent & Hlen & Hnext) (Hslot & Hdense & Hsize).
  unfold _registerLanguage.
  destruct (_languages r !! lang_id lang) as [rl0|] eqn:Hown.
  - split; [|split]; cbn; try assumption.
    intros n k Hn. destruct (Hslot n k Hn) as [Hrange Hk].
    split; [exact Hrange|].
    destruct Hk as [->|(rl & Hk & Hid)]; [now left|right].
    destruct (decide (lang_id lang = k)) as [<-|Hne].
    + exists (_mergeLanguage rl0 lang). rewrite lookup_insert_eq.
      split; [reflexivity|]. rewrite mergeLanguage_identifier. congruence.
    + exists rl. now rewrite lookup_insert_ne.
  - set (next := _nextLanguageId r) in *.
    assert (Hnew : array_set next (lang_id lang) (_languageIds r)
                     !! N.to_nat next = Some (Some (lang_id lang)))
      by now apply array_set_extend_new.
    assert (Hnewlen : length (array_set next (lang_id lang) (_languageIds r))
                      = S (N.to_nat next))
      by now apply array_set_extend_length.
    assert (Hold : forall n, (n < N.to_nat next)%nat ->
              array_set next (lang_id lang) (_languageIds r) !! n
              = match _languageIds r !! n with
                | Some x => Some x
                | None => Some None
                end).
    { intros n Hn. rewrite array_set_extend by assumption.
      destruct (_languageIds r !! n) as [x|] eqn:Hx.
      - now apply lookup_app_l_Some.
      - apply lookup_ge_None in Hx.
        rewrite lookup_app_r by assumption.
        rewrite lookup_app_l by (rewrite length_replicate; lia).
        apply lookup_replicate_2. lia. }
    split; [|split]; cbn [_languageIds _nextLanguageId _languages].
    + intros n k Hn.
      assert (Hlt : (n < S (N.to_nat next))%nat).
      { rewrite <- Hnewlen. eapply lookup_lt_Some. exact Hn. }
      destruct (decide (n = N.to_nat next)) as [->|Hne].
      * rewrite Hnew in Hn. injection Hn as <-.
        split; [lia|]. unfold obj_set.
        destruct (decide (lang_id lang = PROTO)) as [Hp|Hp]; [now left|right].
        eexists. rewrite lookup_insert_eq. split; [reflexivity|].
        rewrite mergeLanguage_identifier. cbn. now rewrite N2Nat.id.
      * rewrite Hold in Hn by lia.
        destruct (_languageIds r !! n) as [x|] eqn:Hx; [|discriminate].
        injection Hn as ->.
        destruct (Hslot n k Hx) as [Hrange Hk].
        split; [lia|].
        destruct Hk as [->|(rl & Hk & Hid)]; [now left|right].
        exists rl. split; [|exact Hid]. unfold obj_set.
        destruct (decide (lang_id lang = PROTO)); [exact Hk|].
        rewrite lookup_insert_ne; [exact Hk|]. intros Heq.
        rewrite Heq in Hown. congruence.
    + intros n Hn.
      destruct (decide (n = N.to_nat next)) as [->|Hne]; [eauto|].
      rewrite Hold by lia.
      destruct (Hdense n ltac:(lia)) as [k Hk]. rewrite Hk. eauto.
    + right. rewrite Hnewlen. lia.
Qed.

Lemma reachable_invariants desc warn :
  registry_inv (_registerLanguages desc (new_LanguagesRegistry warn)) /\
  ids_inv (_registerLanguages desc (new_LanguagesRegistry warn)) /\
  entries_inv (_registerLanguages desc (new_LanguagesRegistry warn)).
Proof.
  unfold _registerLanguages.
  assert (H0 : registry_inv (new_LanguagesRegistry warn) /\
               ids_inv (new_LanguagesRegistry warn) /\
               entries_inv (new_LanguagesRegistry warn)).
  { split; [apply registry_inv_new|]. split; [apply ids_inv_new|].
    intros k rl Hk. cbn in Hk. rewrite lookup_empty in Hk. discriminate. }
  revert H0. generalize (new_LanguagesRegistry warn).
  induction desc as [|lang desc IH]; intros r (H1 & H2 & H3); [auto|].
  cbn. apply IH. split; [now apply registry_inv_step|].
  split; [now apply ids_inv_step|now apply entries_inv_step].
Qed.

Lemma registry_ids_consistent_witness :
  @LanguageId_Null editor_modes = 0 /\
  @getLanguageIdentifier editor_modes (inr 2)
    (_registerLanguages [plain_language (js "ts"); plain_language (js "md")]
       (new_LanguagesRegistry false))
  = Some {| li_language := js "md"; li_id := 2 |}.
Proof.
  split; [reflexivity|].
  destruct (@registry_ids_consistent editor_modes
              [plain_language (js "ts"); plain_language (js "md")] false
              eq_refl) as (_ & _ & Hrt).
  exact (Hrt (js "md")
           (_mergeLanguage
              {| identifier := {| li_language := js "md"; li_id := 2 |};
                 name := None; mimetypes := []; aliases := [];
                 extensions := []; filenames := []; configurationFiles := [] |}
              (plain_language (js "md")))
           ltac:(vm_compute; reflexivity) ltac:(discriminate)).
Defined.

(** [__proto__] never becomes an own entry of [_languages]. *)
Lemma proto_never_own desc warn :
  _languages (_registerLanguages desc (new_LanguagesRegistry warn)) !! PROTO
  = None.
Proof.
  unfold _registerLanguages.
  assert (H0 : _languages (new_LanguagesRegistry warn) !! PROTO = None)
    by apply lookup_empty.
  revert H0. generalize (new_LanguagesRegistry warn).
  induction desc as [|lang desc IH]; intros r0 H0; [exact H0|].
  cbn [fold_left]. apply IH.
  unfold _registerLanguage.
  destruct (_languages r0 !! lang_id lang) eqn:Hown0;
    cbn [_languages].
  - rewrite lookup_insert_ne; [exact H0|]. intros Heq.
    rewrite Heq in Hown0. congruence.
  - unfold obj_set. destruct (decide (lang_id lang = PROTO)); [exact H0|].
    now rewrite lookup_insert_ne.
Qed.

Section RegistryLookups.
Context `{Modes}.

(** X4.  A numeric id that was never handed out resolves to [null]: this
    holds of every id from [_nextLanguageId] on and of 0, unless the id is
    [LanguageId.Null], which resolves to the null identifier. *)
Theorem unallocated_ids_resolve_to_null (desc : list ILanguageExtensionPoint)
  (warn : bool) (n : LanguageId) :
  n <> LanguageId_Null ->
  _nextLanguageId (_registerLanguages desc (new_LanguagesRegistry warn)) <= n
  \/ n = 0 ->
  getLanguageIdentifier (inr n)
    (_registerLanguages desc (new_LanguagesRegistry warn)) = None.
Proof.
  intros Hnull Hn.
  destruct (reachable_invariants desc warn) as (_ & (Hslot & _ & Hsize) & _).
  set (r := _registerLanguages desc (new_LanguagesRegistry warn)) in *.
  unfold getLanguageIdentifier.
  destruct (decide (n = LanguageId_Null)); [contradiction|].
  unfold array_get.
  destruct (_languageIds r !! N.to_nat n) as [[k|]|] eqn:Hk; try reflexivity.
  exfalso. destruct (Hslot _ _ Hk) as [Hrange _]. lia.
Qed.

(** X5.  [getLanguageIdentifier] never answers with another language's
    identifier.  For a numeric id other than [LanguageId.Null] the result,
    if any, carries that numeric id and is the identifier of a registered
    language with a non-empty string id; for a string id other than
    [NULL_MODE_ID] the result, if any, carries that string id, and there is
    none when the string is not registered. *)
Theorem getLanguageIdentifier_sound (desc : list ILanguageExtensionPoint)
  (warn : bool) :
  (forall n li,
     n <> LanguageId_Null ->
     getLanguageIdentifier (inr n)
       (_registerLanguages desc (new_LanguagesRegistry warn)) = Some li ->
     li_id li = n /\ li_language li <> [] /\
     identifier <$>
       (_languages (_registerLanguages desc (new_LanguagesRegistry warn))
          !! li_language li) = Some li) /\
  (forall k li,
     k <> NULL_MODE_ID ->
     getLanguageIdentifier (inl k)
       (_registerLanguages desc (new_LanguagesRegistry warn)) = Some li ->
     li_language li = k /\
     identifier <$>
       (_languages (_registerLanguages desc (new_LanguagesRegistry warn)) !! k)
       = Some li) /\
  (forall k,
     k <> NULL_MODE_ID ->
     _languages (_registerLanguages desc (new_LanguagesRegistry warn)) !! k
       = None ->
     getLanguageIdentifier (inl k)
       (_registerLanguages desc (new_LanguagesRegistry warn)) = None).
Proof.
  destruct (reachable_invariants desc warn)
    as ((Hent & _ & _) & (Hslot & _ & _) & _).
  set (r := _registerLanguages desc (new_LanguagesRegistry warn)) in *.
  assert (Hlookup : forall (k : jsstring) li,
            (if hasOwnProperty (_languages r) k
             then identifier <$> (_languages r !! k) else None) = Some li ->
            li_language li = k /\
            identifier <$> (_languages r !! k) = Some li).
  { intros k li. unfold hasOwnProperty.
    destruct (_languages r !! k) as [rl|] eqn:Hk; [|discriminate].
    cbn. intros [= <-]. split; [|reflexivity]. now apply (Hent k rl). }
  split; [|split].
  - intros n li Hnull. unfold getLanguageIdentifier.
    destruct (decide (n = LanguageId_Null)); [contradiction|].
    unfold array_get.
    destruct (_languageIds r !! N.to_nat n) as [[k|]|] eqn:Hk;
      try discriminate.
    destruct k as [|c k]; [discriminate|].
    cbn [truthy default from_option id]. intros Hli.
    destruct (Hlookup _ _ Hli) as [Hlang Hown].
    rewrite Hlang. split; [|split; [discriminate|exact Hown]].
    destruct (Hslot _ _ Hk) as [_ [Hp|(rl & Hrl & Hid)]].
    + exfalso. rewrite Hp in Hown. subst r.
      rewrite proto_never_own in Hown. discriminate.
    + rewrite Hrl in Hown. cbn in Hown. injection Hown as <-.
      rewrite Hid. now rewrite N2Nat.id.
  - intros k li Hk. unfold getLanguageIdentifier.
    destruct (decide (k = NULL_MODE_ID)); [contradiction|]. apply Hlookup.
  - intros k Hk Hnone. unfold getLanguageIdentifier.
    destruct (decide (k = NULL_MODE_ID)); [contradiction|].
    unfold hasOwnProperty. now rewrite Hnone.
Qed.

End RegistryLookups.

(** X6.  The numeric ids are handed out without gaps: after any sequence of
    registrations the slots 1 to [_nextLanguageId - 1] of [_languageIds]
    each hold a string id, slot 0 and the slots from [_nextLanguageId] on
    hold none, and no more ids were handed out than languages were
    offered. *)
Theorem numeric_ids_are_dense (desc : list ILanguageExtensionPoint)
  (warn : bool) :
  array_get 0 (_languageIds (_registerLanguages desc (new_LanguagesRegistry warn)))
    = None /\
  (forall n,
     1 <= n < _nextLanguageId (_registerLanguages desc (new_LanguagesRegistry warn)) ->
     exists k,
       array_get n
         (_languageIds (_registerLanguages desc (new_LanguagesRegistry warn)))
       = Some k) /\
  (forall n,
     _nextLanguageId (_registerLanguages desc (new_LanguagesRegistry warn)) <= n ->
     array_get n
       (_languageIds (_registerLanguages desc (new_LanguagesRegistry warn)))
     = None) /\
  _nextLanguageId (_registerLanguages desc (new_LanguagesRegistry warn))
    <= 1 + N.of_nat (length desc).
Proof.
  destruct (reachable_invariants desc warn) as (_ & (Hslot & Hdense & _) & _).
  split; [|split; [|split]].
  - unfold array_get.
    destruct (_ !! N.to_nat 0) as [[k|]|] eqn:Hk; try reflexivity.
    destruct (Hslot _ _ Hk) as [Hrange _]. cbn in Hrange. lia.
  - intros n Hn. destruct (Hdense (N.to_nat n) ltac:(lia)) as [k Hk].
    exists k. unfold array_get. now rewrite Hk.
  - intros n Hn. unfold array_get.
    destruct (_ !! N.to_nat n) as [[k|]|] eqn:Hk; try reflexivity.
    destruct (Hslot _ _ Hk) as [Hrange _]. lia.
  - clear. unfold _registerLanguages.
    change 1 with (_nextLanguageId (new_LanguagesRegistry warn)) at 1.
    generalize (new_LanguagesRegistry warn).
    induction desc as [|lang desc IH]; intros r; cbn [fold_left length].
    + lia.
    + specialize (IH (_registerLanguage lang r)).
      assert (Hs : _nextLanguageId (_registerLanguage lang r)
                   <= _nextLanguageId r + 1).
      { unfold _registerLanguage.
        destruct (_languages r !! lang_id lang); cbn; lia. }
      lia.
Qed.

(** X7.  Every registered language is well formed: its identifier carries
    the string id it is registered under, it has at least one mime type
    (the declared ones, or [text/x-<id>]), and its own id is among its
    aliases. *)
Theorem registered_languages_are_well_formed
  (desc : list ILanguageExtensionPoint) (warn : bool) (k : jsstring)
  (rl : IResolvedLanguage) :
  _languages (_registerLanguages desc (new_LanguagesRegistry warn)) !! k
    = Some rl ->
  li_language (identifier rl) = k /\ mimetypes rl <> [] /\ In k (aliases rl).
Proof.
  intros Hk.
  destruct (reachable_invariants desc warn) as ((Hent & _) & _ & Hwf).
  destruct (Hent k rl Hk) as (Hl & _). destruct (Hwf k rl Hk) as (Hm & Ha).
  auto.
Qed.

Lemma unallocated_ids_resolve_to_null_witness :
  (7 : LanguageId) <> @LanguageId_Null editor_modes /\
  @getLanguageIdentifier editor_modes (inr 7)
    (_registerLanguages [plain_language (js "ts")] (new_LanguagesRegistry false))
  = None.
Proof.
  split; [discriminate|].
  apply (@unallocated_ids_resolve_to_null editor_modes
           [plain_language (js "ts")] false 7); [discriminate|].
  left. vm_compute. discriminate.
Defined.

Lemma registered_languages_are_well_formed_witness :
  exists rl,
    _languages (_registerLanguages [plain_language (js "ts")]
                  (new_LanguagesRegistry false)) !! js "ts" = Some rl /\
    mimetypes rl <> [].
Proof.
  eexists. split; [vm_compute; reflexivity|].
  eapply (registered_languages_are_well_formed [plain_language (js "ts")] false
            (js "ts")).
  vm_compute. reflexivity.
Defined.

(** ** The view, continued *)

Section ViewMoreFacts.
Context `{Surroundings}.

Lemma passes_zone_calls new : forallb is_zone_call new = true -> passes new = 0%nat.
Proof.
  induction new as [|ev new IH]; [auto|].
  cbn [forallb]. intros Hz. apply andb_true_iff in Hz as [Hev Hz].
  destruct ev; try discriminate; cbn; auto.
Qed.

Lemma grows_ret {A} (a : A) : Grows 0 (ret a).
Proof.
  intros s Hinv. exists []. rewrite app_nil_r. cbn. auto.
Qed.

Lemma grows_weaken {A} c c' (m : M A) : (c <= c')%nat -> Grows c m -> Grows c' m.
Proof.
  intros Hle Hm s Hinv. destruct (Hm s Hinv) as (new & Ht & Hp & Hi).
  exists new. repeat split; auto. lia.
Qed.

Lemma grows_bind {A B} c1 c2 (m : M A) (k : A -> M B) :
  Grows c1 m -> (forall a, Grows c2 (k a)) -> Grows (c1 + c2) (bind m k).
Proof.
  intros Hm Hk s Hinv. unfold bind.
  destruct (Hm s Hinv) as (new1 & Ht1 & Hp1 & Hi1).
  destruct (m s) as [a s1|e s1]; cbn [state_of] in *.
  - destruct (Hk a s1 Hi1) as (new2 & Ht2 & Hp2 & Hi2).
    exists (new1 ++ new2). rewrite Ht2, Ht1, <- app_assoc, passes_app.
    repeat split; auto. lia.
  - exists new1. repeat split; auto. lia.
Qed.

Lemma grows_same {A} (m : M A) :
  (forall s, same_view s (state_of (m s)) /\ trace (state_of (m s)) = trace s) ->
  Grows 0 m.
Proof.
  intros Hm s Hinv. destruct (Hm s) as [Hsame Ht].
  exists []. rewrite app_nil_r. repeat split; auto.
  now apply (sched_inv_same_view s).
Qed.

Lemma grows_perform {A} (f : World -> Outcome World Exn A) : Grows 0 (perform f).
Proof.
  apply grows_same. intros s. unfold perform.
  destruct (f (world s)); cbn; repeat split.
Qed.

Lemma grows_field {A} (f : ViewState -> A) : Grows 0 (field f).
Proof. apply grows_same. intros s. cbn. repeat split. Qed.

Lemma grows_set_flag b : Grows 0 (update (set_zonesHaveChanged b)).
Proof.
  intros s Hinv. exists []. rewrite app_nil_r. cbn. auto.
Qed.

Lemma grows_invoke {A} ev (f : World -> Outcome World Exn A) :
  passes [ev] = 0%nat -> Grows 0 (invoke ev f).
Proof.
  intros Hev s Hinv. exists [ev]. unfold invoke.
  destruct (f (world (add_event ev s))); cbn [state_of];
    (split; [reflexivity|]; split; [lia|exact Hinv]).
Qed.

Lemma grows_report e : Grows 0 (onUnexpectedError e).
Proof.
  intros s Hinv. exists [EUnexpectedError e]. cbn. auto.
Qed.

Lemma grows_safeInvokeNoArg {A} c (m : M A) :
  Grows c m -> Grows c (safeInvokeNoArg m).
Proof.
  intros Hm s Hinv. unfold safeInvokeNoArg, try_catch, bind, ret.
  destruct (Hm s Hinv) as (new & Ht & Hp & Hi).
  destruct (m s) as [a s1|e s1]; cbn [state_of] in *.
  - exists new. auto.
  - exists (new ++ [EUnexpectedError e]). cbn.
    rewrite Ht, <- app_assoc, passes_app. cbn.
    repeat split; auto. lia.
Qed.

Lemma grows_scheduleRender : Grows 0 _scheduleRender.
Proof.
  intros s Hinv.
  destruct (scheduleRender_spec s Hinv) as (s1 & h & -> & Hi & _ & _ & Ht & _).
  exists []. rewrite app_nil_r. cbn. auto.
Qed.

Lemma renderNow_trace s :
  exists new,
    trace (state_of (_renderNow s)) = trace s ++ new /\
    passes new = 1%nat /\ same_view s (state_of (_renderNow s)).
Proof.
  rewrite renderNow_eq.
  destruct (pass_shape s)
    as [w vd setup lp lp' lc lc' tail Hsame Htr Hsetup _ _ _ Ht _ _ _ _ _].
  assert (Hp : passes
                 (EActualRender :: setup ++
                  List.map (fun p => EPrepareRender p (new_RenderingContext vd)) lp ++
                  commit_events (new_RenderingContext vd) lc ++ tail) = 1%nat).
  { change (EActualRender :: ?l) with ([EActualRender] ++ l).
    rewrite !passes_app, (passes_setup vd setup Hsetup),
      passes_prepare_events, passes_commit_events.
    destruct Ht as [->|(p & r & _ & ->)]; reflexivity. }
  destruct (_actualRender s) as [[] s1|e s1]; cbn [state_of] in *.
  - eexists. split; [exact Htr|]. auto.
  - eexists. cbn [trace add_event]. rewrite Htr, <- app_assoc.
    split; [reflexivity|]. rewrite passes_app, Hp.
    split; [reflexivity|exact Hsame].
Qed.

Lemma grows_renderNow : Grows 1 _renderNow.
Proof.
  intros s Hinv. destruct (renderNow_trace s) as (new & Ht & Hp & Hsame).
  exists new. repeat split; auto; [lia|].
  now apply (sched_inv_same_view s).
Qed.

Lemma grows_animationFrame : Grows 1 animationFrame.
Proof.
  intros s Hinv. unfold sched_inv in Hinv.
  destruct (_renderAnimationFrame s) as [h|] eqn:Hf.
  - unfold animationFrame, bind, field, update. rewrite Hinv.
    cbn [runCallbacks]. unfold bind, _onRenderScheduled, bind, update,
      _flushAccumulatedAndRenderNow, ret.
    match goal with
    | |- context [_renderNow ?s1] =>
        destruct (renderNow_trace s1) as (new & Ht & Hp & Hsame);
        destruct (renderNow_spec s1) as (s2 & Heq & _ & _)
    end.
    rewrite Heq in *. cbn [state_of] in *.
    exists new. split; [exact Ht|]. split; [lia|].
    destruct Hsame as (_ & _ & Hf2 & Hq2 & _).
    unfold sched_inv. now rewrite Hf2, Hq2.
  - unfold animationFrame, bind, field, update. rewrite Hinv. cbn.
    exists []. rewrite app_nil_r. split; [reflexivity|].
    split; [cbn; lia|].
    unfold sched_inv. cbn. now rewrite Hf.
Qed.

Lemma grows_runCallback callback : Grows 0 (runCallback callback).
Proof.
  intros s Hinv.
  destruct (runCallback_step callback s)
    as (calls & Ht & Hz & _ & _ & _ & Hf & Hq & _).
  exists calls. split; [exact Ht|].
  split; [rewrite (passes_zone_calls calls Hz); lia|].
  unfold sched_inv in *. now rewrite Hf, Hq.
Qed.

Lemma grows_renderOnce {A} (callback : M A) :
  Grows 0 callback -> Grows 0 (_renderOnce callback).
Proof.
  intros Hc. unfold _renderOnce.
  apply (grows_bind 0 0); [now apply grows_safeInvokeNoArg|]. intros r.
  apply (grows_bind 0 0); [apply grows_scheduleRender|]. intros _.
  apply grows_ret.
Qed.

Lemma grows_change callback : Grows 0 (change callback).
Proof.
  unfold change.
  apply (grows_bind 0 0); [apply grows_set_flag|]. intros _.
  apply (grows_bind 0 0); [|intros _; apply grows_field].
  apply grows_renderOnce.
  apply (grows_bind 0 0).
  { apply (grows_safeInvokeNoArg 0 (runCallback callback)).
    apply grows_runCallback. }
  intros _. apply (grows_bind 0 0); [apply grows_field|]. intros changed.
  destruct changed; [|apply grows_ret].
  apply (grows_bind 0 0); [now apply grows_invoke|]. intros _.
  now apply grows_invoke.
Qed.

Lemma grows_render (nw everything : bool) :
  Grows (if nw then 1 else 0) (View_render nw everything).
Proof.
  unfold View_render.
  apply (grows_bind 0 (if nw then 1 else 0)).
  - destruct everything; [|apply grows_ret].
    apply (grows_bind 0 0); [apply grows_field|]. intros parts.
    apply grows_same. intros s. cbn. repeat split.
  - intros _. destruct nw;
      [apply grows_renderNow|apply grows_scheduleRender].
Qed.

Lemma grows_layoutContentWidget widgetData :
  Grows 0 (layoutContentWidget widgetData).
Proof.
  unfold layoutContentWidget.
  apply (grows_bind 0 0); [apply grows_perform|]. intros _.
  apply grows_scheduleRender.
Qed.

Lemma grows_layoutOverlayWidget widgetData :
  Grows 0 (layoutOverlayWidget widgetData).
Proof.
  unfold layoutOverlayWidget.
  apply (grows_bind 0 0); [apply grows_perform|]. intros shouldRender.
  destruct shouldRender; [apply grows_scheduleRender|apply grows_ret].
Qed.

Lemma grows_runOp op : Grows (if may_render op then 1 else 0) (runOp op).
Proof.
  destruct op as [| |nw everything|cb|cb|wd|wd|wd|wd|wd|wd|];
    cbn [runOp may_render].
  - apply grows_scheduleRender.
  - apply grows_renderNow.
  - destruct nw;
      [exact (grows_render true everything)
      |exact (grows_render false everything)].
  - apply (grows_bind 0 0); [apply grows_change|intros _; apply grows_ret].
  - apply (grows_bind 0 0); [|intros _; apply grows_ret].
    apply grows_renderOnce, grows_perform.
  - unfold addContentWidget.
    apply (grows_bind 0 0); [apply grows_perform|]. intros _.
    apply (grows_bind 0 0); [apply grows_layoutContentWidget|]. intros _.
    apply grows_scheduleRender.
  - apply grows_layoutContentWidget.
  - unfold removeContentWidget.
    apply (grows_bind 0 0); [apply grows_perform|]. intros _.
    apply grows_scheduleRender.
  - unfold addOverlayWidget.
    apply (grows_bind 0 0); [apply grows_perform|]. intros _.
    apply (grows_bind 0 0); [apply grows_layoutOverlayWidget|]. intros _.
    apply grows_scheduleRender.
  - apply grows_layoutOverlayWidget.
  - unfold removeOverlayWidget.
    apply (grows_bind 0 0); [apply grows_perform|]. intros _.
    apply grows_scheduleRender.
  - apply grows_animationFrame.
Qed.

(** X8.  Whatever a client, the event dispatcher and the host do to the
    view, in any order: at most one callback is ever waiting with the host
    and it is the one the view remembers; and render passes are started
    only by fired frames and synchronous flushes, at most one each, never
    by a request, a widget operation, a zone change or an event
    dispatch. *)
Theorem operations_keep_scheduler_invariant (ops : list ViewOp)
  (s : ViewState) :
  sched_inv s ->
  sched_inv (runOps ops s) /\
  (length (scheduled (runOps ops s)) <= 1)%nat /\
  (passes (trace (runOps ops s)) <=
     passes (trace s) + length (List.filter may_render ops))%nat.
Proof.
  unfold runOps. revert s.
  induction ops as [|op ops IH]; intros s Hinv.
  - cbn. split; [exact Hinv|]. split; [|lia].
    unfold sched_inv in Hinv.
    destruct (_renderAnimationFrame s); rewrite Hinv; cbn; lia.
  - cbn [fold_left List.filter].
    destruct (grows_runOp op s Hinv) as (new & Ht & Hp & Hi).
    destruct (IH _ Hi) as (H1 & H2 & H3).
    split; [exact H1|]. split; [exact H2|].
    rewrite Ht, passes_app in H3.
    destruct (may_render op); cbn [length]; lia.
Qed.

Lemma perform_then_schedule {A} (f : World -> Outcome World Exn A) s :
  sched_inv s ->
  requests_render_or_throws (let* _ := perform f in _scheduleRender) s.
Proof.
  intros Hinv. unfold requests_render_or_throws, bind, perform.
  destruct (f (world s)) as [a w|e w]; [|cbn; auto].
  destruct (scheduleRender_spec (set_world w s) Hinv)
    as (s1 & h & -> & _ & Hf & Hq & Ht & _).
  cbn [state_of]. split; [exact Ht|]. eauto.
Qed.

Lemma requests_render_twice m s :
  requests_render_or_throws m s ->
  sched_inv (state_of (m s)) ->
  requests_render_or_throws (let* _ := m in _scheduleRender) s.
Proof.
  unfold requests_render_or_throws, bind. intros [Ht Hm] Hinv.
  destruct (m s) as [[] s1|e s1]; cbn [state_of] in *; [|auto].
  destruct Hm as (h & Hf & Hq).
  rewrite (scheduleRender_pending s1 h Hf). cbn. eauto.
Qed.

(** X9.  Adding, laying out or removing a content widget, and adding or
    removing an overlay widget, request a render when the widget part
    returns: a frame is pending afterwards (one frame, also where the
    operation requests it twice), and no pass has run.  When the widget
    part throws, the exception reaches the caller and nothing was
    scheduled.  Laying out an overlay widget requests a render only when
    the widget part reports that the position changed. *)
Theorem widget_operations_request_render
  (cw : IContentWidgetData) (ow : IOverlayWidgetData) (s : ViewState) :
  sched_inv s ->
  requests_render_or_throws (addContentWidget cw) s /\
  requests_render_or_throws (layoutContentWidget cw) s /\
  requests_render_or_throws (removeContentWidget cw) s /\
  requests_render_or_throws (addOverlayWidget ow) s /\
  requests_render_or_throws (removeOverlayWidget ow) s /\
  (forall w,
     overlayWidgets_setWidgetPosition (ow_widget ow)
       (option_map owp_preference (ow_position ow)) (world s) = Ret false w ->
     layoutOverlayWidget ow s = Ret tt (set_world w s)) /\
  (forall w,
     overlayWidgets_setWidgetPosition (ow_widget ow)
       (option_map owp_preference (ow_position ow)) (world s) = Ret true w ->
     layoutOverlayWidget ow s = _scheduleRender (set_world w s)).
Proof.
  intros Hinv.
  assert (Hlay : requests_render_or_throws (layoutContentWidget cw) s)
    by (apply perform_then_schedule; exact Hinv).
  split; [|split; [exact Hlay|split; [now apply perform_then_schedule|]]].
  - unfold addContentWidget, requests_render_or_throws, bind, perform.
    destruct (contentWidgets_addWidget (cw_widget cw) (world s)) as [[] w|e w];
      [|cbn; auto].
    assert (Hinv1 : sched_inv (set_world w s)) by exact Hinv.
    pose proof (perform_then_schedule
                  (contentWidgets_setWidgetPosition (cw_widget cw)
                     (option_map cwp_position (cw_position cw))
                     (option_map cwp_preference (cw_position cw)))
                  (set_world w s) Hinv1) as [Ht Hm].
    fold (layoutContentWidget cw) in Ht, Hm.
    destruct (layoutContentWidget cw (set_world w s)) as [[] s1|e s1];
      cbn [state_of] in *; [|auto].
    destruct Hm as (h & Hf & Hq).
    rewrite (scheduleRender_pending s1 h Hf). cbn. eauto.
  - split; [|split; [now apply perform_then_schedule|]].
    + unfold addOverlayWidget, layoutOverlayWidget,
        requests_render_or_throws, bind, perform.
      destruct (overlayWidgets_addWidget (ow_widget ow) (world s))
        as [[] w|e w]; [|cbn; auto].
      cbn [world set_world].
      destruct (overlayWidgets_setWidgetPosition (ow_widget ow)
                  (option_map owp_preference (ow_position ow)) w)
        as [[|] w1|e w1]; [| |cbn; auto].
      * destruct (scheduleRender_spec (set_world w1 (set_world w s)) Hinv)
          as (s1 & h & -> & _ & Hf & Hq & Ht & _).
        rewrite (scheduleRender_pending s1 h Hf). cbn. eauto.
      * unfold ret.
        destruct (scheduleRender_spec (set_world w1 (set_world w s)) Hinv)
          as (s1 & h & -> & _ & Hf & Hq & Ht & _).
        cbn. eauto.
    + split; intros w Hw; unfold layoutOverlayWidget, bind, perform;
        rewrite Hw; reflexivity.
Qed.

(** X10.  [_renderOnce(callback)] never throws: an exception of the callback
    is reported once and the result is [undefined], otherwise the result is
    the callback's.  In both cases a frame is pending afterwards and no pass
    has run. *)
Theorem renderOnce_always_requests_render {A}
  (callback : World -> Outcome World Exn A) (s : ViewState) :
  sched_inv s ->
  exists s' h,
    _renderOnce (perform callback) s =
      Ret (match callback (world s) with
           | Ret a _ => Some a
           | Throw _ _ => None
           end) s' /\
    _renderAnimationFrame s' = Some h /\ scheduled s' = [h] /\
    events s s' = match callback (world s) with
                  | Ret _ _ => []
                  | Throw e _ => [EUnexpectedError e]
                  end.
Proof.
  intros Hinv.
  unfold _renderOnce, safeInvokeNoArg, try_catch, bind, ret, perform,
    onUnexpectedError, update.
  destruct (callback (world s)) as [a w|e w].
  - destruct (scheduleRender_spec (set_world w s) Hinv)
      as (s1 & h & -> & _ & Hf & Hq & Ht & _).
    exists s1, h. split; [reflexivity|]. split; [exact Hf|].
    split; [exact Hq|]. apply events_app. rewrite Ht. cbn.
    now rewrite app_nil_r.
  - destruct (scheduleRender_spec
                (add_event (EUnexpectedError e) (set_world w s)) Hinv)
      as (s1 & h & -> & _ & Hf & Hq & Ht & _).
    exists s1, h. split; [reflexivity|]. split; [exact Hf|].
    split; [exact Hq|]. apply events_app. rewrite Ht. reflexivity.
Qed.

Lemma change_pending callback s (P : ViewState -> Prop) :
  sched_inv s ->
  (forall sx h,
     _renderAnimationFrame sx = Some h -> scheduled sx = [h] -> P sx) ->
  P (state_of (change callback s)).
Proof.
  intros Hinv HP.
  unfold change, _renderOnce, safeInvokeNoArg, safeInvoke1Arg, try_catch.
  unfold bind at 1. unfold update at 1.
  set (s0 := set_zonesHaveChanged false s).
  destruct (runCallback_step callback s0)
    as (calls & _ & _ & _ & _ & _ & Hf & Hq & _).
  cbn [_renderAnimationFrame scheduled set_zonesHaveChanged s0] in Hf, Hq.
  assert (Hfin : forall sx,
            _renderAnimationFrame sx = _renderAnimationFrame s ->
            scheduled sx = scheduled s ->
            P (state_of (_scheduleRender sx))).
  { intros sx Hfx Hqx.
    assert (Hx : sched_inv sx) by (unfold sched_inv in *; now rewrite Hfx, Hqx).
    destruct (scheduleRender_spec sx Hx) as (s1 & h & -> & _ & H1 & H2 & _).
    exact (HP s1 h H1 H2). }
  unfold bind, ret, onUnexpectedError, update, field, invoke.
  destruct (runCallback callback s0) as [[] s1|e s1]; cbn [state_of] in *;
    cbn [zonesHaveChanged add_event world];
    destruct (zonesHaveChanged s1);
    cbn [world set_world add_event];
    try destruct (onHeightMaybeChanged (world s1)) as [[] w2|e2 w2];
    cbn [world set_world add_event];
    try destruct (emit_ViewZonesChangedEvent w2) as [[] w3|e3 w3];
    match goal with
    | |- context [_scheduleRender ?sx] =>
        specialize (Hfin sx Hf Hq);
        destruct (_scheduleRender sx); exact Hfin
    end.
Qed.

(** X11.  [change] always ends with a render request: when it returns, a
    frame is pending, whether the zones changed or not and whether the
    callback threw or not; and it has run no pass itself. *)
Theorem change_always_requests_render (callback : ZoneCallback)
  (s : ViewState) :
  sched_inv s ->
  exists h,
    _renderAnimationFrame (state_of (change callback s)) = Some h /\
    scheduled (state_of (change callback s)) = [h] /\
    passes (events s (state_of (change callback s))) = 0%nat.
Proof.
  intros Hinv.
  assert (Hpass : passes (events s (state_of (change callback s))) = 0%nat).
  { destruct (grows_change callback s Hinv) as (new & Ht & Hp & _).
    rewrite (events_app _ _ _ Ht). lia. }
  rewrite Hpass.
  apply (change_pending callback s
           (fun sx => exists h, _renderAnimationFrame sx = Some h /\
                                scheduled sx = [h] /\ 0%nat = 0%nat)); [exact Hinv|].
  intros sx h H1 H2. exists h. auto.
Qed.

Lemma disposeLoop_state parts s :
  exists w, state_of (disposeLoop parts s) = set_world w s.
Proof.
  revert s. induction parts as [|p parts IH]; intros s; cbn [disposeLoop].
  - exists (world s). now destruct s.
  - unfold bind, perform.
    destruct (viewPart_dispose p (world s)) as [[] w|e w].
    + destruct (IH (set_world w s)) as (w' & ->). now exists w'.
    + now exists w.
Qed.

Lemma dispose_state s :
  sched_inv s ->
  exists w ps,
    state_of (dispose s) =
      set_viewParts ps
        (set_world w
           (set_renderAnimationFrame None
              (set_scheduled [] (nextHandle s) s))) /\
    (is_ret (dispose s) = true -> ps = []).
Proof.
  unfold sched_inv. intros Hinv.
  assert (Hrest : exists s0,
            s0 = set_renderAnimationFrame None
                   (set_scheduled [] (nextHandle s) s) /\
            dispose s =
              (let* _ := perform eventDispatcher_removeEventHandler in
               let* _ := perform outgoingEvents_dispose in
               let* _ := perform pointerHandler_dispose in
               let* _ := perform viewLines_dispose in
               let* parts := field viewParts in
               let* _ := disposeLoop parts in
               let* _ := update (set_viewParts []) in
               perform ViewEventHandler_dispose) s0).
  { eexists. split; [reflexivity|].
    unfold dispose. unfold bind at 1. unfold field at 1.
    destruct (_renderAnimationFrame s) as [h|] eqn:Hf.
    - unfold bind at 1. unfold bind at 1. unfold Handle_dispose, update.
      rewrite Hinv. cbn [List.filter]. rewrite Nat.eqb_refl. reflexivity.
    - unfold bind at 1. unfold ret at 1.
      destruct s; cbn in *; subst; reflexivity. }
  destruct Hrest as (s0 & Hs0 & ->). rewrite <- Hs0. clear Hs0 Hinv.
  unfold bind, perform, field, update.
  destruct (eventDispatcher_removeEventHandler (world s0)) as [[] w1|e w1];
    cbn [state_of is_ret world set_world viewParts];
    [|exists w1, (viewParts s0); split; [now destruct s0|discriminate]].
  destruct (outgoingEvents_dispose w1) as [[] w2|e w2];
    cbn [state_of is_ret world set_world viewParts];
    [|exists w2, (viewParts s0); split; [now destruct s0|discriminate]].
  destruct (pointerHandler_dispose w2) as [[] w3|e w3];
    cbn [state_of is_ret world set_world viewParts];
    [|exists w3, (viewParts s0); split; [now destruct s0|discriminate]].
  destruct (viewLines_dispose w3) as [[] w4|e w4];
    cbn [state_of is_ret world set_world viewParts];
    [|exists w4, (viewParts s0); split; [now destruct s0|discriminate]].
  match goal with
  | |- context [disposeLoop ?ps ?sx] =>
      destruct (disposeLoop_state ps sx) as (w5 & Hw5);
      destruct (disposeLoop ps sx) as [[] s5|e s5]
  end; cbn [state_of] in Hw5; subst s5;
    cbn [state_of is_ret world set_world viewParts set_viewParts];
    [|exists w5, (viewParts s0); split; [now destruct s0|discriminate]].
  destruct (ViewEventHandler_dispose w5) as [[] w6|e w6];
    cbn [state_of is_ret];
    exists w6, []; split; try reflexivity; now destruct s0.
Qed.

(** X12.  [dispose] cancels the pending frame before anything else: whether
    it returns or one of the disposed collaborators throws, no frame is
    pending afterwards and no callback is left with the host, so that the
    next animation frame runs no pass; [dispose] runs no pass itself, and
    when it returns the list of view parts is empty.  (Disposing of the
    frame handle takes its callback from the host's queue.) *)
Theorem dispose_cancels_pending_frame (s : ViewState) :
  sched_inv s ->
  _renderAnimationFrame (state_of (dispose s)) = None /\
  scheduled (state_of (dispose s)) = [] /\
  events s (state_of (dispose s)) = [] /\
  events (state_of (dispose s)) (state_of (animationFrame (state_of (dispose s))))
    = [] /\
  (is_ret (dispose s) = true -> viewParts (state_of (dispose s)) = []).
Proof.
  intros Hinv. destruct (dispose_state s Hinv) as (w & ps & -> & Hps).
  split; [reflexivity|]. split; [reflexivity|].
  split; [apply events_app; cbn; now rewrite app_nil_r|].
  split; [|exact Hps].
  apply events_app. cbn. now rewrite app_nil_r.
Qed.

Lemma pass_events s :
  exists w vd setup lp lp' lc lc' tail,
    prepared (events s (state_of (_actualRender s))) = lp /\
    rendered (events s (state_of (_actualRender s))) = lc ++ rendered tail /\
    dirtyParts w (viewParts s) = lp ++ lp' /\
    dirtyParts w (viewParts s) = lc ++ lc' /\
    (tail = [] \/
     exists p r, lc' = p :: r /\ tail = [ERender p (new_RenderingContext vd)]) /\
    ((lc = [] /\ tail = []) \/ lp' = []) /\
    Forall (setup_event vd) setup.
Proof.
  destruct (pass_shape s)
    as [w vd setup lp lp' lc lc' tail _ Htr Hsetup _ Hlp Hlc Ht Hphase _ _ _ _].
  exists w, vd, setup, lp, lp', lc, lc', tail.
  rewrite (events_app _ _ _ Htr).
  change (EActualRender :: ?l) with ([EActualRender] ++ l).
  rewrite !prepared_app, !rendered_app,
    (prepared_setup vd setup Hsetup), (rendered_setup vd setup Hsetup),
    prepared_prepare_events, rendered_prepare_events,
    prepared_commit_events, rendered_commit_events.
  cbn [prepared rendered app].
  assert (Hpt : prepared tail = [])
    by (destruct Ht as [->|(p & r & _ & ->)]; reflexivity).
  rewrite Hpt, app_nil_r. auto 10.
Qed.

(** X13.  In one pass no part is prepared twice and no part is rendered
    twice, when the view registers no part twice; every part whose [render]
    is called had its [prepareRender] called in the same pass; and only
    registered parts are called. *)
Theorem pass_calls_each_part_at_most_once (s : ViewState) :
  List.NoDup (viewParts s) ->
  List.NoDup (prepared (events s (state_of (_actualRender s)))) /\
  List.NoDup (rendered (events s (state_of (_actualRender s)))) /\
  (forall p, In p (rendered (events s (state_of (_actualRender s)))) ->
             In p (prepared (events s (state_of (_actualRender s))))) /\
  (forall p, In p (prepared (events s (state_of (_actualRender s)))) ->
             In p (viewParts s)).
Proof.
  intros Hnd.
  destruct (pass_events s)
    as (w & vd & setup & lp & lp' & lc & lc' & tail
        & -> & -> & Hlp & Hlc & Ht & Hphase & _).
  assert (Hd : List.NoDup (dirtyParts w (viewParts s)))
    by (apply List.NoDup_filter; exact Hnd).
  assert (Hsub : forall p, In p (dirtyParts w (viewParts s)) ->
                           In p (viewParts s)).
  { intros p Hp. unfold dirtyParts in Hp.
    apply List.filter_In in Hp. tauto. }
  assert (Hr : exists rest,
            dirtyParts w (viewParts s) = (lc ++ rendered tail) ++ rest).
  { destruct Ht as [->|(p & r & -> & ->)].
    - exists lc'. cbn. now rewrite app_nil_r.
    - exists r. cbn. now rewrite <- app_assoc. }
  destruct Hr as (rest & Hr).
  split; [|split; [|split]].
  - rewrite Hlp in Hd. exact (List.NoDup_app_remove_r _ _ Hd).
  - rewrite Hr in Hd. exact (List.NoDup_app_remove_r _ _ Hd).
  - intros p Hp. destruct Hphase as [ [-> ->] | -> ]; [destruct Hp|].
    rewrite app_nil_r in Hlp. rewrite <- Hlp, Hr.
    apply List.in_or_app. now left.
  - intros p Hp. apply Hsub. rewrite Hlp. apply List.in_or_app. now left.
Qed.

(** X14.  A pass that finds the view outside the DOM, or finds neither the
    view lines nor any part dirty, is a no-op: the flush returns, and it
    has called no collaborator, changed no field and reported nothing. *)
Theorem pass_without_work_changes_nothing (s : ViewState) :
  isInDOM (world s) = false \/
  (viewLines_shouldRender (world s) = false /\
   dirtyParts (world s) (viewParts s) = []) ->
  _flushAccumulatedAndRenderNow s = Ret tt (add_event EActualRender s).
Proof.
  intros Hguard. unfold _flushAccumulatedAndRenderNow.
  rewrite renderNow_eq, actualRender_unfold. cbv zeta.
  destruct Hguard as [->|[-> ->]]; [reflexivity|].
  cbn. now destruct (isInDOM (world s)).
Qed.

(** X15.  A forced render that is deferred, [render(false, true)], runs no
    pass itself and leaves a frame pending; under the dirty-flag contract
    of the parts, when the view is in the DOM and the pass of the next
    animation frame reports no error, that pass calls [render] on every
    registered part, in registration order. *)
Theorem deferred_force_render_renders_every_part (s : ViewState) :
  PartContract ->
  sched_inv s ->
  isInDOM (world (state_of (View_render false true s))) = true ->
  reports (events (state_of (View_render false true s))
             (state_of (animationFrame (state_of (View_render false true s)))))
    = [] ->
  passes (events s (state_of (View_render false true s))) = 0%nat /\
  (exists h, scheduled (state_of (View_render false true s)) = [h]) /\
  rendered (events (state_of (View_render false true s))
              (state_of (animationFrame (state_of (View_render false true s)))))
    = viewParts s.
Proof.
  intros Hc Hinv.
  unfold View_render. unfold bind at 1 3 5 7 9 11. unfold bind, field, update.
  set (s0 := set_world
               (forceLoop (viewParts s) (viewLines_forceShouldRender (world s)))
               s).
  assert (Hinv0 : sched_inv s0) by exact Hinv.
  destruct (scheduleRender_spec s0 Hinv0)
    as (s1 & h & -> & _ & Hf & Hq & Ht & Hw & Hp).
  cbn [state_of]. intros Hdom.
  unfold animationFrame, bind, field, update. rewrite Hq.
  cbn [runCallbacks]. unfold bind, _onRenderScheduled, bind, update,
    _flushAccumulatedAndRenderNow, ret.
  set (s2 := set_renderAnimationFrame None
               (set_scheduled [] (nextHandle s1) s1)).
  assert (Heq : forall o : Outcome ViewState Exn unit,
            state_of match match o with
                           | Ret _ s' => Ret tt s'
                           | Throw e s' => Throw e s'
                           end with
                     | Ret _ s' => Ret tt s'
                     | Throw e s' => Throw e s'
                     end = state_of o)
    by (intros [[] ?|? ?]; reflexivity).
  destruct (renderNow_spec s2) as (s3 & Hs3 & _).
  rewrite Hs3. cbn [state_of].
  assert (Hst : s3 = state_of (_renderNow s2)) by now rewrite Hs3.
  clear Heq. rewrite Hst. clear Hs3 Hst s3.
  change (events s1 (state_of (_renderNow s2)))
    with (events s2 (state_of (_renderNow s2))).
  intros Hrep.
  split; [|split; [now exists h|]].
  - rewrite (events_app s s1 []); [reflexivity|].
    rewrite Ht. subst s0. cbn. now rewrite app_nil_r.
  - assert (Hdom2 : isInDOM (world s2) = true) by exact Hdom.
    destruct (flush_complete s2 Hdom2 Hrep) as (w & Hreach & _ & Hr & _).
    rewrite Hr. subst s2. cbn [viewParts set_renderAnimationFrame set_scheduled].
    rewrite Hp. subst s0. cbn [viewParts set_world].
    apply dirtyParts_all. intros p Hin.
    apply (setup_reach_keeps Hc _ _ p Hreach).
    cbn [world set_renderAnimationFrame set_scheduled]. rewrite Hw.
    cbn [world set_world]. now apply forceLoop_sets.
Qed.

End ViewMoreFacts.

Section DemoMore.
#[local] Existing Instance demo.
#[local] Existing Instance demo_surroundings.

(** The session runs two passes at most: it has a frame and a flush. *)
Lemma operations_keep_scheduler_invariant_witness :
  sched_inv (demo_view demo_only_B) /\
  sched_inv (runOps demo_session (demo_view demo_only_B)) /\
  (length (scheduled (runOps demo_session (demo_view demo_only_B))) <= 1)%nat /\
  (passes (trace (runOps demo_session (demo_view demo_only_B))) <=
     passes (trace (demo_view demo_only_B)) +
     length (List.filter may_render demo_session))%nat.
Proof.
  split; [reflexivity|].
  apply (operations_keep_scheduler_invariant demo_session
           (demo_view demo_only_B)).
  reflexivity.
Defined.

Lemma widget_operations_request_render_witness :
  sched_inv (demo_view demo_world) /\
  requests_render_or_throws (addContentWidget demo_content_widget)
    (demo_view demo_world) /\
  requests_render_or_throws (removeOverlayWidget demo_overlay_widget)
    (demo_view demo_world).
Proof.
  split; [reflexivity|].
  destruct (widget_operations_request_render demo_content_widget
              demo_overlay_widget (demo_view demo_world) eq_refl)
    as (Hadd & _ & _ & _ & Hrem & _).
  split; [exact Hadd|exact Hrem].
Defined.

(** A callback that throws: reported once, a frame is pending. *)
Lemma renderOnce_always_requests_render_witness :
  sched_inv (demo_view demo_world) /\
  exists s' h,
    _renderOnce (perform (fun w => @Throw DemoWorld string unit "boom"%string w))
      (demo_view demo_world) = Ret None s' /\
    _renderAnimationFrame s' = Some h /\ scheduled s' = [h] /\
    events (demo_view demo_world) s' = [EUnexpectedError "boom"%string].
Proof.
  split; [reflexivity|].
  exact (renderOnce_always_requests_render
           (fun w => @Throw DemoWorld string unit "boom"%string w)
           (demo_view demo_world) eq_refl).
Defined.

Lemma change_always_requests_render_witness :
  sched_inv (demo_view (demo_faulty FaultAddZone demo_world)) /\
  exists h,
    _renderAnimationFrame
      (state_of (change demo_add_callback
                   (demo_view (demo_faulty FaultAddZone demo_world)))) = Some h /\
    scheduled
      (state_of (change demo_add_callback
                   (demo_view (demo_faulty FaultAddZone demo_world)))) = [h] /\
    passes
      (events (demo_view (demo_faulty FaultAddZone demo_world))
         (state_of (change demo_add_callback
                      (demo_view (demo_faulty FaultAddZone demo_world)))))
      = 0%nat.
Proof.
  split; [reflexivity|].
  exact (change_always_requests_render demo_add_callback
           (demo_view (demo_faulty FaultAddZone demo_world)) eq_refl).
Defined.

(** A frame is pending when the view is disposed of: it never fires. *)
Lemma dispose_cancels_pending_frame_witness :
  sched_inv demo_pending /\
  scheduled demo_pending = [0%nat] /\
  _renderAnimationFrame (state_of (dispose demo_pending)) = None /\
  scheduled (state_of (dispose demo_pending)) = [] /\
  events (state_of (dispose demo_pending))
    (state_of (animationFrame (state_of (dispose demo_pending)))) = [].
Proof.
  split; [reflexivity|]. split; [reflexivity|].
  destruct (dispose_cancels_pending_frame demo_pending eq_refl)
    as (Hf & Hq & _ & Hfire & _).
  split; [exact Hf|]. split; [exact Hq|exact Hfire].
Defined.

Lemma pass_calls_each_part_at_most_once_witness :
  List.NoDup (viewParts (demo_view demo_all_dirty)) /\
  List.NoDup
    (rendered (events (demo_view demo_all_dirty)
                 (state_of (_actualRender (demo_view demo_all_dirty))))).
Proof.
  assert (Hnd : List.NoDup (viewParts (demo_view demo_all_dirty))).
  { cbn. repeat constructor; cbn; intuition discriminate. }
  split; [exact Hnd|].
  exact (proj1 (proj2 (pass_calls_each_part_at_most_once
                         (demo_view demo_all_dirty) Hnd))).
Defined.

(** Everything is dirty, but the view is detached. *)
Lemma pass_without_work_changes_nothing_witness :
  isInDOM (world (demo_view (demo_detached demo_all_dirty))) = false /\
  _flushAccumulatedAndRenderNow (demo_view (demo_detached demo_all_dirty)) =
    Ret tt (add_event EActualRender (demo_view (demo_detached demo_all_dirty))).
Proof.
  split; [reflexivity|].
  apply (pass_without_work_changes_nothing
           (demo_view (demo_detached demo_all_dirty))).
  left. reflexivity.
Defined.

(** Nothing is dirty; the deferred forced render renders A, B and C. *)
Lemma deferred_force_render_renders_every_part_witness :
  sched_inv (demo_view demo_world) /\
  rendered
    (events (state_of (View_render false true (demo_view demo_world)))
       (state_of (animationFrame
                    (state_of (View_render false true (demo_view demo_world))))))
    = [PartA; PartB; PartC].
Proof.
  split; [reflexivity|].
  exact (proj2 (proj2 (deferred_force_render_renders_every_part
                         (demo_view demo_world) demo_contract eq_refl
                         eq_refl eq_refl))).
Defined.

End DemoMore.

(** ** The lookup maps of the languages registry *)

Lemma split_nonempty sep s : String_split sep s <> [].
Proof.
  destruct s as [|c s]; cbn; [discriminate|].
  destruct (c =? sep); [discriminate|].
  destruct (String_split sep s); discriminate.
Qed.

Lemma split_app sep a b :
  String_split sep (a ++ sep :: b) = String_split sep a ++ String_split sep b.
Proof.
  induction a as [|c a IH]; cbn.
  - now rewrite N.eqb_refl.
  - destruct (c =? sep); [now rewrite IH|].
    rewrite IH. pose proof (split_nonempty sep a) as Hne.
    destruct (String_split sep a); [congruence|reflexivity].
Qed.

Lemma split_clean sep s : ~ In sep s -> String_split sep s = [s].
Proof.
  induction s as [|c s IH]; intros Hs; [reflexivity|].
  cbn. destruct (N.eqb_spec c sep) as [->|_]; [destruct Hs; now left|].
  rewrite IH; [reflexivity|]. intros Hin. apply Hs. now right.
Qed.

Lemma join_cons sep x y rest :
  join sep (x :: y :: rest) = x ++ sep ++ join sep (y :: rest).
Proof. reflexivity. Qed.

Lemma join_nonempty sep ms :
  ms <> [] -> Forall (fun m => m <> []) ms -> join sep ms <> [].
Proof.
  intros Hne Hall. destruct ms as [|x [|y rest]]; [congruence| |].
  - cbn. now inversion Hall.
  - rewrite join_cons. inversion Hall as [|? ? Hx _]; subst.
    destruct x; [congruence|discriminate].
Qed.

Lemma obj_set_inv {V} k (v : V) o k' x :
  obj_set k v o !! k' = Some x ->
  o !! k' = Some x \/ (x = v /\ k = k' /\ k <> PROTO).
Proof.
  unfold obj_set. destruct (decide (k = PROTO)) as [_|Hp]; [now left|].
  destruct (decide (k = k')) as [<-|Hne].
  - rewrite lookup_insert_eq. intros [= <-]. right. auto.
  - rewrite lookup_insert_ne by exact Hne. now left.
Qed.

Lemma obj_set_mono {V} k (v : V) o k' :
  is_Some (o !! k') -> is_Some (obj_set k v o !! k').
Proof.
  unfold obj_set. destruct (decide (k = PROTO)) as [_|Hp]; [auto|].
  destruct (decide (k = k')) as [<-|Hne].
  - rewrite lookup_insert_eq. eauto.
  - now rewrite lookup_insert_ne by exact Hne.
Qed.

Lemma obj_set_own {V} k (v : V) o :
  k <> PROTO -> is_Some (obj_set k v o !! k).
Proof.
  intros Hp. unfold obj_set. destruct (decide (k = PROTO)); [contradiction|].
  rewrite lookup_insert_eq. eauto.
Qed.

Lemma fold_obj_set_inv {V A} (f : A -> jsstring) (v : V) l o k x :
  fold_left (fun m a => obj_set (f a) v m) l o !! k = Some x ->
  o !! k = Some x \/ (x = v /\ k <> PROTO /\ exists a, In a l /\ f a = k).
Proof.
  revert o. induction l as [|a l IH]; intros o; cbn; [now left|].
  intros Hx. destruct (IH _ Hx) as [Ho|(-> & Hp & a' & Hin & Hf)].
  - destruct (obj_set_inv _ _ _ _ _ Ho) as [Ho'|(-> & <- & Hp)]; [now left|].
    right. split; [reflexivity|]. split; [exact Hp|]. exists a. auto.
  - right. split; [reflexivity|]. split; [exact Hp|]. exists a'. auto.
Qed.

Lemma fold_obj_set_mono {V A} (f : A -> jsstring) (v : V) l o k :
  is_Some (o !! k) ->
  is_Some (fold_left (fun m a => obj_set (f a) v m) l o !! k).
Proof.
  revert o. induction l as [|a l IH]; intros o Ho; cbn; [exact Ho|].
  apply IH. now apply obj_set_mono.
Qed.

Lemma fold_obj_set_in {V A} (f : A -> jsstring) (v : V) l o a :
  In a l -> f a <> PROTO ->
  is_Some (fold_left (fun m a => obj_set (f a) v m) l o !! f a).
Proof.
  revert o. induction l as [|b l IH]; intros o Hin Hp; [destruct Hin|].
  cbn. destruct Hin as [->|Hin].
  - apply fold_obj_set_mono. now apply obj_set_own.
  - now apply IH.
Qed.

Section RegistryLookupMaps.
Context `{Builtins}.

Lemma rebuild_step_registry languages this langId :
  registry (rebuild_step languages this langId) = registry this.
Proof.
  unfold rebuild_step. now destruct (languages !! langId).
Qed.

Lemma rebuild_fold_registry languages keys this :
  registry (fold_left (rebuild_step languages) keys this) = registry this.
Proof.
  revert this. induction keys as [|k keys IH]; intros this; [reflexivity|].
  cbn. rewrite IH. apply rebuild_step_registry.
Qed.

Lemma rebuild_registry r : registry (rebuild r) = r.
Proof. unfold rebuild. now rewrite rebuild_fold_registry. Qed.

Lemma rebuild_step_sound languages this langId :
  maps_sound languages this ->
  maps_sound languages (rebuild_step languages this langId).
Proof.
  intros [Hm Hl]. unfold rebuild_step.
  destruct (languages !! langId) as [language|] eqn:Hown; [|now split].
  split; cbn [_mimeTypesMap _lowercaseNameMap]; intros k ident Hk.
  - destruct (fold_obj_set_inv (fun mimetype : jsstring => mimetype)
                _ _ _ _ _ Hk) as [Hold|(-> & Hp & a & Hin & <-)];
      [now apply Hm|].
    split; [exact Hp|]. exists langId, language. auto.
  - destruct (fold_obj_set_inv toLowerCase _ _ _ _ _ Hk)
      as [Hold|(-> & Hp & a & Hin & <-)]; [now apply Hl|].
    split; [exact Hp|]. exists langId, language, a. auto.
Qed.

Lemma rebuild_step_covers_mono languages this langId language :
  covers language this -> covers language (rebuild_step languages this langId).
Proof.
  intros [Hm Hl]. unfold rebuild_step.
  destruct (languages !! langId) as [language'|]; [|now split].
  split; cbn [_mimeTypesMap _lowercaseNameMap].
  - intros k Hin Hp.
    apply (fold_obj_set_mono (fun mimetype : jsstring => mimetype)). auto.
  - intros alias Hin Hp. apply (fold_obj_set_mono toLowerCase). auto.
Qed.

Lemma rebuild_step_covers languages this langId language :
  languages !! langId = Some language ->
  covers language (rebuild_step languages this langId).
Proof.
  intros Hown. unfold rebuild_step. rewrite Hown.
  split; cbn [_mimeTypesMap _lowercaseNameMap].
  - intros k Hin Hp.
    exact (fold_obj_set_in (fun mimetype : jsstring => mimetype)
             _ _ _ k Hin Hp).
  - intros alias Hin Hp. exact (fold_obj_set_in toLowerCase _ _ _ alias Hin Hp).
Qed.

Lemma rebuild_fold_sound languages keys this :
  maps_sound languages this ->
  maps_sound languages (fold_left (rebuild_step languages) keys this).
Proof.
  revert this. induction keys as [|k keys IH]; intros this Hs; [exact Hs|].
  cbn. apply IH. now apply rebuild_step_sound.
Qed.

Lemma rebuild_fold_covers_mono languages keys this language :
  covers language this ->
  covers language (fold_left (rebuild_step languages) keys this).
Proof.
  revert this. induction keys as [|k keys IH]; intros this Hc; [exact Hc|].
  cbn. apply IH. now apply rebuild_step_covers_mono.
Qed.

Lemma rebuild_fold_covers languages keys this langId language :
  In langId keys -> languages !! langId = Some language ->
  covers language (fold_left (rebuild_step languages) keys this).
Proof.
  revert this. induction keys as [|k keys IH]; intros this Hin Hown;
    [destruct Hin|].
  cbn. destruct Hin as [->|Hin].
  - apply rebuild_fold_covers_mono. now apply rebuild_step_covers.
  - now apply IH.
Qed.

Lemma rebuild_maps_inv r : enumerates_own_keys -> maps_inv (rebuild r).
Proof.
  intros Hkeys. unfold maps_inv. rewrite rebuild_registry. unfold rebuild.
  split.
  - apply rebuild_fold_sound. split; intros k ident Hk; cbn in Hk;
      now rewrite lookup_empty in Hk.
  - intros langId language Hown.
    apply (rebuild_fold_covers _ _ _ langId); [|exact Hown].
    apply Hkeys. eauto.
Qed.

Lemma registerLanguages_app d1 d2 r :
  _registerLanguages (d1 ++ d2) r = _registerLanguages d2 (_registerLanguages d1 r).
Proof. unfold _registerLanguages. apply fold_left_app. Qed.

Lemma registered_from batches this :
  fold_left (fun this desc => _registerLanguages_rebuild desc this) batches this
  = _registerLanguages_rebuild (concat batches) this.
Proof.
  revert this. induction batches as [|desc batches IH]; intros this;
    [reflexivity|].
  cbn [fold_left concat]. rewrite IH.
  destruct desc as [|lang desc]; [reflexivity|].
  cbn [_registerLanguages_rebuild app].
  destruct (concat batches) as [|lang' rest] eqn:Hrest.
  - now rewrite app_nil_r.
  - cbn [_registerLanguages_rebuild]. rewrite rebuild_registry.
    change (lang :: desc ++ lang' :: rest)
      with ((lang :: desc) ++ lang' :: rest).
    now rewrite registerLanguages_app.
Qed.

Lemma registered_registry warn batches :
  registry (registered warn batches) =
    _registerLanguages (concat batches) (new_LanguagesRegistry warn).
Proof.
  unfold registered. rewrite registered_from.
  destruct (concat batches); [reflexivity|].
  cbn [_registerLanguages_rebuild]. now rewrite rebuild_registry.
Qed.

Lemma registered_maps_inv warn batches :
  enumerates_own_keys -> maps_inv (registered warn batches).
Proof.
  intros Hkeys. unfold registered. rewrite registered_from.
  destruct (concat batches); [|now apply rebuild_maps_inv].
  split; [split|]; cbn; intros ? ? Hk; now rewrite lookup_empty in Hk.
Qed.

(** X16.  Batching does not matter: after any sequence of
    [_registerLanguages] calls, empty ones included, the registry and its
    three lookup maps are what one call with all the descriptions in a row
    gives. *)
Theorem registration_batches_are_irrelevant (warn : bool)
  (batches : list (list ILanguageExtensionPoint)) :
  registered warn batches = registered warn [concat batches].
Proof.
  unfold registered. rewrite registered_from. reflexivity.
Qed.

Lemma registered_invariants warn batches :
  registry_inv (registry (registered warn batches)) /\
  entries_inv (registry (registered warn batches)).
Proof.
  rewrite registered_registry.
  destruct (reachable_invariants (concat batches) warn) as (Hr & _ & He).
  now split.
Qed.

(** X17.  [isRegisteredMode] answers [true] exactly for the ids of the
    registered languages and for the mime types that a registered language
    lists, the mime type [__proto__] apart, which never becomes a key of
    the map. *)
Theorem isRegisteredMode_spec (warn : bool)
  (batches : list (list ILanguageExtensionPoint)) (x : jsstring) :
  enumerates_own_keys ->
  isRegisteredMode x (registered warn batches) = true <->
  is_Some (_languages (registry (registered warn batches)) !! x) \/
  (x <> PROTO /\
   exists langId language,
     _languages (registry (registered warn batches)) !! langId = Some language /\
     In x (mimetypes language)).
Proof.
  intros Hkeys.
  destruct (registered_maps_inv warn batches Hkeys) as [[Hsound _] Hcov].
  unfold isRegisteredMode, hasOwnProperty. split.
  - destruct (_mimeTypesMap (registered warn batches) !! x) as [ident|] eqn:Hx.
    + intros _. right.
      destruct (Hsound x ident Hx) as (Hp & langId & language & Hown & _ & Hin).
      split; [exact Hp|]. exists langId, language. auto.
    + rewrite bool_decide_eq_false_2 by (intros [? ?]; discriminate).
      intros Hown. left. now apply bool_decide_eq_true_1 in Hown.
  - intros [Hown|(Hp & langId & language & Hown & Hin)].
    + destruct (bool_decide _); [reflexivity|].
      now apply bool_decide_eq_true_2.
    + destruct (Hcov langId language Hown) as [Hm _].
      now rewrite (bool_decide_eq_true_2 _ (Hm x Hin Hp)).
Qed.

(** X18.  A lower-cased name resolves to a registered language only, one
    that has an alias with that lower-cased form.  The lower-cased form of
    a registered id always resolves to some language, unless that form is
    [__proto__]; it resolves to the language of that id when no other
    registered language has an alias with the same lower-cased form (with
    the ids [Foo] and [foo] registered, both resolve to the same one). *)
Theorem lowercase_names_resolve_to_registered_languages (warn : bool)
  (batches : list (list ILanguageExtensionPoint)) :
  enumerates_own_keys ->
  (forall x id,
     getModeIdForLanguageNameLowercase x (registered warn batches) = Some id ->
     exists language alias,
       _languages (registry (registered warn batches)) !! id = Some language /\
       In alias (aliases language) /\ toLowerCase alias = x) /\
  (forall id language,
     _languages (registry (registered warn batches)) !! id = Some language ->
     toLowerCase id <> PROTO ->
     is_Some (getModeIdForLanguageNameLowercase (toLowerCase id)
                (registered warn batches))) /\
  (forall id language,
     _languages (registry (registered warn batches)) !! id = Some language ->
     toLowerCase id <> PROTO ->
     (forall id' language' alias,
        _languages (registry (registered warn batches)) !! id'
          = Some language' ->
        In alias (aliases language') ->
        toLowerCase alias = toLowerCase id -> id' = id) ->
     getModeIdForLanguageNameLowercase (toLowerCase id)
       (registered warn batches) = Some id).
Proof.
  intros Hkeys.
  destruct (registered_maps_inv warn batches Hkeys) as [[_ Hsound] Hcov].
  destruct (registered_invariants warn batches) as [(Hent & _) Haliases].
  assert (Hsnd : forall x id,
            getModeIdForLanguageNameLowercase x (registered warn batches)
              = Some id ->
            exists language alias,
              _languages (registry (registered warn batches)) !! id
                = Some language /\
              In alias (aliases language) /\ toLowerCase alias = x).
  { unfold getModeIdForLanguageNameLowercase, hasOwnProperty. intros x id.
    destruct (_lowercaseNameMap (registered warn batches) !! x)
      as [ident|] eqn:Hx.
    - rewrite bool_decide_eq_true_2 by eauto. cbn. intros [= <-].
      destruct (Hsound x ident Hx)
        as (_ & langId & language & alias & Hown & <- & Hin & Hlow).
      exists language, alias.
      destruct (Hent langId language Hown) as (-> & _). auto.
    - rewrite bool_decide_eq_false_2 by (intros [? ?]; discriminate).
      discriminate. }
  assert (Hcmp : forall id language,
            _languages (registry (registered warn batches)) !! id
              = Some language ->
            toLowerCase id <> PROTO ->
            is_Some (getModeIdForLanguageNameLowercase (toLowerCase id)
                       (registered warn batches))).
  { unfold getModeIdForLanguageNameLowercase, hasOwnProperty.
    intros id language Hown Hp.
    destruct (Hcov id language Hown) as [_ Hl].
    destruct (Haliases id language Hown) as [_ Hin].
    destruct (Hl id Hin Hp) as [ident Hident].
    rewrite Hident, bool_decide_eq_true_2 by eauto. cbn. eauto. }
  split; [exact Hsnd|]. split; [exact Hcmp|].
  intros id language Hown Hp Huniq.
  destruct (Hcmp id language Hown Hp) as [id' Hid'].
  rewrite Hid'. f_equal.
  destruct (Hsnd _ _ Hid') as (language' & alias & Hown' & Hin & Hlow).
  exact (Huniq id' language' alias Hown' Hin Hlow).
Qed.

Lemma extractModeIds_app a b this :
  a <> [] -> b <> [] ->
  extractModeIds (a ++ COMMA :: b) this =
    extractModeIds a this ++ extractModeIds b this.
Proof.
  intros Ha Hb. unfold extractModeIds.
  rewrite (truthy_nonempty a Ha), (truthy_nonempty b Hb).
  rewrite truthy_nonempty by (destruct a; discriminate).
  cbn [negb]. now rewrite split_app, !List.map_app, List.filter_app.
Qed.

(** X19.  [extractModeIds] works piece by piece: for two non-empty strings,
    the mode ids of [a + ',' + b] are those of [a] followed by those of
    [b]. *)
Theorem extractModeIds_comma (a b : jsstring) (this : LanguagesRegistryMaps) :
  a <> [] -> b <> [] ->
  extractModeIds (a ++ COMMA :: b) this =
    extractModeIds a this ++ extractModeIds b this.
Proof.
  intros Ha Hb. unfold extractModeIds.
  assert (Hab : a ++ COMMA :: b <> []) by (destruct a; discriminate).
  rewrite (truthy_nonempty a Ha), (truthy_nonempty b Hb),
    (truthy_nonempty _ Hab).
  cbn [negb]. rewrite split_app.
  now rewrite !List.map_app, List.filter_app.
Qed.

(** X20.  For one clean piece (not empty, no comma, no white space at
    either end) [extractModeIds] and [isRegisteredMode] agree: a piece that
    is not registered gives no mode id, and a registered one gives exactly
    one, the id of a registered language, which is the piece itself or a
    language that lists the piece as a mime type. *)
Theorem extractModeIds_of_clean_piece (warn : bool)
  (batches : list (list ILanguageExtensionPoint)) (t : jsstring) :
  enumerates_own_keys ->
  clean_piece t ->
  (isRegisteredMode t (registered warn batches) = false ->
   extractModeIds t (registered warn batches) = []) /\
  (isRegisteredMode t (registered warn batches) = true ->
   exists id language,
     extractModeIds t (registered warn batches) = [id] /\
     _languages (registry (registered warn batches)) !! id = Some language /\
     (id = t \/ In t (mimetypes language))).
Proof.
  intros Hkeys (Hne & Hcomma & Htrim).
  destruct (registered_maps_inv warn batches Hkeys) as [[Hsound _] _].
  destruct (registered_invariants warn batches) as [(Hent & _) _].
  unfold extractModeIds, isRegisteredMode.
  rewrite (truthy_nonempty t Hne), (split_clean COMMA t Hcomma).
  cbn [negb List.map]. rewrite Htrim. unfold hasOwnProperty.
  destruct (_mimeTypesMap (registered warn batches) !! t) as [ident|] eqn:Ht.
  - rewrite !(bool_decide_eq_true_2 (is_Some (Some ident))) by eauto.
    split; [discriminate|]. intros _.
    destruct (Hsound t ident Ht) as (_ & langId & language & Hown & <- & Hin).
    destruct (Hent langId language Hown) as (Hlang & _).
    exists langId, language. unfold default, from_option, id. cbn.
    rewrite Hlang.
    rewrite (bool_decide_eq_true_2 _ (mk_is_Some _ _ Hown)). auto.
  - rewrite !(bool_decide_eq_false_2 (is_Some (@None LanguageIdentifier)))
      by (intros [? ?]; discriminate).
    cbn [List.filter]. split; intros Hreg; rewrite Hreg; [reflexivity|].
    apply bool_decide_eq_true_1 in Hreg.
    destruct Hreg as [language Hown]. exists t, language. auto.
Qed.

Lemma extractModeIds_join ms this :
  Forall (fun m => m <> []) ms ->
  extractModeIds (join [COMMA] ms) this =
    concat (List.map (fun m => extractModeIds m this) ms).
Proof.
  induction ms as [|x [|y rest] IH]; intros Hall.
  - reflexivity.
  - cbn. now rewrite app_nil_r.
  - rewrite join_cons. inversion Hall as [|? ? Hx Hrest]; subst.
    change (x ++ [COMMA] ++ join [COMMA] (y :: rest))
      with (x ++ COMMA :: join [COMMA] (y :: rest)).
    rewrite extractModeIds_app;
      [|exact Hx|apply join_nonempty; [discriminate|exact Hrest]].
    rewrite (IH Hrest). reflexivity.
Qed.

(** X21.  The mode ids for a file are the mode ids of each guessed mime
    type, in the order of the guesses, when no guess is the empty string;
    and without a file name and a first line there are none. *)
Theorem getModeIds_follow_guessed_mime_types
  (filename firstLine : option jsstring) (this : LanguagesRegistryMaps) :
  Forall (fun m => m <> []) (guessMimeTypes filename firstLine) ->
  getModeIdsFromFilenameOrFirstLine filename firstLine this =
    if truthy filename || truthy firstLine
    then concat (List.map (fun m => extractModeIds m this)
                   (guessMimeTypes filename firstLine))
    else [].
Proof.
  intros Hall. unfold getModeIdsFromFilenameOrFirstLine.
  destruct (truthy filename), (truthy firstLine); cbn [negb andb orb];
    try reflexivity; now apply extractModeIds_join.
Qed.

End RegistryLookupMaps.

Lemma demo_builtins_enumerate : @enumerates_own_keys demo_builtins.
Proof.
  intros o k. cbn. rewrite <- list_elem_of_In, list_elem_of_fmap. split.
  - intros ([k' v] & -> & Hin). apply elem_of_map_to_list in Hin. eauto.
  - intros [v Hv]. exists (k, v). split; [reflexivity|].
    now apply elem_of_map_to_list.
Qed.

Section DemoLookups.
#[local] Existing Instance demo_builtins.

(** [text/plain] is no language id; it is registered as a mime type. *)
Lemma isRegisteredMode_spec_witness :
  enumerates_own_keys /\
  (is_Some (_languages (registry (registered false [demo_languages]))
              !! js "text/plain") \/
   (js "text/plain" <> PROTO /\
    exists langId language,
      _languages (registry (registered false [demo_languages])) !! langId
        = Some language /\
      In (js "text/plain") (mimetypes language))).
Proof.
  split; [exact demo_builtins_enumerate|].
  apply (proj1 (isRegisteredMode_spec false [demo_languages] (js "text/plain")
                  demo_builtins_enumerate)).
  vm_compute. reflexivity.
Defined.

(** The alias [Foo] of the language [foo].  With the ids [foo] and [Foo]
    both registered, the lower-cased form of either resolves to the one
    that the rebuild of the map reached last (here [Foo], in the
    enumeration order of this instance). *)
Lemma lowercase_names_resolve_to_registered_languages_witness :
  enumerates_own_keys /\
  (exists language alias,
     _languages (registry (registered false [demo_languages])) !! js "foo"
       = Some language /\
     In alias (aliases language) /\ toLowerCase alias = js "foo") /\
  getModeIdForLanguageNameLowercase (toLowerCase (js "foo"))
    (registered false [[plain_language (js "Foo"); plain_language (js "foo")]])
  = Some (js "Foo").
Proof.
  split; [exact demo_builtins_enumerate|]. split.
  - apply (proj1 (lowercase_names_resolve_to_registered_languages false
                    [demo_languages] demo_builtins_enumerate) (js "foo")).
    vm_compute. reflexivity.
  - vm_compute. reflexivity.
Defined.

Lemma extractModeIds_comma_witness :
  js "text/plain" <> [] /\ js " foo" <> [] /\
  extractModeIds (js "text/plain" ++ COMMA :: js " foo")
    (registered false [demo_languages]) =
  extractModeIds (js "text/plain") (registered false [demo_languages]) ++
  extractModeIds (js " foo") (registered false [demo_languages]).
Proof.
  split; [discriminate|]. split; [discriminate|].
  apply (extractModeIds_comma (js "text/plain") (js " foo")
           (registered false [demo_languages])); discriminate.
Defined.

(** An unknown piece gives nothing. *)
Lemma extractModeIds_of_clean_piece_witness :
  enumerates_own_keys /\ clean_piece (js "zzz") /\
  extractModeIds (js "zzz") (registered false [demo_languages]) = [].
Proof.
  assert (Hclean : clean_piece (js "zzz")).
  { split; [discriminate|]. split; [|reflexivity].
    cbn. unfold COMMA. intuition discriminate. }
  split; [exact demo_builtins_enumerate|]. split; [exact Hclean|].
  apply (proj1 (extractModeIds_of_clean_piece false [demo_languages]
                  (js "zzz") demo_builtins_enumerate Hclean)).
  vm_compute. reflexivity.
Defined.

Lemma getModeIds_follow_guessed_mime_types_witness :
  Forall (fun m => m <> []) (guessMimeTypes (Some (js "a.foo")) None) /\
  getModeIdsFromFilenameOrFirstLine (Some (js "a.foo")) None
    (registered false [demo_languages]) =
  extractModeIds (js "text/x-foo") (registered false [demo_languages]) ++
  extractModeIds (js "text/plain") (registered false [demo_languages]) ++ [].
Proof.
  assert (Hall : Forall (fun m : jsstring => m <> [])
                   (guessMimeTypes (Some (js "a.foo")) None)).
  { cbn. repeat constructor; discriminate. }
  split; [exact Hall|].
  exact (getModeIds_follow_guessed_mime_types (Some (js "a.foo")) None
           (registered false [demo_languages]) Hall).
Defined.

End DemoLookups.

(** ** The header *)

Section HeaderFacts.
Context `{App}.

Lemma count_command_app command l1 l2 :
  count_command command (l1 ++ l2) =
    (count_command command l1 + count_command command l2)%nat.
Proof.
  unfold count_command. now rewrite List.filter_app, length_app.
Qed.

Lemma App_execCommand_log command s :
  icon_spins (state_of (App_execCommand command s)) = icon_spins s /\
  (executed (state_of (App_execCommand command s)) = executed s \/
   executed (state_of (App_execCommand command s)) = executed s ++ [command]).
Proof.
  unfold App_execCommand.
  destruct (execCommand command (application s)); cbn; auto.
Qed.

Lemma dispatch_step ev s :
  (count_command "syncNotes" (executed (state_of (dispatch ev s))) +
   spinning s <=
   count_command "syncNotes" (executed s) +
   (if is_sync_end ev then 1 else 0) +
   spinning (state_of (dispatch ev s)))%nat.
Proof.
  destruct ev as [name| | |]; cbn [dispatch is_sync_end].
  - unfold onClickItem.
    destruct (quickAccessers_get name quickAccessers) as [[command|]|] eqn:Hget.
    + assert (Hname : String.eqb "syncNotes" name = false).
      { destruct (String.eqb_spec "syncNotes" name) as [<-|]; [|reflexivity].
        discriminate Hget. }
      destruct (App_execCommand_log name s) as [Hspin [Hlog|Hlog]];
        unfold spinning; rewrite Hspin, Hlog; [lia|].
      rewrite count_command_app. unfold count_command at 2. cbn [List.filter].
      rewrite Hname. cbn. lia.
    + unfold syncNotes_handler, spinning.
      destruct (icon_spins s) eqn:Hspin; cbn [state_of]; [rewrite Hspin; lia|].
      unfold App_execCommand.
      destruct (execCommand "syncNotes" (application s));
        cbn [state_of set_spin executed icon_spins];
        rewrite ?Hspin, ?count_command_app; cbn; lia.
    + cbn. lia.
  - destruct (App_execCommand_log "openSettingPanel" s)
      as [Hspin [Hlog|Hlog]]; unfold spinning; rewrite Hspin, Hlog; [lia|].
    rewrite count_command_app. cbn. lia.
  - unfold spinning. cbn [state_of set_spin executed icon_spins].
    destruct (icon_spins s); lia.
  - unfold spinning. cbn [state_of set_spin executed icon_spins].
    destruct (icon_spins s); lia.
Qed.

(** X22.  Sync clicks are debounced by the spinning icon: however the
    items are clicked, the [syncNotes] command runs at most once more than
    sync-complete and sync-failed messages arrived, and not even that once
    while the icon does not spin at the end (counted from a header whose
    icon does not spin). *)
Theorem sync_command_waits_for_sync_end (evs : list HeaderEvent)
  (s : HeaderState) :
  (count_command "syncNotes" (executed (dispatchAll evs s)) + spinning s <=
   count_command "syncNotes" (executed s) +
   length (List.filter is_sync_end evs) +
   spinning (dispatchAll evs s))%nat.
Proof.
  revert s. induction evs as [|ev evs IH]; intros s; [cbn; lia|].
  cbn [dispatchAll fold_left List.filter].
  fold (dispatchAll evs (state_of (dispatch ev s))).
  pose proof (IH (state_of (dispatch ev s))) as Hrest.
  pose proof (dispatch_step ev s) as Hstep.
  destruct (is_sync_end ev); cbn [length]; lia.
Qed.

End HeaderFacts.
